(** * Interval networks and symbolic interval propagation

    A shallow embedding of [symbolic_interval/symbolic_network.py]: the
    per-layer transfer functions ([Interval_Dense], [Interval_Conv2d],
    [Interval_ReLU], [Interval_Flatten]), the driver [Interval_network] and
    the two entry points [naive_interval_analyze] / [sym_interval_analyze].

    Conventions of the embedding.
    - A torch tensor is its size together with its row-major storage.
      Entries are exact rationals: rounding of machine floats is outside the
      model.  A division whose denominator is exactly zero has no rational
      value (torch yields inf or nan there); the model reports it as the
      outcome [NonFinite].
    - Python exceptions are the [Raise] outcomes of the [Result] monad.
    - Binary elementwise operations require equal sizes; the only
      broadcasts the source performs (against a Python scalar, and
      [idep * mask.view(batch, 1, n)]) are modelled by dedicated operations.
    - Device placement ([use_cuda]) selects where tensors live, not their
      values; the flag is kept on the records and both branches of each
      [if ix.use_cuda] compute the same tensor.
    - A transfer function updates the domain it is handed and returns it;
      it is embedded as the function from the domain before the call to
      the domain after it.  Module [Store] embeds the same code on a store
      of tensor objects, with its in-place writes, and the two embeddings
      are proved to agree. *)

From Stdlib Require Import String QArith Qabs List Bool Arith Lia Lqa.
Import ListNotations.
Open Scope Q_scope.

(* ================================================================== *)
(** ** Outcomes *)

Inductive Exn : Type :=
| InvalidBoundsError   (* the assertion of the interval constructors *)
| RuntimeError         (* torch size mismatch / invalid view *)
| IndexError           (* Python or torch index out of range *)
| AttributeError       (* attribute of an object that lacks it *)
| NonFinite            (* a float division by exactly zero *)
| ZeroDivisionError.   (* Python scalar division by zero *)

Inductive Result (A : Type) : Type :=
| Ok (a : A)
| Raise (e : Exn).
Arguments Ok {A} a.
Arguments Raise {A} e.

Definition bind {A B : Type} (r : Result A) (k : A -> Result B) : Result B :=
  match r with
  | Ok a => k a
  | Raise e => Raise e
  end.

Notation "x <- e ;; k" := (bind e (fun x => k))
  (at level 61, e at next level, right associativity).

Fixpoint mapM {A B : Type} (f : A -> Result B) (xs : list A) : Result (list B) :=
  match xs with
  | [] => Ok []
  | x :: xs' => y <- f x ;; ys <- mapM f xs' ;; Ok (y :: ys)
  end.

(* ================================================================== *)
(** ** Tensors *)

Record tensor (A : Type) : Type := mkT { tshape : list nat; data : list A }.
Arguments mkT {A} tshape data.
Arguments tshape {A} t.
Arguments data {A} t.

Definition Tensor : Type := tensor Q.
Definition BoolTensor : Type := tensor bool.

Definition numel (s : list nat) : nat := fold_right Nat.mul 1%nat s.

Definition shape_eqb (s1 s2 : list nat) : bool :=
  if list_eq_dec Nat.eq_dec s1 s2 then true else false.

Fixpoint zip_with {A B C : Type} (f : A -> B -> C) (xs : list A) (ys : list B)
  : list C :=
  match xs, ys with
  | x :: xs', y :: ys' => f x y :: zip_with f xs' ys'
  | _, _ => []
  end.

Definition mapT {A B : Type} (f : A -> B) (t : tensor A) : tensor B :=
  mkT (tshape t) (map f (data t)).

Definition zipT {A B C : Type} (f : A -> B -> C) (a : tensor A) (b : tensor B)
  : Result (tensor C) :=
  if shape_eqb (tshape a) (tshape b)
  then Ok (mkT (tshape a) (zip_with f (data a) (data b)))
  else Raise RuntimeError.

Definition Qltb (x y : Q) : bool := negb (Qle_bool y x).

(** [F.relu] on one entry. *)
Definition relu1 (x : Q) : Q := if Qle_bool 0 x then x else 0.

(** [bool_tensor.type_as(lower)] / [.type(torch.Tensor)] on one entry. *)
Definition b2q (b : bool) : Q := if b then 1 else 0.

Definition t_add (a b : Tensor) : Result Tensor := zipT Qplus a b.
Definition t_sub (a b : Tensor) : Result Tensor := zipT Qminus a b.
Definition t_mul (a b : Tensor) : Result Tensor := zipT Qmult a b.
Definition t_band (a b : BoolTensor) : Result BoolTensor := zipT andb a b.

(** Elementwise float division; a zero denominator has no value in Q. *)
Definition t_div (a b : Tensor) : Result Tensor :=
  if shape_eqb (tshape a) (tshape b)
  then if existsb (Qeq_bool 0) (data b)
       then Raise NonFinite
       else Ok (mkT (tshape a) (zip_with Qdiv (data a) (data b)))
  else Raise RuntimeError.

Definition t_lt0 (a : Tensor) : BoolTensor := mapT (fun x => Qltb x 0) a.
Definition t_gt0 (a : Tensor) : BoolTensor := mapT (fun x => Qltb 0 x) a.
Definition t_float (a : BoolTensor) : Tensor := mapT b2q a.
Definition t_relu (a : Tensor) : Tensor := mapT relu1 a.
Definition t_abs (a : Tensor) : Tensor := mapT Qabs a.
Definition t_neg (a : Tensor) : Tensor := mapT Qopp a.
Definition t_addc (a : Tensor) (k : Q) : Tensor := mapT (fun x => x + k) a.
Definition t_divc (a : Tensor) (k : Q) : Tensor := mapT (fun x => x / k) a.

(** [t.view(s)] / [t.reshape(s)] with every size given. *)
Definition view {A : Type} (t : tensor A) (s : list nat) : Result (tensor A) :=
  if (numel s =? numel (tshape t))%nat then Ok (mkT s (data t))
  else Raise RuntimeError.

(** The rows of a 2-D storage: [k] consecutive blocks of [n] entries. *)
Fixpoint to_rows {A : Type} (k n : nat) (d : list A) : list (list A) :=
  match k with
  | O => []
  | S k' => firstn n d :: to_rows k' n (skipn n d)
  end.

Fixpoint qsum (xs : list Q) : Q :=
  match xs with
  | [] => 0
  | x :: xs' => x + qsum xs'
  end.

Definition dot (xs ys : list Q) : Q := qsum (zip_with Qmult xs ys).

(** The size of the batch dimension, [t.size(0)] / [t.shape[0]]. *)
Definition size0 {A : Type} (t : tensor A) : Result nat :=
  match tshape t with
  | b :: _ => Ok b
  | [] => Raise IndexError
  end.

Definition zeros (s : list nat) : Tensor := mkT s (repeat 0 (numel s)).

(** In-place write of one list position (nothing happens out of range; the
    callers check the index first, as torch does). *)
Fixpoint upd {A : Type} (i : nat) (v : A) (xs : list A) : list A :=
  match xs, i with
  | [], _ => []
  | _ :: xs', O => v :: xs'
  | x :: xs', S i' => x :: upd i' v xs'
  end.

(* ------------------------------------------------------------------ *)
(** *** torch.nn.functional primitives used by the transfer functions *)

Definition split_last (s : list nat) : option (list nat * nat) :=
  match rev s with
  | n :: rs => Some (rev rs, n)
  | [] => None
  end.

Definition bias_ok (m : nat) (bias : option Tensor) : bool :=
  match bias with
  | None => true
  | Some b => shape_eqb (tshape b) [m]
  end.

(** One output row of [F.linear]: [W·r], plus the bias when one is given. *)
Definition linear_row (wrows : list (list Q)) (bias : option Tensor)
  (r : list Q) : list Q :=
  match bias with
  | Some b => zip_with Qplus (map (dot r) wrows) (data b)
  | None => map (dot r) wrows
  end.

(** [F.linear(x, W, bias)]: [x] of size [(.., n)], [W] of size [(m, n)]. *)
Definition F_linear (x W : Tensor) (bias : option Tensor) : Result Tensor :=
  match tshape W, split_last (tshape x) with
  | [m; n], Some (lead, n') =>
      if (n =? n')%nat && bias_ok m bias
      then Ok (mkT (lead ++ [m])
                 (flat_map (linear_row (to_rows m n (data W)) bias)
                    (to_rows (numel lead) n (data x))))
      else Raise RuntimeError
  | _, _ => Raise RuntimeError
  end.

(** Entry [(b, ci, r, c)] of the zero-padded input of a convolution. *)
Definition padded_at (x : Tensor) (Cin H Wd pH pW b ci r c : nat) : Q :=
  if (pH <=? r)%nat && (r <? pH + H)%nat && (pW <=? c)%nat && (c <? pW + Wd)%nat
  then nth (((b * Cin + ci) * H + (r - pH)) * Wd + (c - pW))%nat (data x) 0
  else 0.

(** The products summed into output entry [(b, co, i, j)]. *)
Definition conv_terms (x W : Tensor) (Cin H Wd kH kW sH sW pH pW b co i j : nat)
  : list Q :=
  flat_map (fun ci =>
    flat_map (fun ki =>
      map (fun kj =>
             nth (((co * Cin + ci) * kH + ki) * kW + kj)%nat (data W) 0
             * padded_at x Cin H Wd pH pW b ci (i * sH + ki) (j * sW + kj))
          (seq 0 kW))
      (seq 0 kH))
    (seq 0 Cin).

Definition conv_at (x W : Tensor) (bias : option Tensor)
  (Cin H Wd kH kW sH sW pH pW b co i j : nat) : Q :=
  match bias with
  | Some bv => qsum (conv_terms x W Cin H Wd kH kW sH sW pH pW b co i j)
               + nth co (data bv) 0
  | None => qsum (conv_terms x W Cin H Wd kH kW sH sW pH pW b co i j)
  end.

(** [F.conv2d(x, W, stride=, padding=, bias=)] on a batched input of size
    [(B, Cin, H, Wd)] with a kernel of size [(Cout, Cin, kH, kW)]. *)
Definition F_conv2d (x W : Tensor) (stride padding : nat * nat)
  (bias : option Tensor) : Result Tensor :=
  match tshape x, tshape W with
  | [B; Cin; H; Wd], [Cout; Cin'; kH; kW] =>
      let '(sH, sW) := stride in
      let '(pH, pW) := padding in
      if (Cin =? Cin')%nat && (0 <? sH)%nat && (0 <? sW)%nat
         && (kH <=? H + 2 * pH)%nat && (kW <=? Wd + 2 * pW)%nat
         && bias_ok Cout bias
      then
        let Ho := ((H + 2 * pH - kH) / sH + 1)%nat in
        let Wo := ((Wd + 2 * pW - kW) / sW + 1)%nat in
        Ok (mkT [B; Cout; Ho; Wo]
              (flat_map (fun b =>
                 flat_map (fun co =>
                   flat_map (fun i =>
                     map (fun j =>
                            conv_at x W bias Cin H Wd kH kW sH sW pH pW b co i j)
                         (seq 0 Wo))
                     (seq 0 Ho))
                   (seq 0 Cout))
                 (seq 0 B)))
      else Raise RuntimeError
  | _, _ => Raise RuntimeError
  end.

(** Column [j] of a matrix given by its rows. *)
Definition column (rows : list (list Q)) (j : nat) : list Q :=
  map (fun r => nth j r 0) rows.

(** [a.mm(b)] for 2-D tensors. *)
Definition t_mm (a b : Tensor) : Result Tensor :=
  match tshape a, tshape b with
  | [r; k], [k'; n] =>
      if (k =? k')%nat
      then let brows := to_rows k n (data b) in
           Ok (mkT [r; n]
                 (flat_map (fun arow => map (fun j => dot arow (column brows j))
                                            (seq 0 n))
                    (to_rows r k (data a))))
      else Raise RuntimeError
  | _, _ => Raise RuntimeError
  end.

(* ================================================================== *)
(** ** Layers of the [nn.Sequential] model *)

(** The class of a layer object.  [isinstance] is decided on this tag
    (user subclasses of the torch layers are not represented); a class
    other than the three torch ones carries its [__name__]. *)
Inductive LayerClass : Type :=
| nn_Linear
| nn_ReLU
| nn_Conv2d
| OtherClass (name : string).

Definition class_name (k : LayerClass) : string :=
  match k with
  | nn_Linear => "Linear"
  | nn_ReLU => "ReLU"
  | nn_Conv2d => "Conv2d"
  | OtherClass s => s
  end.

Record Layer : Type := mkLayer {
  layer_class : LayerClass;
  weight : Tensor;
  bias : option Tensor;
  stride : nat * nat;
  padding : nat * nat;
  out_features : nat
}.

Definition is_Linear (layer : Layer) : bool :=
  match layer_class layer with nn_Linear => true | _ => false end.
Definition is_ReLU (layer : Layer) : bool :=
  match layer_class layer with nn_ReLU => true | _ => false end.
Definition is_Conv2d (layer : Layer) : bool :=
  match layer_class layer with nn_Conv2d => true | _ => false end.

(** ['Flatten' in name] *)
Definition contains_Flatten (name : string) : bool :=
  match String.index 0 "Flatten" name with
  | Some _ => true
  | None => false
  end.

(** ['Flatten' in str(layer.__class__.__name__)] *)
Definition name_has_Flatten (layer : Layer) : bool :=
  contains_Flatten (class_name (layer_class layer)).

(* ================================================================== *)
(** ** The box domain: class [Interval] of [interval.py] *)

Module Interval.

Record t : Type := mk {
  l : Tensor;              (* lower bounds *)
  u : Tensor;              (* upper bounds *)
  c : Tensor;              (* center (l+u)/2 *)
  e : Tensor;              (* radius (u-l)/2 *)
  mask : list Tensor;      (* per-ReLU slope masks, diagnostics only *)
  use_cuda : bool
}.

(** Modelled from the spec: the body shared by the constructor and
    [update_lu] of class [Interval], which live in [interval.py]
    (spec 3 and 4.1: stores the bounds, fails with [InvalidBoundsError]
    unless [lower <= upper] everywhere, and derives
    [center = (lower+upper)/2], [radius = (upper-lower)/2]). *)
Definition store (lower upper : Tensor) (masks : list Tensor) (cuda : bool)
  : Result t :=
  ok <- zipT Qle_bool lower upper ;;
  if forallb (fun b : bool => b) (data ok)
  then s <- t_add lower upper ;;
       d <- t_sub upper lower ;;
       Ok (mk lower upper (t_divc s 2) (t_divc d 2) masks cuda)
  else Raise InvalidBoundsError.

(** Modelled from the spec: the constructor [Interval(lower, upper,
    use_cuda)] of [interval.py] (spec 4.1 [construct]); the list of
    diagnostic masks starts empty. *)
Definition construct (lower upper : Tensor) (cuda : bool) : Result t :=
  store lower upper [] cuda.

(** Modelled from the spec: [Interval.update_lu] of [interval.py]
    (spec 4.1 [update]: in-place replace, same invariant check). *)
Definition update_lu (ix : t) (lower upper : Tensor) : Result t :=
  store lower upper (mask ix) (use_cuda ix).

(** One row of worst-case logits: the true class at its lower bound,
    every other class at its upper bound. *)
Definition pin_row (K y : nat) (lrow urow : list Q) : list Q :=
  map (fun k => if (k =? y)%nat then nth k lrow 0 else nth k urow 0)
      (seq 0 K).

Fixpoint pin_rows (K : nat) (ys : list nat) (lrows urows : list (list Q))
  : list Q :=
  match ys, lrows, urows with
  | y :: ys', lr :: lrows', ur :: urows' =>
      pin_row K y lr ur ++ pin_rows K ys' lrows' urows'
  | _, _, _ => []
  end.

(** Modelled from the spec: [Interval.worst_case] of [interval.py]
    (spec 4.1 [worst_case(true_label)]), on bounds of size
    [(batch, classes)] with one label per sample. *)
Definition worst_case (ix : t) (y : list nat) : Result Tensor :=
  match tshape (l ix) with
  | [B; K] =>
      if (length y =? B)%nat && shape_eqb (tshape (u ix)) [B; K]
      then Ok (mkT [B; K]
                 (pin_rows K y (to_rows B K (data (l ix)))
                               (to_rows B K (data (u ix)))))
      else Raise RuntimeError
  | _ => Raise RuntimeError
  end.

End Interval.

(* ================================================================== *)
(** ** The symbolic domain: class [Symbolic_interval] of [interval.py] *)

(** [t.view(pre.., -1, post..)]: one inferred size between given ones. *)
Definition view_neg {A : Type} (t : tensor A) (pre post : list nat)
  : Result (tensor A) :=
  let k := (numel pre * numel post)%nat in
  if (k =? 0)%nat then Raise RuntimeError
  else if (numel (tshape t) mod k =? 0)%nat
       then Ok (mkT (pre ++ (numel (tshape t) / k)%nat :: post) (data t))
       else Raise RuntimeError.

Definition vadd (xs ys : list Q) : list Q := zip_with Qplus xs ys.

(** Columnwise sum of rows of length [n]. *)
Definition sum_rows (n : nat) (rows : list (list Q)) : list Q :=
  fold_right vadd (repeat 0 n) rows.

Module Symbolic_interval.

Record t : Type := mk {
  l : Tensor;                (* concretized lower bounds *)
  u : Tensor;                (* concretized upper bounds *)
  c : Tensor;                (* center *)
  idep : Tensor;             (* exact_dep: batch x inputs x units *)
  edep : list Tensor;        (* error_deps: each rows x units *)
  edep_ind : list Tensor;    (* error_owner: each rows x batch *)
  shape : list nat;          (* activation shape of one sample *)
  n : nat;                   (* units per sample *)
  batch_size : nat;
  use_cuda : bool
}.

Definition set_lu (ix : t) (lower upper : Tensor) : t :=
  mk lower upper (c ix) (idep ix) (edep ix) (edep_ind ix)
     (shape ix) (n ix) (batch_size ix) (use_cuda ix).

Definition set_deps (ix : t) (c' idep' : Tensor) (edep' : list Tensor) : t :=
  mk (l ix) (u ix) c' idep' edep' (edep_ind ix)
     (shape ix) (n ix) (batch_size ix) (use_cuda ix).

Definition set_shape (ix : t) (s : list nat) (k : nat) : t :=
  mk (l ix) (u ix) (c ix) (idep ix) (edep ix) (edep_ind ix)
     s k (batch_size ix) (use_cuda ix).

(** Row [i] of the initial exact dependency of one sample: zero except
    for the radius of input [i] at position [i]. *)
Definition diag_row (nn : nat) (radius : list Q) (i : nat) : list Q :=
  upd i (nth i radius 0) (repeat 0 nn).

(** Modelled from the spec: the constructor of [Symbolic_interval] in
    [interval.py] (spec 4.2 [construct], with the bounds check of spec 7):
    [center = (lower+upper)/2]; [exact_dep] is, per sample, the diagonal
    matrix of the radii [(upper-lower)/2]; no error terms yet. *)
Definition construct (lower upper : Tensor) (cuda : bool) : Result t :=
  ok <- zipT Qle_bool lower upper ;;
  if forallb (fun b : bool => b) (data ok)
  then s <- t_add lower upper ;;
       d <- t_sub upper lower ;;
       B <- size0 lower ;;
       let sh := tl (tshape lower) in
       let nn := numel sh in
       Ok (mk lower upper (t_divc s 2)
             (mkT (B :: nn :: sh)
                (flat_map (fun radius => flat_map (diag_row nn radius) (seq 0 nn))
                   (to_rows B nn (data (t_divc d 2)))))
             [] [] sh nn B cuda)
  else Raise InvalidBoundsError.

(** The owner-weighted absolute contribution of one error entry to
    sample [b]: the sum over rows [r] of [owner[r][b] * |error[r]|]. *)
Definition owned_abs (B nn b : nat) (err owner : Tensor) : list Q :=
  let r := hd 0%nat (tshape err) in
  sum_rows nn
    (zip_with (fun orow erow => map (Qmult (nth b orow 0)) erow)
       (to_rows r B (data owner))
       (to_rows r nn (map Qabs (data err)))).

(** The total radius of sample [b] given its block of exact rows. *)
Definition radius_of (ix : t) (b : nat) (block : list (list Q)) : list Q :=
  fold_left vadd
    (zip_with (owned_abs (batch_size ix) (n ix) b) (edep ix) (edep_ind ix))
    (sum_rows (n ix) block).

(** Modelled from the spec: [Symbolic_interval.concretize] of
    [interval.py] (spec 3 and 4.2): [lower = center - sum(|exact_dep|,
    over the inputs) - sum(|error_deps_i| weighted by owner, over i)],
    and symmetrically for [upper]; nothing else changes. *)
Definition concretize (ix : t) : t :=
  let B := batch_size ix in
  let nn := n ix in
  let rows_total := (length (data (idep ix)) / nn)%nat in
  let n0 := (rows_total / B)%nat in
  let blocks :=
    to_rows B n0 (to_rows rows_total nn (map Qabs (data (idep ix)))) in
  let radius := concat (zip_with (radius_of ix) (seq 0 B) blocks) in
  set_lu ix
    (mkT (tshape (c ix)) (zip_with Qminus (data (c ix)) radius))
    (mkT (tshape (c ix)) (zip_with Qplus (data (c ix)) radius)).

(** Modelled from the spec: [Symbolic_interval.shrink] of [interval.py]
    (spec 4.2 [reshape_for_conv]): center, exact dependency and every
    error entry are viewed in the spatial layout [(-1, shape..)]. *)
Definition shrink (ix : t) : Result t :=
  c' <- view_neg (c ix) [] (shape ix) ;;
  idep' <- view_neg (idep ix) [] (shape ix) ;;
  edep' <- mapM (fun ed => view_neg ed [] (shape ix)) (edep ix) ;;
  Ok (set_deps ix c' idep' edep').

(** Modelled from the spec: [Symbolic_interval.extend] of [interval.py]
    (spec 4.2 [reshape_from_conv]): the flattened layout, center
    [(batch, n)], exact dependency [(batch, -1, n)], errors [(-1, n)]. *)
Definition extend (ix : t) : Result t :=
  c' <- view (c ix) [batch_size ix; n ix] ;;
  idep' <- view_neg (idep ix) [batch_size ix] [n ix] ;;
  edep' <- mapM (fun ed => view_neg ed [] [n ix]) (edep ix) ;;
  Ok (set_deps ix c' idep' edep').

(** Modelled from the spec: [Symbolic_interval.worst_case] of
    [interval.py] (spec 4.2 [worst_case(true_label, num_classes)]):
    concretize first, then pin as in the box domain. *)
Definition worst_case (ix : t) (y : list nat) (num_classes : nat)
  : Result Tensor :=
  let ix' := concretize ix in
  let B := batch_size ix' in
  if (length y =? B)%nat
     && (numel (tshape (l ix')) =? B * num_classes)%nat
  then Ok (mkT [B; num_classes]
             (Interval.pin_rows num_classes y
                (to_rows B num_classes (data (l ix')))
                (to_rows B num_classes (data (u ix')))))
  else Raise RuntimeError.

End Symbolic_interval.

(* ================================================================== *)
(** ** Transfer functions *)

(** What a [forward] method can be handed: one of the two domains, or any
    other Python object ([None] included). *)
Inductive PyObj : Type :=
| PySym (ix : Symbolic_interval.t)
| PyBox (ix : Interval.t)
| PyNone
| PyOther (type_name : string).

(** [list(c[0].view(-1).size())[0]]: the number of units of one sample. *)
Definition units_per_sample (c : Tensor) : Result nat :=
  match tshape c with
  | b :: rest => if (b =? 0)%nat then Raise IndexError else Ok (numel rest)
  | [] => Raise IndexError
  end.

(** [Interval_Dense.forward] *)
Definition Interval_Dense_forward (layer : Layer) (ix : PyObj) : Result PyObj :=
  match ix with
  | PySym ix =>
      c' <- F_linear (Symbolic_interval.c ix) (weight layer) (bias layer) ;;
      idep' <- F_linear (Symbolic_interval.idep ix) (weight layer) None ;;
      edep' <- mapM (fun ed => F_linear ed (weight layer) None)
                 (Symbolic_interval.edep ix) ;;
      let ix := Symbolic_interval.set_deps ix c' idep' edep' in
      n' <- units_per_sample c' ;;
      let ix := Symbolic_interval.set_shape ix (tl (tshape c')) n' in
      Ok (PySym (Symbolic_interval.concretize ix))
  | PyBox ix =>
      c' <- F_linear (Interval.c ix) (weight layer) (bias layer) ;;
      e' <- F_linear (Interval.e ix) (t_abs (weight layer)) None ;;
      lo <- t_sub c' e' ;;
      hi <- t_add c' e' ;;
      ix' <- Interval.update_lu ix lo hi ;;
      Ok (PyBox ix')
  | _ => Ok PyNone
  end.

(** [Interval_Conv2d.forward] *)
Definition Interval_Conv2d_forward (layer : Layer) (ix : PyObj) : Result PyObj :=
  match ix with
  | PySym ix =>
      ix <- Symbolic_interval.shrink ix ;;
      c' <- F_conv2d (Symbolic_interval.c ix) (weight layer)
              (stride layer) (padding layer) (bias layer) ;;
      idep' <- F_conv2d (Symbolic_interval.idep ix) (weight layer)
                 (stride layer) (padding layer) None ;;
      edep' <- mapM (fun ed => F_conv2d ed (weight layer)
                                 (stride layer) (padding layer) None)
                 (Symbolic_interval.edep ix) ;;
      let ix := Symbolic_interval.set_deps ix c' idep' edep' in
      n' <- units_per_sample c' ;;
      let ix := Symbolic_interval.set_shape ix (tl (tshape c')) n' in
      Ok (PySym (Symbolic_interval.concretize ix))
  | PyBox ix =>
      c' <- F_conv2d (Interval.c ix) (weight layer)
              (stride layer) (padding layer) (bias layer) ;;
      e' <- F_conv2d (Interval.e ix) (t_abs (weight layer))
              (stride layer) (padding layer) None ;;
      lo <- t_sub c' e' ;;
      hi <- t_add c' e' ;;
      ix' <- Interval.update_lu ix lo hi ;;
      Ok (PyBox ix')
  | _ => Ok PyNone
  end.

(* ------------------------------------------------------------------ *)
(** *** Indexing helpers of the ReLU relaxation *)

(** [t[cond]]: the entries selected by a boolean mask, in storage order. *)
Fixpoint masked_select {A : Type} (xs : list A) (cond : list bool) : list A :=
  match xs, cond with
  | x :: xs', b :: cond' =>
      if b then x :: masked_select xs' cond' else masked_select xs' cond'
  | _, _ => []
  end.

(** [t[cond] = vals]: the selected entries are overwritten in order. *)
Fixpoint masked_assign {A : Type} (xs : list A) (cond : list bool)
  (vals : list A) : list A :=
  match xs, cond with
  | x :: xs', true :: cond' =>
      match vals with
      | v :: vals' => v :: masked_assign xs' cond' vals'
      | [] => x :: masked_assign xs' cond' []
      end
  | x :: xs', false :: cond' => x :: masked_assign xs' cond' vals
  | _, _ => xs
  end.

(** Elementwise division of two 1-D selections. *)
Definition v_div (xs ys : list Q) : Result (list Q) :=
  if existsb (Qeq_bool 0) ys then Raise NonFinite
  else Ok (zip_with Qdiv xs ys).

(** [int(cond.sum().item())] *)
Definition count_true (cond : list bool) : nat :=
  length (filter (fun b : bool => b) cond).

(** Storage positions of the true entries, ascending. *)
Fixpoint nonzero_from (p : nat) (cond : list bool) : list nat :=
  match cond with
  | [] => []
  | b :: cond' =>
      if b then p :: nonzero_from (S p) cond' else nonzero_from (S p) cond'
  end.

(** [cond.nonzero()] for a 2-D mask: the (row, column) pairs of the true
    entries in row-major order. *)
Definition nonzero (t : BoolTensor) : Result (list (nat * nat)) :=
  match tshape t with
  | [_; n] => Ok (map (fun p => ((p / n)%nat, (p mod n)%nat))
                    (nonzero_from 0 (data t)))
  | _ => Raise RuntimeError
  end.

Fixpoint scatter_rows (rows : list (list Q)) (idx : list nat) (src : list Q)
  : list (list Q) :=
  match rows, idx, src with
  | r :: rows', i :: idx', v :: src' => upd i v r :: scatter_rows rows' idx' src'
  | _, _, _ => rows
  end.

(** [t.scatter_(1, idx[:, None], src[:, None])] on a 2-D [t]: row [r]
    receives [src[r]] at column [idx[r]]. *)
Definition scatter_1 (t : Tensor) (idx : list nat) (src : list Q)
  : Result Tensor :=
  match tshape t with
  | [m; n] =>
      if (length idx <=? m)%nat && (length idx <=? length src)%nat
         && forallb (fun i => (i <? n)%nat) idx
      then Ok (mkT [m; n] (concat (scatter_rows (to_rows m n (data t)) idx src)))
      else Raise RuntimeError
  | _ => Raise RuntimeError
  end.

(** The loop [for i in range(len(ix.edep)): ix.edep[i] *= ix.edep_ind[i].mm(mask)]. *)
Fixpoint scale_edep (edep edep_ind : list Tensor) (mask : Tensor)
  : Result (list Tensor) :=
  match edep with
  | [] => Ok []
  | ed :: edep' =>
      match edep_ind with
      | [] => Raise IndexError
      | ind :: edep_ind' =>
          owner_mask <- t_mm ind mask ;;
          ed' <- t_mul ed owner_mask ;;
          rest <- scale_edep edep' edep_ind' mask ;;
          Ok (ed' :: rest)
      end
  end.

(** [idep * mask.view(batch, 1, n)]: every input row of sample [b] is
    multiplied entrywise by row [b] of the mask. *)
Definition mul_per_sample (idep : Tensor) (B nn : nat) (mask : Tensor)
  : Result Tensor :=
  maskv <- view mask [B; 1%nat; nn] ;;
  match tshape idep with
  | [B'; n0; n'] =>
      if (B' =? B)%nat && (n' =? nn)%nat
      then let irows := to_rows (B * n0) nn (data idep) in
           let mrows := to_rows B nn (data maskv) in
           Ok (mkT [B; n0; nn]
                 (flat_map (fun r => zip_with Qmult (nth r irows [])
                                                    (nth (r / n0)%nat mrows []))
                    (seq 0 (B * n0))))
      else Raise RuntimeError
  | _ => Raise RuntimeError
  end.

(** The additive constant of the box-domain slope denominator. *)
Definition slope_eps : Q := 1 # 1000000.

(** [(lower<0)*(upper>0)]: the units whose sign is undetermined. *)
Definition appr_cond (lower upper : Tensor) : Result BoolTensor :=
  t_band (t_lt0 lower) (t_gt0 upper).

(** The slope mask of the symbolic branch:
    [mask = (lower>0).type_as(lower)] and then
    [mask[cond] = upper[cond] / (upper[cond] - lower[cond])]. *)
Definition sym_relu_mask (lower upper : Tensor) (appr_condition : BoolTensor)
  : Result Tensor :=
  let cond := data appr_condition in
  let mask0 := t_float (t_gt0 lower) in
  let up := masked_select (data upper) cond in
  let lo := masked_select (data lower) cond in
  slopes <- v_div up (zip_with Qminus up lo) ;;
  Ok (mkT (tshape mask0) (masked_assign (data mask0) cond slopes)).

(** The slope mask of the box branch:
    [mask = cond * (upper / (upper - lower + 0.000001))],
    [mask = mask + 1 - cond], [mask = mask * (upper>0)]. *)
Definition box_relu_mask (lower upper : Tensor) : Result Tensor :=
  cond <- appr_cond lower upper ;;
  let appr_condition := t_float cond in
  width <- t_sub upper lower ;;
  slope <- t_div upper (t_addc width slope_eps) ;;
  mask <- t_mul appr_condition slope ;;
  mask <- t_sub (t_addc mask 1) appr_condition ;;
  t_mul mask (t_float (t_gt0 upper)).

(** [Interval_ReLU.forward] *)
Definition Interval_ReLU_forward (layer : Layer) (ix : PyObj) : Result PyObj :=
  match ix with
  | PySym ix =>
      let lower := Symbolic_interval.l ix in
      let upper := Symbolic_interval.u ix in
      appr_condition <- appr_cond lower upper ;;
      let cond := data appr_condition in
      mask <- sym_relu_mask lower upper appr_condition ;;
      let m := count_true cond in
      cond2 <- view_neg appr_condition [] [Symbolic_interval.n ix] ;;
      appr_ind <- nonzero cond2 ;;
      neg_lower <- t_mul mask (t_neg lower) ;;
      let appr_err := t_divc neg_lower 2 in
      error_row <- scatter_1 (zeros [m; Symbolic_interval.n ix])
                     (map snd appr_ind) (masked_select (data appr_err) cond) ;;
      B <- size0 lower ;;
      edep_ind <- scatter_1 (zeros [length appr_ind; B])
                    (map fst appr_ind) (repeat 1 (length appr_ind)) ;;
      scaled <- t_mul (Symbolic_interval.c ix) mask ;;
      shift <- t_mul appr_err (t_float appr_condition) ;;
      c' <- t_add scaled shift ;;
      edep' <- scale_edep (Symbolic_interval.edep ix)
                 (Symbolic_interval.edep_ind ix) mask ;;
      idep' <- mul_per_sample (Symbolic_interval.idep ix)
                 (Symbolic_interval.batch_size ix) (Symbolic_interval.n ix) mask ;;
      Ok (PySym (Symbolic_interval.mk lower upper c' idep'
                   (edep' ++ [error_row])
                   (Symbolic_interval.edep_ind ix ++ [edep_ind])
                   (Symbolic_interval.shape ix) (Symbolic_interval.n ix)
                   (Symbolic_interval.batch_size ix)
                   (Symbolic_interval.use_cuda ix)))
  | PyBox ix =>
      mask <- box_relu_mask (Interval.l ix) (Interval.u ix) ;;
      let ix := Interval.mk (Interval.l ix) (Interval.u ix)
                  (Interval.c ix) (Interval.e ix)
                  (Interval.mask ix ++ [mask]) (Interval.use_cuda ix) in
      ix' <- Interval.update_lu ix (t_relu (Interval.l ix)) (t_relu (Interval.u ix)) ;;
      Ok (PyBox ix')
  | _ => Ok PyNone
  end.

(** [Interval_Flatten.forward] *)
Definition Interval_Flatten_forward (ix : PyObj) : Result PyObj :=
  match ix with
  | PySym ix =>
      ix' <- Symbolic_interval.extend ix ;;
      Ok (PySym ix')
  | PyBox ix =>
      bl <- size0 (Interval.l ix) ;;
      lo <- view_neg (Interval.l ix) [bl] [] ;;
      bu <- size0 (Interval.u ix) ;;
      hi <- view_neg (Interval.u ix) [bu] [] ;;
      ix' <- Interval.update_lu ix lo hi ;;
      Ok (PyBox ix')
  | _ => Ok PyNone
  end.

(* ================================================================== *)
(** ** The driver: class [Interval_network] *)

Inductive IntervalLayer : Type :=
| Interval_Dense (layer : Layer)
| Interval_ReLU (layer : Layer)
| Interval_Conv2d (layer : Layer)
| Interval_Flatten.

(** The body of the loop of [Interval_network.__init__]: four independent
    tests, each appending to [self.net]. *)
Definition add_layer (net : list IntervalLayer) (layer : Layer)
  : list IntervalLayer :=
  let net := if is_Linear layer then net ++ [Interval_Dense layer] else net in
  let net := if is_ReLU layer then net ++ [Interval_ReLU layer] else net in
  let net := if is_Conv2d layer then net ++ [Interval_Conv2d layer] else net in
  let net := if name_has_Flatten layer then net ++ [Interval_Flatten] else net in
  net.

(** [Interval_network.__init__] *)
Definition Interval_network (model : list Layer) : list IntervalLayer :=
  fold_left add_layer model [].

(** [layer(ix)]: dispatch to the transfer function's [forward]. *)
Definition call_layer (f : IntervalLayer) (ix : PyObj) : Result PyObj :=
  match f with
  | Interval_Dense layer => Interval_Dense_forward layer ix
  | Interval_ReLU layer => Interval_ReLU_forward layer ix
  | Interval_Conv2d layer => Interval_Conv2d_forward layer ix
  | Interval_Flatten => Interval_Flatten_forward ix
  end.

(** [Interval_network.forward] *)
Fixpoint Interval_network_forward (net : list IntervalLayer) (ix : PyObj)
  : Result PyObj :=
  match net with
  | [] => Ok ix
  | layer :: rest =>
      ix' <- call_layer layer ix ;;
      Interval_network_forward rest ix'
  end.

(* ================================================================== *)
(** ** Entry points *)

Definition qmin (x y : Q) : Q := if Qle_bool x y then x else y.
Definition qmax (x y : Q) : Q := if Qle_bool x y then y else x.

(** [X.min()] and [X.max()] over all entries; torch refuses an empty tensor. *)
Definition t_min (X : Tensor) : Result Q :=
  match data X with
  | [] => Raise RuntimeError
  | x :: rest => Ok (fold_left qmin rest x)
  end.

Definition t_max (X : Tensor) : Result Q :=
  match data X with
  | [] => Raise RuntimeError
  | x :: rest => Ok (fold_left qmax rest x)
  end.

(** [torch.clamp(t, lo, hi)] on one entry: [min(max(x, lo), hi)]. *)
Definition clamp1 (lo hi x : Q) : Q := qmin (qmax x lo) hi.

Definition clamp (t : Tensor) (lo hi : Q) : Tensor := mapT (clamp1 lo hi) t.

(** Index of the first maximal entry of a row. *)
Fixpoint argmax_from (best_i : nat) (best : Q) (i : nat) (xs : list Q) : nat :=
  match xs with
  | [] => best_i
  | x :: xs' =>
      if Qltb best x then argmax_from i x (S i) xs'
      else argmax_from best_i best (S i) xs'
  end.

Definition argmax (row : list Q) : nat :=
  match row with
  | [] => 0%nat
  | x :: xs => argmax_from 0 x 1 xs
  end.

(** [wc.max(1)[1]]: the predicted class of every sample. *)
Definition predictions (wc : Tensor) : Result (list nat) :=
  match tshape wc with
  | [B; K] => if (K =? 0)%nat then Raise IndexError
              else Ok (map argmax (to_rows B K (data wc)))
  | _ => Raise IndexError
  end.

(** [(pred != y).sum().item()]: the number of disagreeing samples. *)
Definition mismatches (pred y : list nat) : Result nat :=
  if (length pred =? length y)%nat
  then Ok (count_true (zip_with (fun p lbl => negb (p =? lbl)%nat) pred y))
  else Raise RuntimeError.

(** [count / X.shape[0]] as a Python number. *)
Definition rate (count B : nat) : Result Q :=
  if (B =? 0)%nat then Raise ZeroDivisionError
  else Ok (inject_Z (Z.of_nat count) / inject_Z (Z.of_nat B)).

(** [net[-1].out_features] *)
Definition last_out_features (model : list Layer) : Result nat :=
  match rev model with
  | [] => Raise IndexError
  | layer :: _ => if is_Linear layer then Ok (out_features layer)
                  else Raise AttributeError
  end.

(** Everything [print] has written so far: the values, oldest first. *)
Definition Stdout : Type := list Q.

Section EntryPoints.

(** [nn.CrossEntropyLoss()] is a torch primitive (log-softmax followed by
    the negative log-likelihood); its values are not rational, so the
    loss is kept abstract. *)
Variable Loss : Type.
Variable CrossEntropyLoss : Tensor -> list nat -> Result Loss.

(** The initial bounds shared by both entry points:
    [torch.clamp(X -/+ epsilon, X.min(), X.max())]. *)
Definition initial_bounds (epsilon : Q) (X : Tensor)
  : Result (Tensor * Tensor) :=
  minimum <- t_min X ;;
  maximum <- t_max X ;;
  Ok (clamp (t_addc X (- epsilon)) minimum maximum,
      clamp (t_addc X epsilon) minimum maximum).

(** The computation of [naive_interval_analyze] up to its [print]:
    the loss, the error rate and the printed average width. *)
Definition naive_interval_body (model : list Layer) (epsilon : Q)
  (X : Tensor) (y : list nat) (use_cuda : bool) : Result (Loss * Q * Q) :=
  let inet := Interval_network model in
  lu <- initial_bounds epsilon X ;;
  ix <- Interval.construct (fst lu) (snd lu) use_cuda ;;
  out <- Interval_network_forward inet (PyBox ix) ;;
  match out with
  | PyBox ix =>
      wc <- Interval.worst_case ix y ;;
      iloss <- CrossEntropyLoss wc y ;;
      pred <- predictions wc ;;
      wrong <- mismatches pred y ;;
      B <- size0 X ;;
      ierr <- rate wrong B ;;
      Ok (iloss, ierr, qsum (data wc) / inject_Z (Z.of_nat B) / 10)
  | _ => Raise AttributeError
  end.

(** [naive_interval_analyze(model, epsilon, X, y, use_cuda)], run on a
    given standard output. *)
Definition naive_interval_analyze (model : list Layer) (epsilon : Q)
  (X : Tensor) (y : list nat) (use_cuda : bool) (out : Stdout)
  : Result (Loss * Q) * Stdout :=
  match naive_interval_body model epsilon X y use_cuda with
  | Ok (iloss, ierr, width) => (Ok (iloss, ierr), out ++ [width])
  | Raise ex => (Raise ex, out)
  end.

(** [sym_interval_analyze(net, epsilon, X, y, use_cuda)], run on a given
    standard output (which it never writes). *)
Definition sym_interval_analyze (net : list Layer) (epsilon : Q)
  (X : Tensor) (y : list nat) (use_cuda : bool) (out : Stdout)
  : Result (Loss * Q) * Stdout :=
  (let inet := Interval_network net in
   lu <- initial_bounds epsilon X ;;
   ix <- Symbolic_interval.construct (fst lu) (snd lu) use_cuda ;;
   res <- Interval_network_forward inet (PySym ix) ;;
   match res with
   | PySym ix =>
       k <- last_out_features net ;;
       wc <- Symbolic_interval.worst_case ix y k ;;
       iloss <- CrossEntropyLoss wc y ;;
       pred <- predictions wc ;;
       wrong <- mismatches pred y ;;
       B <- size0 X ;;
       ierr <- rate wrong B ;;
       Ok (iloss, ierr)
   | _ => Raise AttributeError
   end,
   out).

(** The verification call of spec 6 with its flag selecting the domain. *)
Inductive Domain : Type := BoxDomain | SymbolicDomain.

Definition interval_analyze (d : Domain) (model : list Layer) (epsilon : Q)
  (X : Tensor) (y : list nat) (use_cuda : bool) (out : Stdout)
  : Result (Loss * Q) * Stdout :=
  match d with
  | BoxDomain => naive_interval_analyze model epsilon X y use_cuda out
  | SymbolicDomain => sym_interval_analyze model epsilon X y use_cuda out
  end.

End EntryPoints.

(* ================================================================== *)
(** ** Vocabulary of the statements *)

(** The two affine transfer functions share their statements. *)
Inductive AffineKind : Type := Dense | Conv.

(** The linear operator of the layer: [F.linear] or [F.conv2d]. *)
Definition affine (k : AffineKind) (layer : Layer) (x W : Tensor)
  (b : option Tensor) : Result Tensor :=
  match k with
  | Dense => F_linear x W b
  | Conv => F_conv2d x W (stride layer) (padding layer) b
  end.

Definition affine_forward (k : AffineKind) (layer : Layer) (ix : PyObj)
  : Result PyObj :=
  match k with
  | Dense => Interval_Dense_forward layer ix
  | Conv => Interval_Conv2d_forward layer ix
  end.

(** The layout in which the layer reads a symbolic interval: as it is for
    a dense layer, after [ix.shrink()] for a convolution. *)
Definition layout (k : AffineKind) (ix : Symbolic_interval.t)
  : Result Symbolic_interval.t :=
  match k with
  | Dense => Ok ix
  | Conv => Symbolic_interval.shrink ix
  end.

(** The transfer functions a layer contributes, by kind. *)
Definition transfer_of (layer : Layer) : list IntervalLayer :=
  match layer_class layer with
  | nn_Linear => [Interval_Dense layer]
  | nn_ReLU => [Interval_ReLU layer]
  | nn_Conv2d => [Interval_Conv2d layer]
  | OtherClass _ => if name_has_Flatten layer then [Interval_Flatten] else []
  end.

(** A unit is ambiguous when [lower < 0 < upper]. *)
Definition ambiguous (lo up : Q) : bool := Qltb lo 0 && Qltb 0 up.

Definition count_ambiguous (lower upper : Tensor) : nat :=
  count_true (zip_with ambiguous (data lower) (data upper)).

(** A row of an owner matrix is one-hot over a batch of [B] samples:
    a single entry is 1, every other entry is 0. *)
Definition one_hot (B : nat) (row : list Q) : Prop :=
  exists b, (b < B)%nat /\ row = upd b 1 (repeat 0 B).

(** An owner matrix has some number of rows over [B] samples, each one-hot. *)
Definition owner_ok (B : nat) (ind : Tensor) : Prop :=
  exists r, tshape ind = [r; B] /\ length (to_rows r B (data ind)) = r
            /\ Forall (one_hot B) (to_rows r B (data ind)).

(** The reading of spec 4.4 for the box domain, to compare with the
    source: bounds recomputed through [update_lu] from the center and the
    radius scaled by the slope mask. *)
Definition slope_scaled_box_relu (ix : Interval.t) : Result Interval.t :=
  mask <- box_relu_mask (Interval.l ix) (Interval.u ix) ;;
  c' <- t_mul (Interval.c ix) mask ;;
  e' <- t_mul (Interval.e ix) mask ;;
  lo <- t_sub c' e' ;;
  hi <- t_add c' e' ;;
  Interval.update_lu
    (Interval.mk (Interval.l ix) (Interval.u ix) (Interval.c ix) (Interval.e ix)
       (Interval.mask ix ++ [mask]) (Interval.use_cuda ix))
    lo hi.

(** Pointwise order and equality of storages. *)
Definition all_le (xs ys : list Q) : Prop := Forall2 Qle xs ys.
Definition all_eq (xs ys : list Q) : Prop := Forall2 Qeq xs ys.


(** The invariant of a box: bounds of one size, ordered entry by entry
    (what the constructor and [update_lu] check). *)
Definition box_ok (ix : Interval.t) : Prop :=
  tshape (Interval.l ix) = tshape (Interval.u ix)
  /\ all_le (data (Interval.l ix)) (data (Interval.u ix)).

Definition nonneg (xs : list Q) : Prop := Forall (Qle 0) xs.

(** An outcome other than a division by exactly zero. *)
Definition finite {A : Type} (r : Result A) : Prop := r <> Raise NonFinite.

(** The slope the symbolic branch gives a unit with bounds [lo], [up]. *)
Definition sym_slope (lo up : Q) : Q :=
  if ambiguous lo up then up / (up - lo) else b2q (Qltb 0 lo).

(** [p] indexes a maximal entry of [row]. *)
Definition is_argmax (row : list Q) (p : nat) : Prop :=
  Forall (fun v => v <= nth p row 0) row.

(** The worst-case logits of a verification call on given initial bounds:
    construct the domain, run the driver, pin the logits. *)
Definition worst_case_logits (d : Domain) (model : list Layer)
  (lower upper : Tensor) (use_cuda : bool) (y : list nat) : Result Tensor :=
  match d with
  | BoxDomain =>
      ix <- Interval.construct lower upper use_cuda ;;
      out <- Interval_network_forward (Interval_network model) (PyBox ix) ;;
      match out with
      | PyBox ix' => Interval.worst_case ix' y
      | _ => Raise AttributeError
      end
  | SymbolicDomain =>
      ix <- Symbolic_interval.construct lower upper use_cuda ;;
      out <- Interval_network_forward (Interval_network model) (PySym ix) ;;
      match out with
      | PySym ix' =>
          k <- last_out_features model ;;
          Symbolic_interval.worst_case ix' y k
      | _ => Raise AttributeError
      end
  end.

(** The effect of the box ReLU on [ix]: the mask is appended, the bounds
    become the elementwise relu of the old bounds. *)
Definition box_relu_effect (layer : Layer) (ix : Interval.t) : Prop :=
  exists mask ix',
    box_relu_mask (Interval.l ix) (Interval.u ix) = Ok mask
    /\ Interval_ReLU_forward layer (PyBox ix) = Ok (PyBox ix')
    /\ Interval.l ix' = t_relu (Interval.l ix)
    /\ Interval.u ix' = t_relu (Interval.u ix)
    /\ Interval.mask ix' = Interval.mask ix ++ [mask]
    /\ forall p,
         ambiguous (nth p (data (Interval.l ix)) 0)
                   (nth p (data (Interval.u ix)) 0) = true ->
         nth p (data (Interval.l ix')) 0 = 0
         /\ nth p (data (Interval.u ix')) 0 = nth p (data (Interval.u ix)) 0.

(** The accounting of the symbolic ReLU from [ix] to [ix']: one entry of
    [k] rows appended to [edep], one owner entry of [k] one-hot rows
    appended to [edep_ind], [k] the number of ambiguous units. *)
Definition error_row_accounting (ix ix' : Symbolic_interval.t) : Prop :=
  let k := count_ambiguous (Symbolic_interval.l ix) (Symbolic_interval.u ix) in
  let n := Symbolic_interval.n ix in
  exists B edep' row ind,
    size0 (Symbolic_interval.l ix) = Ok B
    /\ Symbolic_interval.edep ix' = edep' ++ [row]
    /\ length edep' = length (Symbolic_interval.edep ix)
    /\ tshape row = [k; n]
    /\ length (data row) = (k * n)%nat
    /\ Symbolic_interval.edep_ind ix' = Symbolic_interval.edep_ind ix ++ [ind]
    /\ tshape ind = [k; B]
    /\ length (to_rows k B (data ind)) = k
    /\ Forall (one_hot B) (to_rows k B (data ind))
    /\ (Forall (owner_ok B) (Symbolic_interval.edep_ind ix) ->
        Forall (owner_ok B) (Symbolic_interval.edep_ind ix')).

(** The effect of an affine layer on a symbolic interval [ix] with result
    [out]: center mapped with bias, dependencies mapped without, no error
    entry added, owners untouched. *)
Definition symbolic_affine_effect (k : AffineKind) (layer : Layer)
  (ix : Symbolic_interval.t) (out : PyObj) : Prop :=
  exists ixs ix',
    layout k ix = Ok ixs
    /\ out = PySym ix'
    /\ affine k layer (Symbolic_interval.c ixs) (weight layer) (bias layer)
       = Ok (Symbolic_interval.c ix')
    /\ affine k layer (Symbolic_interval.idep ixs) (weight layer) None
       = Ok (Symbolic_interval.idep ix')
    /\ Forall2 (fun ed ed' => affine k layer ed (weight layer) None = Ok ed')
         (Symbolic_interval.edep ixs) (Symbolic_interval.edep ix')
    /\ length (Symbolic_interval.edep ix') = length (Symbolic_interval.edep ix)
    /\ Symbolic_interval.edep_ind ix' = Symbolic_interval.edep_ind ix.

(** The effect of an affine layer on a box [ix] whose center maps to [c']:
    the radius maps through the absolute weights without bias, and the new
    bounds are [c' - e'] and [c' + e']. *)
Definition box_affine_effect (k : AffineKind) (layer : Layer)
  (ix : Interval.t) (c' : Tensor) : Prop :=
  exists e' ix',
    affine k layer (Interval.e ix) (t_abs (weight layer)) None = Ok e'
    /\ nonneg (data e')
    /\ affine_forward k layer (PyBox ix) = Ok (PyBox ix')
    /\ Interval.l ix' = mkT (tshape c') (zip_with Qminus (data c') (data e'))
    /\ Interval.u ix' = mkT (tshape c') (zip_with Qplus (data c') (data e'))
    /\ Interval.mask ix' = Interval.mask ix.

(** How a verification call arrived at the loss [iloss] and the error rate
    [ierr]: bounds clamped to the extremes of the batch, cross-entropy of
    the worst-case logits, fraction of samples whose arg-max is not the
    label. *)
Definition clamped_and_scored (Loss : Type)
  (CE : Tensor -> list nat -> Result Loss) (d : Domain) (model : list Layer)
  (epsilon : Q) (X : Tensor) (y : list nat) (use_cuda : bool)
  (iloss : Loss) (ierr : Q) : Prop :=
  exists minimum maximum wc pred wrong B,
    t_min X = Ok minimum /\ t_max X = Ok maximum
    /\ In minimum (data X) /\ In maximum (data X)
    /\ Forall (fun v => minimum <= v <= maximum) (data X)
    /\ worst_case_logits d model
         (clamp (t_addc X (- epsilon)) minimum maximum)
         (clamp (t_addc X epsilon) minimum maximum) use_cuda y = Ok wc
    /\ Forall (fun v => minimum <= v <= maximum)
         (data (clamp (t_addc X (- epsilon)) minimum maximum))
    /\ Forall (fun v => minimum <= v <= maximum)
         (data (clamp (t_addc X epsilon) minimum maximum))
    /\ CE wc y = Ok iloss
    /\ predictions wc = Ok pred
    /\ (exists Bw K, tshape wc = [Bw; K]
                     /\ Forall2 is_argmax (to_rows Bw K (data wc)) pred)
    /\ length pred = length y
    /\ wrong = count_true (zip_with (fun p lbl => negb (p =? lbl)%nat) pred y)
    /\ size0 X = Ok B /\ (0 < B)%nat
    /\ ierr = inject_Z (Z.of_nat wrong) / inject_Z (Z.of_nat B).

(** A flattened symbolic interval of [B] samples with [n] units each, as
    a dense layer, [extend] or the constructor leaves it. *)
Definition sym_flat (ix : Symbolic_interval.t) (B n : nat) : Prop :=
  (0 < n)%nat
  /\ Symbolic_interval.n ix = n
  /\ Symbolic_interval.batch_size ix = B
  /\ tshape (Symbolic_interval.l ix) = [B; n]
  /\ tshape (Symbolic_interval.u ix) = [B; n]
  /\ tshape (Symbolic_interval.c ix) = [B; n]
  /\ length (data (Symbolic_interval.l ix)) = (B * n)%nat
  /\ length (data (Symbolic_interval.u ix)) = (B * n)%nat
  /\ (exists n0, tshape (Symbolic_interval.idep ix) = [B; n0; n])
  /\ Forall2 (fun ed ind => exists r, tshape ed = [r; n] /\ tshape ind = [r; B])
       (Symbolic_interval.edep ix) (Symbolic_interval.edep_ind ix).

(** The half-width shift of a unit: [slope * (-lower) / 2]. *)
Definition appr_err_of (lo up : Q) : Q := sym_slope lo up * - lo / 2.

(** Row [b] of a [B x n] mask, read entry by entry. *)
Definition mask_row (mask : Tensor) (B n b : nat) : list Q :=
  map (fun j => nth j (nth b (to_rows B n (data mask)) []) 0) (seq 0 n).

(* ------------------------------------------------------------------ *)
(** *** Concrete layers and domains used as examples *)

Definition ex_relu_layer : Layer :=
  mkLayer nn_ReLU (mkT [] []) None (1, 1)%nat (0, 0)%nat 0.

(** Dense(weight = [[1]], bias = [0]). *)
Definition ex_identity_layer : Layer :=
  mkLayer nn_Linear (mkT [1; 1]%nat [1]) (Some (mkT [1%nat] [0]))
          (1, 1)%nat (0, 0)%nat 1.

(** Dense(weight = [[1, -1]], bias = [0]), the first layer of the concrete
    scenario of spec 8. *)
Definition ex_dense_layer : Layer :=
  mkLayer nn_Linear (mkT [1; 2]%nat [1; -1]) (Some (mkT [1%nat] [0]))
          (1, 1)%nat (0, 0)%nat 1.

(** Dense(weight = [[2], [3]], bias = [0, 0]), its last layer. *)
Definition ex_dense_layer2 : Layer :=
  mkLayer nn_Linear (mkT [2; 1]%nat [2; 3]) (Some (mkT [2%nat] [0; 0]))
          (1, 1)%nat (0, 0)%nat 2.

(** Conv2d(1, 1, kernel_size = 2) with weight [[1, -1], [2, 0]], bias 1/2. *)
Definition ex_conv_layer : Layer :=
  mkLayer nn_Conv2d (mkT [1; 1; 2; 2]%nat [1; -1; 2; 0])
          (Some (mkT [1%nat] [1 # 2])) (1, 1)%nat (0, 0)%nat 0.

(** One sample, one unit with bounds [-1, 1]. *)
Definition ex_box : Interval.t :=
  Interval.mk (mkT [1; 1]%nat [-1]) (mkT [1; 1]%nat [1])
              (mkT [1; 1]%nat [0]) (mkT [1; 1]%nat [1]) [] false.

(** One sample, two units with bounds [1/2, 3/2]: input [1, 1], radius 1/2. *)
Definition ex_box_in : Interval.t :=
  Interval.mk (mkT [1; 2]%nat [1 # 2; 1 # 2]) (mkT [1; 2]%nat [3 # 2; 3 # 2])
              (mkT [1; 2]%nat [1; 1]) (mkT [1; 2]%nat [1 # 2; 1 # 2]) [] false.

(** One sample, one 2x2 channel. *)
Definition ex_box_image : Interval.t :=
  Interval.mk (mkT [1; 1; 2; 2]%nat [0; 1; 2; 3])
              (mkT [1; 1; 2; 2]%nat [2; 3; 4; 5])
              (mkT [1; 1; 2; 2]%nat [1; 2; 3; 4])
              (mkT [1; 1; 2; 2]%nat [1; 1; 1; 1]) [] false.

(** The symbolic interval of the scenario before its ReLU: one unit with
    bounds [-1, 1], center 0, depending on two inputs. *)
Definition ex_sym : Symbolic_interval.t :=
  Symbolic_interval.mk (mkT [1; 1]%nat [-1]) (mkT [1; 1]%nat [1])
    (mkT [1; 1]%nat [0]) (mkT [1; 2; 1]%nat [1 # 2; - (1 # 2)])
    [] [] [1%nat] 1 1 false.

(** The symbolic interval of the scenario at the input. *)
Definition ex_sym_in : Symbolic_interval.t :=
  Symbolic_interval.mk (mkT [1; 2]%nat [1 # 2; 1 # 2])
    (mkT [1; 2]%nat [3 # 2; 3 # 2]) (mkT [1; 2]%nat [1; 1])
    (mkT [1; 2; 2]%nat [1 # 2; 0; 0; 1 # 2])
    [] [] [2%nat] 2 1 false.

(** A flattened 2x2 one-channel image with one earlier error row. *)
Definition ex_sym_image : Symbolic_interval.t :=
  Symbolic_interval.mk (mkT [1; 4]%nat [0; 1; 2; 3])
    (mkT [1; 4]%nat [2; 3; 4; 5]) (mkT [1; 4]%nat [1; 2; 3; 4])
    (mkT [1; 1; 4]%nat [1 # 2; 1 # 2; 1 # 2; 1 # 2])
    [mkT [1; 4]%nat [1 # 2; 1 # 2; 1 # 2; 1 # 2]]
    [mkT [1; 1]%nat [1]] [1; 2; 2]%nat 4 1 false.

(** The result of a transfer function on an example, [None] if it raises. *)
Definition result_of (r : Result PyObj) : PyObj :=
  match r with
  | Ok obj => obj
  | Raise _ => PyNone
  end.

Definition sym_of (obj : PyObj) : Symbolic_interval.t :=
  match obj with
  | PySym ix => ix
  | _ => ex_sym
  end.

Definition tensor_of (r : Result Tensor) : Tensor :=
  match r with
  | Ok t => t
  | Raise _ => mkT [] []
  end.

(** Two samples of two units; units (0,0) and (1,0) are ambiguous, one
    earlier error row is owned by sample 1. *)
Definition ex_sym_batch : Symbolic_interval.t :=
  Symbolic_interval.mk (mkT [2; 2]%nat [-1; 1; -2; -1])
    (mkT [2; 2]%nat [1; 2; 3; 0])
    (mkT [2; 2]%nat [0; 3 # 2; 1 # 2; - (1 # 2)])
    (mkT [2; 1; 2]%nat [1; 1 # 2; 2; 1 # 4])
    [mkT [1; 2]%nat [1 # 2; 1 # 4]]
    [mkT [1; 2]%nat [0; 1]] [2%nat] 2 2 false.

Definition ex_sym_batch_relu : Symbolic_interval.t :=
  sym_of (result_of (Interval_ReLU_forward ex_relu_layer (PySym ex_sym_batch))).

Definition ex_dense_out : PyObj :=
  result_of (affine_forward Dense ex_dense_layer (PySym ex_sym_in)).

Definition ex_conv_out : PyObj :=
  result_of (affine_forward Conv ex_conv_layer (PySym ex_sym_image)).

Definition ex_dense_center : Tensor :=
  tensor_of (affine Dense ex_dense_layer (Interval.c ex_box_in)
               (weight ex_dense_layer) (bias ex_dense_layer)).

Definition ex_conv_center : Tensor :=
  tensor_of (affine Conv ex_conv_layer (Interval.c ex_box_image)
               (weight ex_conv_layer) (bias ex_conv_layer)).

(** The network of the concrete scenario of spec 8. *)
Definition ex_model : list Layer :=
  [ex_dense_layer; ex_relu_layer; ex_dense_layer2].

(** A batch of one sample with the two inputs [1, 0]. *)
Definition ex_X : Tensor := mkT [1; 2]%nat [1; 0].

(** A stand-in for the cross-entropy in examples. *)
Definition ex_CE (wc : Tensor) (y : list nat) : Result unit := Ok tt.

(** The error rate of the example call, 0 if it raises. *)
Definition ex_rate (d : Domain) : Q :=
  match fst (interval_analyze unit ex_CE d ex_model (1 # 4) ex_X [0%nat] false [])
  with
  | Ok (_, r) => r
  | Raise _ => 0
  end.

(* ------------------------------------------------------------------ *)
(** *** Vocabulary of the properties of the whole propagation *)

(** The point [x] lies within the bounds: it has their size and
    [lower <= x <= upper] entry by entry. *)
Definition within (lower upper x : Tensor) : Prop :=
  tshape x = tshape lower
  /\ all_le (data lower) (data x)
  /\ all_le (data x) (data upper).

(** A box as the constructor and [update_lu] leave it: storing its own
    bounds again gives the box back (center and radius are the ones derived
    from the bounds, and the bounds passed the check). *)
Definition stored (ix : Interval.t) : Prop :=
  Interval.store (Interval.l ix) (Interval.u ix) (Interval.mask ix)
    (Interval.use_cuda ix) = Ok ix.

(** Three lists related entry by entry. *)
Inductive pointwise3 {A B C : Type} (R : A -> B -> C -> Prop)
  : list A -> list B -> list C -> Prop :=
| pointwise3_nil : pointwise3 R [] [] []
| pointwise3_cons (a : A) (b : B) (c : C) (xs : list A) (ys : list B)
    (zs : list C) :
    R a b c -> pointwise3 R xs ys zs ->
    pointwise3 R (a :: xs) (b :: ys) (c :: zs).


(** An object of one of the two domains. *)
Definition is_interval (ix : PyObj) : Prop :=
  match ix with
  | PySym _ | PyBox _ => True
  | _ => False
  end.

(** Two objects of the same domain. *)
Definition same_kind (a b : PyObj) : Prop :=
  match a, b with
  | PySym _, PySym _ => True
  | PyBox _, PyBox _ => True
  | _, _ => False
  end.

(** [lower] and [upper] enclose [x] and stay within [epsilon] of it. *)
Definition clamped_ball (epsilon lo x up : Q) : Prop :=
  x - epsilon <= lo /\ lo <= x /\ x <= up /\ up <= x + epsilon.

(** The shift the symbolic ReLU adds to the center of a unit: its
    [appr_err] where the unit is ambiguous, nothing elsewhere. *)
Definition relu_shift (lo up : Q) : Q :=
  appr_err_of lo up * b2q (ambiguous lo up).

(** The bounds of a box are batched: [B] samples of at least one further
    dimension. *)
Definition batched (ix : Interval.t) (B : nat) : Prop :=
  exists d rest, tshape (Interval.l ix) = B :: d :: rest.

(** *** Concrete inputs of the properties of the whole propagation *)

Definition box_of (r : Result Interval.t) : Interval.t :=
  match r with
  | Ok ix => ix
  | Raise _ => ex_box
  end.

Definition box_out (r : Result PyObj) : Interval.t :=
  match r with
  | Ok (PyBox ix) => ix
  | _ => ex_box
  end.

(** The transfer functions of the network of the scenario. *)
Definition ex_net : list IntervalLayer := Interval_network ex_model.

(** The box around the batch [1, 0] with radius 1/2, as constructed. *)
Definition ex_box_X : Interval.t :=
  box_of (Interval.construct (mkT [1; 2]%nat [1 # 2; - (1 # 2)])
            (mkT [1; 2]%nat [3 # 2; 1 # 2]) false).

Definition ex_box_X_out : Interval.t :=
  box_out (Interval_network_forward ex_net (PyBox ex_box_X)).

(** The initial bounds of the batch [1, 0] for epsilon 1/4. *)
Definition ex_bounds : Tensor * Tensor :=
  match initial_bounds (1 # 4) ex_X with
  | Ok lu => lu
  | Raise _ => (ex_X, ex_X)
  end.

(** A batch without samples. *)
Definition ex_empty_X : Tensor := mkT [0; 2]%nat [].

(* ================================================================== *)
(** ** The entry points on a store of tensor objects *)

Module Store.

(** The transfer functions update the domain they are handed and return
    it, and the symbolic ReLU writes into tensors in place.  To state what
    a run does to the objects it is given (the parameters of the model and
    the batch), tensors are kept here as Python keeps them: objects in a
    store, reached through references.

    A cell of the store is the storage of one tensor.  A tensor that is
    bound to an attribute, put in a list, handed to a method of
    [interval.py] or written in place is a reference; a tensor expression
    consumed on the spot is evaluated to its value with the operations
    above.  A view ([t.view(..)]) is a new reference to the same cell. *)

Definition Heap : Type := list (list Q).

Record tref : Type := mkRef { loc : nat; rshape : list nat }.

(** The tensor a reference denotes in a store. *)
Definition deref (h : Heap) (r : tref) : Tensor :=
  mkT (rshape r) (nth (loc r) h []).

(** A computation on the store: its outcome and the store it leaves (also
    when it raises). *)
Definition HM (A : Type) : Type := Heap -> Result A * Heap.

Definition ret {A : Type} (a : A) : HM A := fun h => (Ok a, h).

Definition bindH {A B : Type} (m : HM A) (k : A -> HM B) : HM B :=
  fun h =>
    match m h with
    | (Ok a, h') => k a h'
    | (Raise e, h') => (Raise e, h')
    end.

Notation "x <~ e ;; k" := (bindH e (fun x => k))
  (at level 61, e at next level, right associativity).

(** The outcome of an expression on values. *)
Definition calc {A : Type} (r : Result A) : HM A := fun h => (r, h).

(** Reading a tensor. *)
Definition get (r : tref) : HM Tensor := fun h => (Ok (deref h r), h).

(** A new tensor object: a fresh cell. *)
Definition new (t : Tensor) : HM tref :=
  fun h => (Ok (mkRef (length h) (tshape t)), h ++ [data t]).

(** An in-place write: the storage of an existing tensor is replaced. *)
Definition put (r : tref) (d : list Q) : HM unit :=
  fun h => (Ok tt, upd (loc r) d h).

Definition get_opt (r : option tref) : HM (option Tensor) :=
  match r with
  | Some b => t <~ get b ;; ret (Some t)
  | None => ret None
  end.

Fixpoint mapH {A B : Type} (f : A -> HM B) (xs : list A) : HM (list B) :=
  match xs with
  | [] => ret []
  | x :: xs' => y <~ f x ;; ys <~ mapH f xs' ;; ret (y :: ys)
  end.

(** [t.view(..)] with the size of [t']: the same cell under a new size. *)
Definition view_as (r : tref) (t' : Tensor) : tref := mkRef (loc r) (tshape t').

(** *** The objects in the store *)

(** A layer of the model: its parameters are tensors of the store. *)
Record HLayer : Type := mkHLayer {
  h_class : LayerClass;
  h_weight : tref;
  h_bias : option tref;
  h_stride : nat * nat;
  h_padding : nat * nat;
  h_out_features : nat
}.

Definition layer_at (h : Heap) (lh : HLayer) : Layer :=
  mkLayer (h_class lh) (deref h (h_weight lh)) (option_map (deref h) (h_bias lh))
          (h_stride lh) (h_padding lh) (h_out_features lh).

(** The attributes of a layer object that are no tensors. *)
Definition shell (lh : HLayer) : Layer :=
  mkLayer (h_class lh) (mkT [] []) None (h_stride lh) (h_padding lh)
          (h_out_features lh).

(** An [Interval] object. *)
Record HInterval : Type := mkHInterval {
  bl : tref;
  bu : tref;
  bc : tref;
  be : tref;
  bmask : list tref;
  bcuda : bool
}.

Definition box_at (h : Heap) (ix : HInterval) : Interval.t :=
  Interval.mk (deref h (bl ix)) (deref h (bu ix)) (deref h (bc ix))
              (deref h (be ix)) (map (deref h) (bmask ix)) (bcuda ix).

(** A [Symbolic_interval] object. *)
Record HSymbolic : Type := mkHSymbolic {
  sl : tref;
  su : tref;
  sc : tref;
  sidep : tref;
  sedep : list tref;
  sedep_ind : list tref;
  sshape : list nat;
  sn : nat;
  sbatch : nat;
  scuda : bool
}.

Definition sym_at (h : Heap) (ix : HSymbolic) : Symbolic_interval.t :=
  Symbolic_interval.mk (deref h (sl ix)) (deref h (su ix)) (deref h (sc ix))
    (deref h (sidep ix)) (map (deref h) (sedep ix))
    (map (deref h) (sedep_ind ix)) (sshape ix) (sn ix) (sbatch ix) (scuda ix).

Inductive HObj : Type :=
| HSym (ix : HSymbolic)
| HBox (ix : HInterval)
| HNone
| HOther (type_name : string).

Definition obj_at (h : Heap) (o : HObj) : PyObj :=
  match o with
  | HSym ix => PySym (sym_at h ix)
  | HBox ix => PyBox (box_at h ix)
  | HNone => PyNone
  | HOther s => PyOther s
  end.

(** The fields of an object as they are now. *)
Definition snap_box (ix : HInterval) : HM Interval.t :=
  fun h => (Ok (box_at h ix), h).

Definition snap_sym (ix : HSymbolic) : HM Symbolic_interval.t :=
  fun h => (Ok (sym_at h ix), h).

(** *** The methods of [interval.py] on the store *)

(** Modelled from the spec: the body shared by the constructor and
    [update_lu] of class [Interval] in [interval.py] (spec 4.1: the object
    keeps the bound tensors it is given, an in-place replace; center and
    radius are derived from them, new tensors). *)
Definition store_h (lower upper : tref) (masks : list tref) (cuda : bool)
  : HM HInterval :=
  vl <~ get lower ;;
  vu <~ get upper ;;
  v <~ calc (Interval.store vl vu [] cuda) ;;
  c <~ new (Interval.c v) ;;
  e <~ new (Interval.e v) ;;
  ret (mkHInterval lower upper c e masks cuda).

Definition update_lu_h (ix : HInterval) (lower upper : tref) : HM HInterval :=
  store_h lower upper (bmask ix) (bcuda ix).

(** Modelled from the spec: [Interval.worst_case] of [interval.py]; it
    reads the bounds and returns a new tensor. *)
Definition worst_case_box_h (ix : HInterval) (y : list nat) : HM Tensor :=
  v <~ snap_box ix ;;
  calc (Interval.worst_case v y).

(** Modelled from the spec: the constructor of [Symbolic_interval] in
    [interval.py] (spec 4.2): the object keeps the bound tensors it is
    given; center and exact dependency are new tensors, and there is no
    error term yet. *)
Definition construct_sym_h (lower upper : tref) (cuda : bool) : HM HSymbolic :=
  vl <~ get lower ;;
  vu <~ get upper ;;
  v <~ calc (Symbolic_interval.construct vl vu cuda) ;;
  c <~ new (Symbolic_interval.c v) ;;
  idep <~ new (Symbolic_interval.idep v) ;;
  ret (mkHSymbolic lower upper c idep [] []
         (Symbolic_interval.shape v) (Symbolic_interval.n v)
         (Symbolic_interval.batch_size v) cuda).

(** Modelled from the spec: [Symbolic_interval.concretize] of
    [interval.py] (spec 4.2): the bounds are computed from the center and
    the dependencies and replace the old ones, as new tensors. *)
Definition concretize_h (ix : HSymbolic) : HM HSymbolic :=
  v <~ snap_sym ix ;;
  let v' := Symbolic_interval.concretize v in
  l' <~ new (Symbolic_interval.l v') ;;
  u' <~ new (Symbolic_interval.u v') ;;
  ret (mkHSymbolic l' u' (sc ix) (sidep ix) (sedep ix) (sedep_ind ix)
         (sshape ix) (sn ix) (sbatch ix) (scuda ix)).

Definition views_as (rs : list tref) (ts : list Tensor) : list tref :=
  zip_with view_as rs ts.

(** Modelled from the spec: [Symbolic_interval.shrink] of [interval.py]
    (spec 4.2 [reshape_for_conv], a pure reshape): center, exact dependency
    and every error entry become views of themselves. *)
Definition shrink_h (ix : HSymbolic) : HM HSymbolic :=
  v <~ snap_sym ix ;;
  v' <~ calc (Symbolic_interval.shrink v) ;;
  ret (mkHSymbolic (sl ix) (su ix)
         (view_as (sc ix) (Symbolic_interval.c v'))
         (view_as (sidep ix) (Symbolic_interval.idep v'))
         (views_as (sedep ix) (Symbolic_interval.edep v'))
         (sedep_ind ix) (sshape ix) (sn ix) (sbatch ix) (scuda ix)).

(** Modelled from the spec: [Symbolic_interval.extend] of [interval.py]
    (spec 4.2 [reshape_from_conv], a pure reshape). *)
Definition extend_h (ix : HSymbolic) : HM HSymbolic :=
  v <~ snap_sym ix ;;
  v' <~ calc (Symbolic_interval.extend v) ;;
  ret (mkHSymbolic (sl ix) (su ix)
         (view_as (sc ix) (Symbolic_interval.c v'))
         (view_as (sidep ix) (Symbolic_interval.idep v'))
         (views_as (sedep ix) (Symbolic_interval.edep v'))
         (sedep_ind ix) (sshape ix) (sn ix) (sbatch ix) (scuda ix)).

(** Modelled from the spec: [Symbolic_interval.worst_case] of
    [interval.py] (spec 4.2): concretize, then pin; the result is a new
    tensor. *)
Definition worst_case_sym_h (ix : HSymbolic) (y : list nat) (k : nat)
  : HM Tensor :=
  ix' <~ concretize_h ix ;;
  v <~ snap_sym ix' ;;
  calc (Symbolic_interval.worst_case v y k).

(** *** The transfer functions on the store *)

(** The affine operator of a layer kind on values. *)
Definition affine_op (k : AffineKind) (lh : HLayer) (x W : Tensor)
  (b : option Tensor) : Result Tensor :=
  match k with
  | Dense => F_linear x W b
  | Conv => F_conv2d x W (h_stride lh) (h_padding lh) b
  end.

(** The body that [Interval_Dense.forward] and [Interval_Conv2d.forward]
    share: the two differ by the operator and by the [ix.shrink()] that
    opens the symbolic branch of the convolution.  The results of
    [F.linear] / [F.conv2d] are bound to [ix.c], [ix.idep] and the slots of
    [ix.edep] (new tensors), or handed to [update_lu] as [c-e] and [c+e]. *)
Definition affine_forward_h (k : AffineKind) (lh : HLayer) (o : HObj)
  : HM HObj :=
  match o with
  | HSym ix =>
      ix <~ match k with
            | Dense => ret ix
            | Conv => shrink_h ix
            end ;;
      W <~ get (h_weight lh) ;;
      b <~ get_opt (h_bias lh) ;;
      c <~ get (sc ix) ;;
      c' <~ calc (affine_op k lh c W b) ;;
      rc <~ new c' ;;
      idep <~ get (sidep ix) ;;
      idep' <~ calc (affine_op k lh idep W None) ;;
      ri <~ new idep' ;;
      edep' <~ mapH (fun r => ed <~ get r ;;
                              ed' <~ calc (affine_op k lh ed W None) ;;
                              new ed')
                 (sedep ix) ;;
      n' <~ calc (units_per_sample c') ;;
      ix' <~ concretize_h
               (mkHSymbolic (sl ix) (su ix) rc ri edep' (sedep_ind ix)
                  (tl (tshape c')) n' (sbatch ix) (scuda ix)) ;;
      ret (HSym ix')
  | HBox ix =>
      W <~ get (h_weight lh) ;;
      b <~ get_opt (h_bias lh) ;;
      c <~ get (bc ix) ;;
      e <~ get (be ix) ;;
      c' <~ calc (affine_op k lh c W b) ;;
      e' <~ calc (affine_op k lh e (t_abs W) None) ;;
      lo <~ calc (t_sub c' e') ;;
      hi <~ calc (t_add c' e') ;;
      rlo <~ new lo ;;
      rhi <~ new hi ;;
      ix' <~ update_lu_h ix rlo rhi ;;
      ret (HBox ix')
  | _ => ret HNone
  end.

(** The loop [for i in range(len(ix.edep)): ix.edep[i] *= ix.edep_ind[i].mm(mask)]:
    every error entry is multiplied in place. *)
Fixpoint scale_edep_h (edep edep_ind : list tref) (mask : tref) : HM unit :=
  match edep with
  | [] => ret tt
  | ed :: edep' =>
      match edep_ind with
      | [] => calc (Raise IndexError)
      | ind :: edep_ind' =>
          vind <~ get ind ;;
          vmask <~ get mask ;;
          owner_mask <~ calc (t_mm vind vmask) ;;
          ved <~ get ed ;;
          ed' <~ calc (t_mul ved owner_mask) ;;
          _ <~ put ed (data ed') ;;
          scale_edep_h edep' edep_ind' mask
      end
  end.

(** [Interval_ReLU.forward].  In the symbolic branch [mask] is created
    and then assigned at the selected units, [error_row] and [edep_ind] are
    created as zeros and filled by [scatter_], the error entries are
    multiplied in place; center and exact dependency are rebound to new
    tensors and the two new entries are appended to the lists of [ix].  In
    the box branch the mask is appended to [ix.mask] and the bounds are
    replaced through [update_lu]. *)
Definition Interval_ReLU_forward_h (lh : HLayer) (o : HObj) : HM HObj :=
  match o with
  | HSym ix =>
      lower <~ get (sl ix) ;;
      upper <~ get (su ix) ;;
      appr_condition <~ calc (appr_cond lower upper) ;;
      let cond := data appr_condition in
      mask <~ new (t_float (t_gt0 lower)) ;;
      let up := masked_select (data upper) cond in
      let lo := masked_select (data lower) cond in
      slopes <~ calc (v_div up (zip_with Qminus up lo)) ;;
      mask0 <~ get mask ;;
      _ <~ put mask (masked_assign (data mask0) cond slopes) ;;
      let m := count_true cond in
      cond2 <~ calc (view_neg appr_condition [] [sn ix]) ;;
      appr_ind <~ calc (nonzero cond2) ;;
      vmask <~ get mask ;;
      neg_lower <~ calc (t_mul vmask (t_neg lower)) ;;
      let appr_err := t_divc neg_lower 2 in
      error_row <~ new (zeros [m; sn ix]) ;;
      z <~ get error_row ;;
      row <~ calc (scatter_1 z (map snd appr_ind)
                     (masked_select (data appr_err) cond)) ;;
      _ <~ put error_row (data row) ;;
      B <~ calc (size0 lower) ;;
      edep_ind <~ new (zeros [length appr_ind; B]) ;;
      z <~ get edep_ind ;;
      ind <~ calc (scatter_1 z (map fst appr_ind) (repeat 1 (length appr_ind))) ;;
      _ <~ put edep_ind (data ind) ;;
      c <~ get (sc ix) ;;
      scaled <~ calc (t_mul c vmask) ;;
      shift <~ calc (t_mul appr_err (t_float appr_condition)) ;;
      c' <~ calc (t_add scaled shift) ;;
      rc <~ new c' ;;
      _ <~ scale_edep_h (sedep ix) (sedep_ind ix) mask ;;
      idep <~ get (sidep ix) ;;
      vmask <~ get mask ;;
      idep' <~ calc (mul_per_sample idep (sbatch ix) (sn ix) vmask) ;;
      ri <~ new idep' ;;
      ret (HSym (mkHSymbolic (sl ix) (su ix) rc ri
                   (sedep ix ++ [error_row]) (sedep_ind ix ++ [edep_ind])
                   (sshape ix) (sn ix) (sbatch ix) (scuda ix)))
  | HBox ix =>
      lower <~ get (bl ix) ;;
      upper <~ get (bu ix) ;;
      mask <~ calc (box_relu_mask lower upper) ;;
      rmask <~ new mask ;;
      rlo <~ new (t_relu lower) ;;
      rhi <~ new (t_relu upper) ;;
      ix' <~ update_lu_h (mkHInterval (bl ix) (bu ix) (bc ix) (be ix)
                            (bmask ix ++ [rmask]) (bcuda ix)) rlo rhi ;;
      ret (HBox ix')
  | _ => ret HNone
  end.

(** [Interval_Flatten.forward]: the new bounds of the box are views of
    the old ones. *)
Definition Interval_Flatten_forward_h (o : HObj) : HM HObj :=
  match o with
  | HSym ix =>
      ix' <~ extend_h ix ;;
      ret (HSym ix')
  | HBox ix =>
      lower <~ get (bl ix) ;;
      b1 <~ calc (size0 lower) ;;
      lo <~ calc (view_neg lower [b1] []) ;;
      upper <~ get (bu ix) ;;
      b2 <~ calc (size0 upper) ;;
      hi <~ calc (view_neg upper [b2] []) ;;
      ix' <~ update_lu_h ix (view_as (bl ix) lo) (view_as (bu ix) hi) ;;
      ret (HBox ix')
  | _ => ret HNone
  end.

(** [Interval_Dense.forward] *)
Definition Interval_Dense_forward_h (lh : HLayer) (o : HObj) : HM HObj :=
  affine_forward_h Dense lh o.

(** [Interval_Conv2d.forward] *)
Definition Interval_Conv2d_forward_h (lh : HLayer) (o : HObj) : HM HObj :=
  affine_forward_h Conv lh o.

(** *** The driver on the store *)

Inductive HIntervalLayer : Type :=
| HDense (lh : HLayer)
| HReLU (lh : HLayer)
| HConv2d (lh : HLayer)
| HFlatten.

(** The body of the loop of [Interval_network.__init__]. *)
Definition add_layer_h (net : list HIntervalLayer) (lh : HLayer)
  : list HIntervalLayer :=
  let layer := shell lh in
  let net := if is_Linear layer then net ++ [HDense lh] else net in
  let net := if is_ReLU layer then net ++ [HReLU lh] else net in
  let net := if is_Conv2d layer then net ++ [HConv2d lh] else net in
  let net := if name_has_Flatten layer then net ++ [HFlatten] else net in
  net.

Definition Interval_network_h (model : list HLayer) : list HIntervalLayer :=
  fold_left add_layer_h model [].

Definition call_layer_h (f : HIntervalLayer) (o : HObj) : HM HObj :=
  match f with
  | HDense lh => Interval_Dense_forward_h lh o
  | HReLU lh => Interval_ReLU_forward_h lh o
  | HConv2d lh => Interval_Conv2d_forward_h lh o
  | HFlatten => Interval_Flatten_forward_h o
  end.

Fixpoint Interval_network_forward_h (net : list HIntervalLayer) (o : HObj)
  : HM HObj :=
  match net with
  | [] => ret o
  | f :: rest => o' <~ call_layer_h f o ;; Interval_network_forward_h rest o'
  end.

Definition ilayer_at (h : Heap) (f : HIntervalLayer) : IntervalLayer :=
  match f with
  | HDense lh => Interval_Dense (layer_at h lh)
  | HReLU lh => Interval_ReLU (layer_at h lh)
  | HConv2d lh => Interval_Conv2d (layer_at h lh)
  | HFlatten => Interval_Flatten
  end.

(** *** Vocabulary of the statements about the store *)

(** The reference points into the store. *)
Definition valid (h : Heap) (r : tref) : Prop := (loc r < length h)%nat.

(** From [h] to [h'] no cell is lost and none of the first [n] cells,
    which [h] has, is changed. *)
Definition agree (n : nat) (h h' : Heap) : Prop :=
  (n <= length h)%nat /\ (length h <= length h')%nat
  /\ forall p, (p < n)%nat -> nth p h' [] = nth p h [].

(** The computation [m], started in [h], keeps the first [n] cells and
    ends as the outcome [p] on values does: with related results, or with
    the same exception. *)
Definition sim {A B : Type} (n : nat) (m : HM A) (h : Heap) (p : Result B)
  (R : Heap -> A -> B -> Prop) : Prop :=
  agree n h (snd (m h))
  /\ match fst (m h), p with
     | Ok a, Ok b => R (snd (m h)) a b
     | Raise e, Raise e' => e = e'
     | _, _ => False
     end.

Definition layer_valid (n : nat) (lh : HLayer) : Prop :=
  (loc (h_weight lh) < n)%nat
  /\ match h_bias lh with Some b => (loc b < n)%nat | None => True end.

Definition ilayer_valid (n : nat) (f : HIntervalLayer) : Prop :=
  match f with
  | HDense lh | HReLU lh | HConv2d lh => layer_valid n lh
  | HFlatten => True
  end.

Definition box_valid (h : Heap) (ix : HInterval) : Prop :=
  valid h (bl ix) /\ valid h (bu ix) /\ valid h (bc ix) /\ valid h (be ix)
  /\ Forall (valid h) (bmask ix).

(** The tensors of a symbolic interval other than its error entries. *)
Definition fixed_refs (ix : HSymbolic) : list tref :=
  [sl ix; su ix; sc ix; sidep ix] ++ sedep_ind ix.

(** The cells of the error entries of a symbolic interval were allocated
    after the first [n] cells, are pairwise distinct and are no cell of
    another tensor of the object. *)
Definition sym_ok (n : nat) (h : Heap) (ix : HSymbolic) : Prop :=
  Forall (valid h) (fixed_refs ix)
  /\ Forall (valid h) (sedep ix)
  /\ Forall (fun r => (n <= loc r)%nat) (sedep ix)
  /\ NoDup (map loc (sedep ix))
  /\ Forall (fun r => ~ In (loc r) (map loc (sedep ix))) (fixed_refs ix).

Definition obj_ok (n : nat) (h : Heap) (o : HObj) : Prop :=
  match o with
  | HSym ix => sym_ok n h ix
  | HBox ix => box_valid h ix
  | _ => True
  end.

(** The object [o] in the store [h] is the value [v]. *)
Definition denotes (n : nat) (h : Heap) (o : HObj) (v : PyObj) : Prop :=
  obj_ok n h o /\ obj_at h o = v.

(** *** The entry points on the store *)

(** What a run can reach and change: the tensors and the standard output. *)
Record World : Type := mkWorld { tensors : Heap; stdout : Stdout }.

Section EntryPointsOnStore.

Variable Loss : Type.
Variable CrossEntropyLoss : Tensor -> list nat -> Result Loss.

(** [torch.clamp(X -/+ epsilon, X.min(), X.max())]: two new tensors. *)
Definition initial_bounds_h (epsilon : Q) (X : tref) : HM (tref * tref) :=
  vX <~ get X ;;
  lu <~ calc (initial_bounds epsilon vX) ;;
  lo <~ new (fst lu) ;;
  hi <~ new (snd lu) ;;
  ret (lo, hi).

Definition naive_interval_body_h (model : list HLayer) (epsilon : Q)
  (X : tref) (y : list nat) (use_cuda : bool) : HM (Loss * Q * Q) :=
  let inet := Interval_network_h model in
  lu <~ initial_bounds_h epsilon X ;;
  ix <~ store_h (fst lu) (snd lu) [] use_cuda ;;
  out <~ Interval_network_forward_h inet (HBox ix) ;;
  match out with
  | HBox ix =>
      wc <~ worst_case_box_h ix y ;;
      iloss <~ calc (CrossEntropyLoss wc y) ;;
      pred <~ calc (predictions wc) ;;
      wrong <~ calc (mismatches pred y) ;;
      vX <~ get X ;;
      B <~ calc (size0 vX) ;;
      ierr <~ calc (rate wrong B) ;;
      ret (iloss, ierr, qsum (data wc) / inject_Z (Z.of_nat B) / 10)
  | _ => calc (Raise AttributeError)
  end.

(** [naive_interval_analyze(model, epsilon, X, y, use_cuda)] *)
Definition naive_interval_analyze_h (model : list HLayer) (epsilon : Q)
  (X : tref) (y : list nat) (use_cuda : bool) (w : World)
  : Result (Loss * Q) * World :=
  match naive_interval_body_h model epsilon X y use_cuda (tensors w) with
  | (Ok (iloss, ierr, width), h') =>
      (Ok (iloss, ierr), mkWorld h' (stdout w ++ [width]))
  | (Raise ex, h') => (Raise ex, mkWorld h' (stdout w))
  end.

Definition sym_interval_body_h (net : list HLayer) (epsilon : Q)
  (X : tref) (y : list nat) (use_cuda : bool) : HM (Loss * Q) :=
  let inet := Interval_network_h net in
  lu <~ initial_bounds_h epsilon X ;;
  ix <~ construct_sym_h (fst lu) (snd lu) use_cuda ;;
  res <~ Interval_network_forward_h inet (HSym ix) ;;
  match res with
  | HSym ix =>
      k <~ calc (last_out_features (map shell net)) ;;
      wc <~ worst_case_sym_h ix y k ;;
      iloss <~ calc (CrossEntropyLoss wc y) ;;
      pred <~ calc (predictions wc) ;;
      wrong <~ calc (mismatches pred y) ;;
      vX <~ get X ;;
      B <~ calc (size0 vX) ;;
      ierr <~ calc (rate wrong B) ;;
      ret (iloss, ierr)
  | _ => calc (Raise AttributeError)
  end.

(** [sym_interval_analyze(net, epsilon, X, y, use_cuda)] *)
Definition sym_interval_analyze_h (net : list HLayer) (epsilon : Q)
  (X : tref) (y : list nat) (use_cuda : bool) (w : World)
  : Result (Loss * Q) * World :=
  let '(r, h') := sym_interval_body_h net epsilon X y use_cuda (tensors w) in
  (r, mkWorld h' (stdout w)).

Definition interval_analyze_h (d : Domain) (model : list HLayer) (epsilon : Q)
  (X : tref) (y : list nat) (use_cuda : bool) (w : World)
  : Result (Loss * Q) * World :=
  match d with
  | BoxDomain => naive_interval_analyze_h model epsilon X y use_cuda w
  | SymbolicDomain => sym_interval_analyze_h model epsilon X y use_cuda w
  end.

End EntryPointsOnStore.

(** The batch and the parameters of the model are tensors of the store. *)
Definition world_ok (w : World) (model : list HLayer) (X : tref) : Prop :=
  valid (tensors w) X
  /\ Forall (layer_valid (length (tensors w))) model.

(** The model as values. *)
Definition model_at (h : Heap) (model : list HLayer) : list Layer :=
  map (layer_at h) model.

(** *** The scenario of spec 8 on the store *)

(** The store of the scenario: the batch [1, 0] and the parameters of the
    three layers of [ex_model]. *)
Definition ex_tensors : Heap :=
  [[1; 0]; [1; -1]; [0]; []; [2; 3]; [0; 0]].

Definition ex_world : World := mkWorld ex_tensors [].

Definition ex_X_ref : tref := mkRef 0 [1; 2]%nat.

Definition ex_hmodel : list HLayer :=
  [mkHLayer nn_Linear (mkRef 1 [1; 2]%nat) (Some (mkRef 2 [1%nat]))
            (1, 1)%nat (0, 0)%nat 1;
   mkHLayer nn_ReLU (mkRef 3 []) None (1, 1)%nat (0, 0)%nat 0;
   mkHLayer nn_Linear (mkRef 4 [2; 1]%nat) (Some (mkRef 5 [2%nat]))
            (1, 1)%nat (0, 0)%nat 2].

End Store.

(* ================================================================== *)
(** ** General lemmas *)

Lemma bind_Ok {A B : Type} (r : Result A) (k : A -> Result B) (b : B) :
  bind r k = Ok b -> exists a, r = Ok a /\ k a = Ok b.
Proof.
  destruct r as [a|ex]; simpl; intros H; [eauto | discriminate].
Qed.

Lemma shape_eqb_true (s1 s2 : list nat) : shape_eqb s1 s2 = true -> s1 = s2.
Proof.
  unfold shape_eqb. destruct (list_eq_dec Nat.eq_dec s1 s2); [auto | discriminate].
Qed.

Lemma shape_eqb_refl (s : list nat) : shape_eqb s s = true.
Proof.
  unfold shape_eqb. destruct (list_eq_dec Nat.eq_dec s s); [reflexivity | congruence].
Qed.

Lemma zipT_Ok {A B C : Type} (f : A -> B -> C) (a : tensor A) (b : tensor B)
  (r : tensor C) :
  zipT f a b = Ok r ->
  tshape a = tshape b /\ r = mkT (tshape a) (zip_with f (data a) (data b)).
Proof.
  unfold zipT. destruct (shape_eqb (tshape a) (tshape b)) eqn:E; [|discriminate].
  intros H; inversion H; subst. split; [now apply shape_eqb_true | reflexivity].
Qed.

Lemma zipT_same {A B C : Type} (f : A -> B -> C) (a : tensor A) (b : tensor B) :
  tshape a = tshape b ->
  zipT f a b = Ok (mkT (tshape a) (zip_with f (data a) (data b))).
Proof.
  intros H. unfold zipT. rewrite H, shape_eqb_refl. reflexivity.
Qed.

(** Unfold one successful [bind] in a hypothesis. *)
Ltac inv_bind_as H a Ha :=
  apply bind_Ok in H; destruct H as [a [Ha H]].

Ltac inv_bind H :=
  let a := fresh "a" in
  let Ha := fresh "Ha" in
  apply bind_Ok in H; destruct H as [a [Ha H]].

(* ================================================================== *)
(** ** Lists and storages *)

Lemma zip_with_length {A B C : Type} (f : A -> B -> C) (xs : list A) (ys : list B) :
  length (zip_with f xs ys) = Nat.min (length xs) (length ys).
Proof.
  revert ys. induction xs as [|x xs IH]; intros [|y ys]; simpl; auto.
Qed.

Lemma zip_with_map {A B A' B' C : Type} (f : A' -> B' -> C) (g : A -> A')
  (h : B -> B') (xs : list A) (ys : list B) :
  zip_with f (map g xs) (map h ys) = zip_with (fun a b => f (g a) (h b)) xs ys.
Proof.
  revert ys. induction xs as [|x xs IH]; intros [|y ys]; simpl; auto.
  now rewrite IH.
Qed.

Lemma nth_zip_with {A B C : Type} (f : A -> B -> C) (xs : list A) (ys : list B)
  (p : nat) (da : A) (db : B) (dc : C) :
  (p < length xs)%nat -> (p < length ys)%nat ->
  nth p (zip_with f xs ys) dc = f (nth p xs da) (nth p ys db).
Proof.
  revert ys p. induction xs as [|x xs IH]; intros [|y ys] [|p]; simpl; intros;
    try lia; auto.
  apply IH; lia.
Qed.

Lemma Forall2_length_eq {A B : Type} (R : A -> B -> Prop) (xs : list A) (ys : list B) :
  Forall2 R xs ys -> length xs = length ys.
Proof.
  induction 1; simpl; auto.
Qed.

Lemma Qltb_true (x y : Q) : Qltb x y = true <-> x < y.
Proof.
  unfold Qltb. rewrite negb_true_iff. split; intros H.
  - apply Qnot_le_lt. intros L. apply Qle_bool_iff in L. congruence.
  - destruct (Qle_bool y x) eqn:E; auto. apply Qle_bool_iff in E. lra.
Qed.

Lemma Qltb_false (x y : Q) : Qltb x y = false <-> y <= x.
Proof.
  unfold Qltb. rewrite negb_false_iff. apply Qle_bool_iff.
Qed.

Lemma relu1_mono (x y : Q) : x <= y -> relu1 x <= relu1 y.
Proof.
  intros H. unfold relu1.
  destruct (Qle_bool 0 x) eqn:Ex; destruct (Qle_bool 0 y) eqn:Ey;
    try apply Qle_bool_iff in Ex; try apply Qle_bool_iff in Ey; try lra.
  assert (~ 0 <= y) by (intros L; apply Qle_bool_iff in L; congruence). lra.
Qed.

Lemma forallb_le_zip (xs ys : list Q) :
  Forall2 Qle xs ys ->
  forallb (fun b : bool => b) (zip_with Qle_bool xs ys) = true.
Proof.
  induction 1 as [|x y xs ys Hxy _ IH]; simpl; auto.
  rewrite IH, andb_true_r. now apply Qle_bool_iff.
Qed.

(* ================================================================== *)
(** ** The box domain *)

Lemma store_Ok (lower upper : Tensor) (masks : list Tensor) (cuda : bool) :
  tshape lower = tshape upper ->
  all_le (data lower) (data upper) ->
  Interval.store lower upper masks cuda
  = Ok (Interval.mk lower upper
          (t_divc (mkT (tshape lower) (zip_with Qplus (data lower) (data upper))) 2)
          (t_divc (mkT (tshape upper) (zip_with Qminus (data upper) (data lower))) 2)
          masks cuda).
Proof.
  intros Hs Hle. unfold Interval.store, t_add, t_sub.
  rewrite (zipT_same Qle_bool _ _ Hs). simpl.
  rewrite (forallb_le_zip _ _ Hle).
  rewrite (zipT_same Qplus _ _ Hs). simpl.
  rewrite (zipT_same Qminus upper lower (eq_sym Hs)). reflexivity.
Qed.

Lemma no_zero_positive (xs : list Q) :
  Forall (fun x => 0 < x) xs -> existsb (Qeq_bool 0) xs = false.
Proof.
  induction 1 as [|x xs Hx _ IH]; simpl; auto.
  rewrite IH, orb_false_r.
  destruct (Qeq_bool 0 x) eqn:E; auto. apply Qeq_bool_eq in E. lra.
Qed.

Lemma box_denominators_positive (ls us : list Q) :
  Forall2 Qle ls us ->
  Forall (fun x => 0 < x)
    (map (fun x => x + slope_eps) (zip_with Qminus us ls)).
Proof.
  induction 1 as [|x y ls us Hxy _ IH]; simpl; constructor; auto.
  unfold slope_eps. lra.
Qed.

Lemma box_relu_mask_Ok (lower upper : Tensor) :
  tshape lower = tshape upper ->
  all_le (data lower) (data upper) ->
  exists mask, box_relu_mask lower upper = Ok mask.
Proof.
  intros Hs Hle. unfold box_relu_mask, appr_cond, t_band, t_sub, t_mul, t_div.
  rewrite zipT_same by (simpl; exact Hs). simpl.
  rewrite zipT_same by (symmetry; exact Hs). simpl.
  rewrite shape_eqb_refl.
  rewrite (no_zero_positive _ (box_denominators_positive _ _ Hle)). simpl.
  rewrite zipT_same by (simpl; congruence). simpl.
  rewrite zipT_same by (simpl; reflexivity). simpl.
  rewrite zipT_same by (simpl; congruence). eauto.
Qed.

Lemma relu_all_le (ls us : list Q) :
  all_le ls us -> all_le (map relu1 ls) (map relu1 us).
Proof.
  induction 1; simpl; constructor; auto using relu1_mono.
Qed.

Lemma box_relu_forward_Ok (layer : Layer) (ix : Interval.t) (mask : Tensor) :
  box_ok ix ->
  box_relu_mask (Interval.l ix) (Interval.u ix) = Ok mask ->
  exists ix',
    Interval_ReLU_forward layer (PyBox ix) = Ok (PyBox ix')
    /\ Interval.l ix' = t_relu (Interval.l ix)
    /\ Interval.u ix' = t_relu (Interval.u ix)
    /\ Interval.mask ix' = Interval.mask ix ++ [mask].
Proof.
  intros [Hs Hle] Hm. simpl. rewrite Hm. simpl.
  unfold Interval.update_lu. simpl.
  rewrite store_Ok; simpl; auto using relu_all_le.
  eexists; repeat split; reflexivity.
Qed.

Lemma relu1_ambiguous (lo up : Q) :
  ambiguous lo up = true -> relu1 lo = 0 /\ relu1 up = up.
Proof.
  unfold ambiguous. rewrite andb_true_iff, !Qltb_true. intros [Hl Hu].
  unfold relu1. split.
  - destruct (Qle_bool 0 lo) eqn:E; auto. apply Qle_bool_iff in E. lra.
  - destruct (Qle_bool 0 up) eqn:E; auto.
    assert (~ 0 <= up) by (intros L; apply Qle_bool_iff in L; congruence). lra.
Qed.

Lemma nth_relu (xs : list Q) (p : nat) :
  nth p (map relu1 xs) 0 = relu1 (nth p xs 0).
Proof.
  exact (map_nth relu1 xs 0 p).
Qed.

(** C1 (as amended). On a box whose bounds are ordered, the ReLU transfer
    function appends the slope mask to the diagnostic list and replaces the
    bounds, through [update_lu], by the elementwise relu of the old bounds:
    every ambiguous unit gets lower bound 0 = relu(old lower) and keeps its
    upper bound. *)
Theorem C1_box_relu_bounds_are_relu_of_old_bounds :
  forall (layer : Layer) (ix : Interval.t),
    box_ok ix -> box_relu_effect layer ix.
Proof.
  intros layer ix Hok. unfold box_relu_effect.
  destruct (box_relu_mask_Ok _ _ (proj1 Hok) (proj2 Hok)) as [mask Hm].
  destruct (box_relu_forward_Ok layer ix mask Hok Hm) as [ix' [Hf [Hl [Hu Hk]]]].
  exists mask, ix'. repeat split; auto.
  - rewrite Hl. simpl. rewrite nth_relu. now apply (relu1_ambiguous _ _ H).
  - rewrite Hu. simpl. rewrite nth_relu. now apply (relu1_ambiguous _ _ H).
Qed.

Lemma ex_box_ok : box_ok ex_box.
Proof.
  split; [reflexivity|]. repeat constructor. simpl. lra.
Qed.

(** The ReLU of the box [-1, 1]: bounds [0, 1]. *)
Lemma C1_witness :
  box_ok ex_box /\ box_relu_effect ex_relu_layer ex_box.
Proof.
  split; [exact ex_box_ok|].
  apply (C1_box_relu_bounds_are_relu_of_old_bounds ex_relu_layer ex_box).
  exact ex_box_ok.
Defined.

(** C1 as stated fails on the box [-1, 1]: the transfer function returns
    the elementwise relu of the old bounds, [0, 1], and not the bounds
    recomputed from the slope-scaled center and radius, which are strictly
    below them on both sides. *)
Lemma C1_counterexample :
  exists ix' ixs,
    Interval_ReLU_forward ex_relu_layer (PyBox ex_box) = Ok (PyBox ix')
    /\ slope_scaled_box_relu ex_box = Ok ixs
    /\ data (Interval.l ix') = map relu1 (data (Interval.l ex_box))
    /\ data (Interval.u ix') = map relu1 (data (Interval.u ex_box))
    /\ nth 0 (data (Interval.l ixs)) 0 < nth 0 (data (Interval.l ix')) 0
    /\ nth 0 (data (Interval.u ixs)) 0 < nth 0 (data (Interval.u ix')) 0.
Proof.
  eexists. eexists.
  split; [vm_compute; reflexivity|].
  split; [vm_compute; reflexivity|].
  split; [reflexivity|]. split; [reflexivity|].
  split; vm_compute; reflexivity.
Qed.

(* ================================================================== *)
(** ** Divisions of the ReLU relaxation *)

Lemma finite_Ok {A : Type} (a : A) : finite (Ok a).
Proof. discriminate. Qed.

Lemma finite_bind {A B : Type} (r : Result A) (k : A -> Result B) :
  finite r -> (forall a, r = Ok a -> finite (k a)) -> finite (bind r k).
Proof.
  unfold finite. destruct r as [a|ex]; simpl; intros Hr Hk.
  - now apply Hk.
  - congruence.
Qed.

Lemma finite_zipT {A B C : Type} (f : A -> B -> C) (a : tensor A) (b : tensor B) :
  finite (zipT f a b).
Proof.
  unfold finite, zipT. destruct (shape_eqb (tshape a) (tshape b)); discriminate.
Qed.

Lemma finite_view {A : Type} (t : tensor A) (s : list nat) : finite (view t s).
Proof.
  unfold finite, view. destruct (numel s =? numel (tshape t))%nat; discriminate.
Qed.

Lemma finite_view_neg {A : Type} (t : tensor A) (pre post : list nat) :
  finite (view_neg t pre post).
Proof.
  unfold finite, view_neg.
  destruct (numel pre * numel post =? 0)%nat; [discriminate|].
  destruct (numel (tshape t) mod (numel pre * numel post) =? 0)%nat; discriminate.
Qed.

Lemma finite_nonzero (t : BoolTensor) : finite (nonzero t).
Proof.
  unfold finite, nonzero.
  destruct (tshape t) as [|? [|? [|? ?]]]; discriminate.
Qed.

Lemma finite_scatter_1 (t : Tensor) (idx : list nat) (src : list Q) :
  finite (scatter_1 t idx src).
Proof.
  unfold finite, scatter_1.
  destruct (tshape t) as [|m [|n [|? ?]]]; try discriminate.
  destruct (_ && _); discriminate.
Qed.

Lemma finite_size0 {A : Type} (t : tensor A) : finite (size0 t).
Proof.
  unfold finite, size0. destruct (tshape t); discriminate.
Qed.

Lemma finite_t_mm (a b : Tensor) : finite (t_mm a b).
Proof.
  unfold finite, t_mm.
  destruct (tshape a) as [|r [|k [|? ?]]]; try discriminate.
  destruct (tshape b) as [|k' [|n [|? ?]]]; try discriminate.
  destruct (k =? k')%nat; discriminate.
Qed.




(** Splits a [bind] whose first step is known not to divide. *)
Ltac finite_step :=
  apply finite_bind;
  [ first [ apply finite_zipT | apply finite_view | apply finite_view_neg
          | apply finite_nonzero | apply finite_scatter_1 | apply finite_size0
          | apply finite_t_mm ]
  | intros ? ? ].

Lemma finite_scale_edep (edep edep_ind : list Tensor) (mask : Tensor) :
  finite (scale_edep edep edep_ind mask).
Proof.
  revert edep_ind. induction edep as [|ed edep IH]; intros edep_ind; simpl.
  - apply finite_Ok.
  - destruct edep_ind as [|ind edep_ind]; [discriminate|].
    finite_step. unfold t_mul. finite_step.
    apply finite_bind; [apply IH | intros; apply finite_Ok].
Qed.

Lemma finite_mul_per_sample (idep : Tensor) (B nn : nat) (mask : Tensor) :
  finite (mul_per_sample idep B nn mask).
Proof.
  unfold mul_per_sample. finite_step.
  destruct (tshape idep) as [|B' [|n0 [|n' [|? ?]]]]; try discriminate.
  destruct (_ && _); discriminate.
Qed.

(** The denominators formed by the symbolic branch: only the selected
    (ambiguous) units, where [upper - lower] is positive. *)
Lemma selected_denominators_positive (ls us : list Q) :
  Forall (fun x => 0 < x)
    (zip_with Qminus
       (masked_select us (zip_with andb (map (fun x => Qltb x 0) ls)
                                        (map (fun x => Qltb 0 x) us)))
       (masked_select ls (zip_with andb (map (fun x => Qltb x 0) ls)
                                        (map (fun x => Qltb 0 x) us)))).
Proof.
  revert us. induction ls as [|x ls IH]; intros [|y us]; simpl; try constructor.
  destruct (Qltb x 0) eqn:Ex; destruct (Qltb 0 y) eqn:Ey; simpl; auto.
  constructor; auto.
  apply Qltb_true in Ex. apply Qltb_true in Ey. lra.
Qed.

Lemma appr_cond_data (lower upper : Tensor) (cond : BoolTensor) :
  appr_cond lower upper = Ok cond ->
  tshape lower = tshape upper
  /\ tshape cond = tshape lower
  /\ data cond = zip_with ambiguous (data lower) (data upper).
Proof.
  unfold appr_cond, t_band. intros H. apply zipT_Ok in H. destruct H as [Hs Hc].
  simpl in Hs. subst cond. simpl. repeat split; auto.
  unfold ambiguous. now rewrite zip_with_map.
Qed.

Lemma sym_relu_mask_Ok (lower upper : Tensor) (cond : BoolTensor) :
  appr_cond lower upper = Ok cond ->
  exists mask, sym_relu_mask lower upper cond = Ok mask.
Proof.
  intros H. apply zipT_Ok in H. destruct H as [_ Hc]. subst cond.
  unfold sym_relu_mask, v_div. simpl.
  rewrite (no_zero_positive _ (selected_denominators_positive _ _)).
  simpl. eauto.
Qed.

Lemma finite_sym_relu (layer : Layer) (ix : Symbolic_interval.t) :
  finite (Interval_ReLU_forward layer (PySym ix)).
Proof.
  simpl. apply finite_bind; [apply finite_zipT|]. intros cond Hc.
  destruct (sym_relu_mask_Ok _ _ _ Hc) as [mask Hm]. rewrite Hm. simpl.
  finite_step. finite_step. unfold t_mul at 1. finite_step.
  finite_step. finite_step. finite_step.
  unfold t_mul at 1. finite_step. unfold t_mul at 1. finite_step.
  unfold t_add. finite_step.
  apply finite_bind; [apply finite_scale_edep|]. intros edep' He.
  apply finite_bind; [apply finite_mul_per_sample|]. intros idep' Hi.
  apply finite_Ok.
Qed.

Lemma ambiguous_degenerate (lo up : Q) : lo == up -> ambiguous lo up = false.
Proof.
  intros H. unfold ambiguous.
  destruct (Qltb lo 0) eqn:El; simpl; auto.
  apply Qltb_true in El. apply Qltb_false. lra.
Qed.

Lemma nth_zip_with_ambiguous (ls us : list Q) (p : nat) :
  nth p (zip_with ambiguous ls us) false = true ->
  ambiguous (nth p ls 0) (nth p us 0) = true.
Proof.
  revert us p. induction ls as [|x ls IH]; intros [|y us] [|p]; simpl;
    try discriminate; auto.
Qed.

(* ================================================================== *)
(** ** Affine layers on the box domain *)

Lemma Forall_firstn {A : Type} (P : A -> Prop) (n : nat) (xs : list A) :
  Forall P xs -> Forall P (firstn n xs).
Proof.
  revert n. induction xs as [|x xs IH]; intros [|n] H; simpl; auto.
  inversion H; subst. constructor; auto.
Qed.

Lemma Forall_skipn {A : Type} (P : A -> Prop) (n : nat) (xs : list A) :
  Forall P xs -> Forall P (skipn n xs).
Proof.
  revert n. induction xs as [|x xs IH]; intros [|n] H; simpl; auto.
  inversion H; subst. auto.
Qed.

Lemma Forall_to_rows {A : Type} (P : A -> Prop) (k n : nat) (d : list A) :
  Forall P d -> Forall (Forall P) (to_rows k n d).
Proof.
  revert d. induction k as [|k IH]; intros d H; simpl; constructor.
  - now apply Forall_firstn.
  - apply IH. now apply Forall_skipn.
Qed.

Lemma qsum_nonneg (xs : list Q) : nonneg xs -> 0 <= qsum xs.
Proof.
  induction 1 as [|x xs Hx _ IH]; simpl; lra.
Qed.

Lemma dot_nonneg (xs ys : list Q) : nonneg xs -> nonneg ys -> 0 <= dot xs ys.
Proof.
  intros Hx Hy. apply qsum_nonneg. revert ys Hy.
  induction Hx as [|x xs Hx0 _ IH]; intros ys Hy; simpl; [constructor|].
  destruct Hy as [|y ys Hy0 Hy]; constructor.
  - now apply Qmult_le_0_compat.
  - now apply IH.
Qed.

Lemma abs_nonneg (xs : list Q) : nonneg (map Qabs xs).
Proof.
  induction xs; simpl; constructor; auto using Qabs_nonneg.
Qed.

Lemma nth_nonneg (xs : list Q) (p : nat) : nonneg xs -> 0 <= nth p xs 0.
Proof.
  intros H. revert p. induction H as [|x xs Hx _ IH]; intros [|p]; simpl;
    auto; lra.
Qed.

Lemma F_linear_nonneg (x W r : Tensor) :
  nonneg (data x) ->
  F_linear x (t_abs W) None = Ok r -> nonneg (data r).
Proof.
  intros Hx. unfold F_linear. simpl.
  destruct (tshape W) as [|m [|n [|? ?]]]; try discriminate.
  destruct (split_last (tshape x)) as [[lead n']|]; try discriminate.
  destruct (_ && _); try discriminate.
  intros H; inversion H; subst; clear H. simpl.
  apply Forall_flat_map.
  pose proof (Forall_to_rows (Qle 0) (numel lead) n (data x) Hx) as Hr.
  revert Hr. apply Forall_impl. intros row Hrow. simpl.
  apply Forall_map.
  pose proof (Forall_to_rows (Qle 0) m n _ (abs_nonneg (data W))) as Hw.
  revert Hw. apply Forall_impl. intros wrow Hw. now apply dot_nonneg.
Qed.

Lemma padded_at_nonneg (x : Tensor) (Cin H Wd pH pW b ci r c : nat) :
  nonneg (data x) -> 0 <= padded_at x Cin H Wd pH pW b ci r c.
Proof.
  intros Hx. unfold padded_at. destruct (_ && _); [|lra].
  now apply nth_nonneg.
Qed.

Lemma conv_terms_nonneg (x W : Tensor)
  (Cin H Wd kH kW sH sW pH pW b co i j : nat) :
  nonneg (data x) ->
  nonneg (conv_terms x (t_abs W) Cin H Wd kH kW sH sW pH pW b co i j).
Proof.
  intros Hx. unfold conv_terms.
  apply Forall_flat_map, Forall_forall. intros ci _.
  apply Forall_flat_map, Forall_forall. intros ki _.
  apply Forall_map, Forall_forall. intros kj _.
  apply Qmult_le_0_compat.
  - apply nth_nonneg. simpl. apply abs_nonneg.
  - now apply padded_at_nonneg.
Qed.

Lemma F_conv2d_nonneg (x W r : Tensor) (s p : nat * nat) :
  nonneg (data x) ->
  F_conv2d x (t_abs W) s p None = Ok r -> nonneg (data r).
Proof.
  intros Hx. unfold F_conv2d. simpl.
  destruct (tshape x) as [|B [|Cin [|H [|Wd [|? ?]]]]]; try discriminate.
  destruct (tshape W) as [|Cout [|Cin' [|kH [|kW [|? ?]]]]]; try discriminate.
  destruct s as [sH sW], p as [pH pW].
  destruct (_ && _); try discriminate.
  intros E; inversion E; subst; clear E. simpl.
  apply Forall_flat_map, Forall_forall. intros b _.
  apply Forall_flat_map, Forall_forall. intros co _.
  apply Forall_flat_map, Forall_forall. intros i _.
  apply Forall_map, Forall_forall. intros j _.
  unfold conv_at. apply qsum_nonneg. now apply conv_terms_nonneg.
Qed.

Lemma affine_nonneg (k : AffineKind) (layer : Layer) (x W r : Tensor) :
  nonneg (data x) ->
  affine k layer x (t_abs W) None = Ok r -> nonneg (data r).
Proof.
  destruct k; simpl; [apply F_linear_nonneg | apply F_conv2d_nonneg].
Qed.

(** The size of the result of an affine operator is decided by the sizes
    of its arguments. *)
Lemma affine_shape (k : AffineKind) (layer : Layer) (x x' W W' r r' : Tensor)
  (b b' : option Tensor) :
  tshape x = tshape x' -> tshape W = tshape W' ->
  affine k layer x W b = Ok r -> affine k layer x' W' b' = Ok r' ->
  tshape r = tshape r'.
Proof.
  intros Hx HW. destruct k; simpl.
  - unfold F_linear. rewrite <- Hx, <- HW.
    destruct (tshape W) as [|m [|n [|? ?]]]; try discriminate.
    destruct (split_last (tshape x)) as [[lead n']|]; try discriminate.
    destruct (_ && _); try discriminate. destruct (_ && _); try discriminate.
    intros E E'; inversion E; inversion E'; reflexivity.
  - unfold F_conv2d. rewrite <- Hx, <- HW.
    destruct (tshape x) as [|B [|Cin [|H [|Wd [|? ?]]]]]; try discriminate.
    destruct (tshape W) as [|Cout [|Cin' [|kH [|kW [|? ?]]]]]; try discriminate.
    destruct (stride layer) as [sH sW], (padding layer) as [pH pW].
    destruct (_ && _); try discriminate. destruct (_ && _); try discriminate.
    intros E E'; inversion E; inversion E'; reflexivity.
Qed.

Lemma radius_orders_bounds (cs es : list Q) :
  nonneg es -> all_le (zip_with Qminus cs es) (zip_with Qplus cs es).
Proof.
  intros He. revert cs. induction He as [|x es Hx _ IH]; intros [|y cs]; simpl;
    try constructor.
  - lra.
  - apply IH.
Qed.

(** Whether an affine operator accepts its arguments is decided by their
    sizes (and the size of the bias, when one is given). *)
Lemma affine_accepts (k : AffineKind) (layer : Layer) (x x' W W' r : Tensor)
  (b : option Tensor) :
  tshape x = tshape x' -> tshape W = tshape W' ->
  affine k layer x W b = Ok r ->
  exists r', affine k layer x' W' None = Ok r'.
Proof.
  intros Hx HW. destruct k; simpl.
  - unfold F_linear. rewrite <- Hx, <- HW.
    destruct (tshape W) as [|m [|n [|? ?]]]; try discriminate.
    destruct (split_last (tshape x)) as [[lead n']|]; try discriminate.
    destruct (n =? n')%nat; simpl; [|discriminate].
    destruct (bias_ok m b); [|discriminate]. eauto.
  - unfold F_conv2d. rewrite <- Hx, <- HW.
    destruct (tshape x) as [|B [|Cin [|H [|Wd [|? ?]]]]]; try discriminate.
    destruct (tshape W) as [|Cout [|Cin' [|kH [|kW [|? ?]]]]]; try discriminate.
    destruct (stride layer) as [sH sW], (padding layer) as [pH pW].
    destruct (bias_ok Cout b); [|rewrite andb_false_r; discriminate].
    simpl. rewrite !andb_true_r.
    destruct (_ && _); [eauto | discriminate].
Qed.

(** C5. On a box whose stored radius is nonnegative, a Dense or Conv2d
    layer that accepts the center computes the new center [W.c + b] (bias
    applied) and the new radius [|W|.e] (absolute weights, no bias); the
    radius stays nonnegative, so the bounds check of [update_lu] passes, and
    the new bounds are [center - radius] and [center + radius]. *)
Theorem C5_box_affine_center_radius :
  forall (k : AffineKind) (layer : Layer) (ix : Interval.t) (c' : Tensor),
    tshape (Interval.c ix) = tshape (Interval.e ix) ->
    nonneg (data (Interval.e ix)) ->
    affine k layer (Interval.c ix) (weight layer) (bias layer) = Ok c' ->
    box_affine_effect k layer ix c'.
Proof.
  intros k layer ix c' Hs He Hc. unfold box_affine_effect.
  destruct (affine_accepts k layer (Interval.c ix) (Interval.e ix)
              (weight layer) (t_abs (weight layer)) c' (bias layer)
              Hs (eq_refl _) Hc) as [e' Hr].
  pose proof (affine_nonneg k layer _ _ _ He Hr) as Hn.
  assert (Hsh : tshape c' = tshape e')
    by (apply (affine_shape k layer _ _ (weight layer) (t_abs (weight layer))
                 _ _ _ _ Hs (eq_refl _) Hc Hr)).
  exists e'.
  assert (G : forall (fwd : Result PyObj),
             fwd = (lo <- t_sub c' e' ;; hi <- t_add c' e' ;;
                    ix' <- Interval.update_lu ix lo hi ;; Ok (PyBox ix')) ->
             exists ix', fwd = Ok (PyBox ix')
               /\ Interval.l ix' = mkT (tshape c') (zip_with Qminus (data c') (data e'))
               /\ Interval.u ix' = mkT (tshape c') (zip_with Qplus (data c') (data e'))
               /\ Interval.mask ix' = Interval.mask ix).
  { intros fwd ->. unfold t_sub, t_add.
    rewrite !zipT_same by exact Hsh. simpl.
    unfold Interval.update_lu.
    rewrite store_Ok; simpl; auto using radius_orders_bounds.
    eexists; repeat split; reflexivity. }
  destruct (G (affine_forward k layer (PyBox ix))) as [ix' [Hf [Hl [Hu Hm]]]].
  { destruct k; simpl in Hc, Hr |- *; rewrite Hc; simpl; rewrite Hr;
      reflexivity. }
  exists ix'. repeat split; assumption.
Qed.

Lemma ex_radii_nonneg :
  nonneg (data (Interval.e ex_box_in)) /\ nonneg (data (Interval.e ex_box_image)).
Proof.
  split; repeat constructor; simpl; lra.
Qed.

(** The first dense layer of the scenario on the box [1/2, 3/2]^2, and a
    2x2 convolution on a one-channel image. *)
Lemma C5_witness :
  (tshape (Interval.c ex_box_in) = tshape (Interval.e ex_box_in)
   /\ nonneg (data (Interval.e ex_box_in))
   /\ affine Dense ex_dense_layer (Interval.c ex_box_in)
        (weight ex_dense_layer) (bias ex_dense_layer) = Ok ex_dense_center
   /\ box_affine_effect Dense ex_dense_layer ex_box_in ex_dense_center)
  /\ (tshape (Interval.c ex_box_image) = tshape (Interval.e ex_box_image)
      /\ nonneg (data (Interval.e ex_box_image))
      /\ affine Conv ex_conv_layer (Interval.c ex_box_image)
           (weight ex_conv_layer) (bias ex_conv_layer) = Ok ex_conv_center
      /\ box_affine_effect Conv ex_conv_layer ex_box_image ex_conv_center).
Proof.
  split.
  - split; [reflexivity|]. split; [exact (proj1 ex_radii_nonneg)|].
    split; [vm_compute; reflexivity|].
    apply (C5_box_affine_center_radius Dense ex_dense_layer ex_box_in
             ex_dense_center);
      [reflexivity | exact (proj1 ex_radii_nonneg) | vm_compute; reflexivity].
  - split; [reflexivity|]. split; [exact (proj2 ex_radii_nonneg)|].
    split; [vm_compute; reflexivity|].
    apply (C5_box_affine_center_radius Conv ex_conv_layer ex_box_image
             ex_conv_center);
      [reflexivity | exact (proj2 ex_radii_nonneg) | vm_compute; reflexivity].
Defined.

Lemma store_invariant (lower upper : Tensor) (masks : list Tensor) (cuda : bool)
  (ix : Interval.t) :
  Interval.store lower upper masks cuda = Ok ix ->
  tshape (Interval.c ix) = tshape (Interval.e ix)
  /\ nonneg (data (Interval.e ix)).
Proof.
  unfold Interval.store. intros H. inv_bind H.
  apply zipT_Ok in Ha. destruct Ha as [Hs ->]. simpl in H.
  destruct (forallb _ _) eqn:Hall; [|discriminate].
  unfold t_add, t_sub in H. rewrite !zipT_same in H by congruence.
  simpl in H. inversion H; subst; clear H. simpl. split; [congruence|].
  clear Hs. revert Hall. generalize (data lower) (data upper).
  intros ls. induction ls as [|x ls IH]; intros [|y us]; simpl; intros Hall;
    try constructor.
  - apply andb_true_iff in Hall. destruct Hall as [Hxy _].
    apply Qle_bool_iff in Hxy. apply Qle_shift_div_l; lra.
  - apply andb_true_iff in Hall. destruct Hall as [_ Hall]. now apply IH.
Qed.

(* ================================================================== *)
(** ** Affine layers on the symbolic domain *)

Lemma mapM_Forall2 {A B : Type} (f : A -> Result B) (xs : list A) (ys : list B) :
  mapM f xs = Ok ys -> Forall2 (fun x y => f x = Ok y) xs ys.
Proof.
  revert ys. induction xs as [|x xs IH]; simpl; intros ys H.
  - inversion H. constructor.
  - inv_bind H. inv_bind H. inversion H; subst. constructor; auto.
Qed.

Lemma layout_keeps_owner (k : AffineKind) (ix ixs : Symbolic_interval.t) :
  layout k ix = Ok ixs ->
  Symbolic_interval.edep_ind ixs = Symbolic_interval.edep_ind ix
  /\ length (Symbolic_interval.edep ixs) = length (Symbolic_interval.edep ix).
Proof.
  destruct k; simpl.
  - intros H; inversion H; auto.
  - unfold Symbolic_interval.shrink. intros H.
    inv_bind H. inv_bind H. inv_bind H. inversion H; subst; simpl.
    split; [reflexivity|].
    symmetry. eapply Forall2_length_eq. apply mapM_Forall2. eassumption.
Qed.

(** C4. When a Dense or Conv2d layer accepts a symbolic interval, it maps
    the center by the layer's operator with its bias, the exact dependency
    and every error entry by the same operator without bias, keeps the
    number of error entries and leaves the owner matrices untouched. *)
Theorem C4_symbolic_affine_is_exact :
  forall (k : AffineKind) (layer : Layer) (ix : Symbolic_interval.t)
         (out : PyObj),
    affine_forward k layer (PySym ix) = Ok out ->
    symbolic_affine_effect k layer ix out.
Proof.
  intros k layer ix out H. unfold symbolic_affine_effect.
  assert (G : exists ixs c' idep' edep' n',
             layout k ix = Ok ixs
             /\ affine k layer (Symbolic_interval.c ixs) (weight layer) (bias layer)
                = Ok c'
             /\ affine k layer (Symbolic_interval.idep ixs) (weight layer) None
                = Ok idep'
             /\ mapM (fun ed => affine k layer ed (weight layer) None)
                  (Symbolic_interval.edep ixs) = Ok edep'
             /\ out = PySym (Symbolic_interval.concretize
                               (Symbolic_interval.set_shape
                                  (Symbolic_interval.set_deps ixs c' idep' edep')
                                  (tl (tshape c')) n'))).
  { destruct k; simpl in H |- *.
    - inv_bind H. inv_bind H. inv_bind H. inv_bind H. inversion H; subst.
      exists ix, a, a0, a1, a2. auto.
    - inv_bind H. inv_bind H. inv_bind H. inv_bind H. inv_bind H.
      inversion H; subst. exists a, a0, a1, a2, a3. auto. }
  destruct G as [ixs [c' [idep' [edep' [n' [Hl [Hc [Hi [He ->]]]]]]]]].
  destruct (layout_keeps_owner k ix ixs Hl) as [Hind Hlen].
  eexists ixs, _. split; [exact Hl|]. split; [reflexivity|]. simpl.
  pose proof (mapM_Forall2 _ _ _ He) as HF.
  repeat split; auto.
  rewrite <- Hlen. symmetry. eapply Forall2_length_eq. exact HF.
Qed.

(** The first dense layer of the scenario, and a 2x2 convolution on an
    interval that already carries an error row. *)
Lemma C4_witness :
  (affine_forward Dense ex_dense_layer (PySym ex_sym_in) = Ok ex_dense_out
   /\ symbolic_affine_effect Dense ex_dense_layer ex_sym_in ex_dense_out)
  /\ (affine_forward Conv ex_conv_layer (PySym ex_sym_image) = Ok ex_conv_out
      /\ symbolic_affine_effect Conv ex_conv_layer ex_sym_image ex_conv_out).
Proof.
  split; (split; [vm_compute; reflexivity|]).
  - apply (C4_symbolic_affine_is_exact Dense ex_dense_layer ex_sym_in
             ex_dense_out).
    vm_compute; reflexivity.
  - apply (C4_symbolic_affine_is_exact Conv ex_conv_layer ex_sym_image
             ex_conv_out).
    vm_compute; reflexivity.
Defined.

Lemma Forall2_mapM {A B : Type} (f : A -> Result B) (xs : list A) (ys : list B) :
  Forall2 (fun x y => f x = Ok y) xs ys -> mapM f xs = Ok ys.
Proof.
  induction 1 as [|x y xs ys Hxy _ IH]; simpl; [reflexivity|].
  rewrite Hxy. simpl. rewrite IH. reflexivity.
Qed.

(** Conversely to C4: an affine layer whose operator accepts the center,
    the exact dependency and every error entry of a nonempty batch returns
    the interval with exactly these images, concretized. *)
Lemma symbolic_affine_returns (k : AffineKind) (layer : Layer)
  (ix ixs : Symbolic_interval.t) (c' idep' : Tensor) (edep' : list Tensor)
  (n' : nat) :
  layout k ix = Ok ixs ->
  affine k layer (Symbolic_interval.c ixs) (weight layer) (bias layer) = Ok c' ->
  affine k layer (Symbolic_interval.idep ixs) (weight layer) None = Ok idep' ->
  Forall2 (fun ed ed' => affine k layer ed (weight layer) None = Ok ed')
    (Symbolic_interval.edep ixs) edep' ->
  units_per_sample c' = Ok n' ->
  affine_forward k layer (PySym ix)
  = Ok (PySym (Symbolic_interval.concretize
                 (Symbolic_interval.set_shape
                    (Symbolic_interval.set_deps ixs c' idep' edep')
                    (tl (tshape c')) n'))).
Proof.
  intros Hl Hc Hi He Hn. apply Forall2_mapM in He.
  destruct k; simpl in *.
  - inversion Hl; subst ixs. rewrite Hc. simpl. rewrite Hi. simpl.
    rewrite He. simpl. rewrite Hn. reflexivity.
  - rewrite Hl. simpl. rewrite Hc. simpl. rewrite Hi. simpl.
    rewrite He. simpl. rewrite Hn. reflexivity.
Qed.

(* ================================================================== *)
(** ** Error rows injected by the symbolic ReLU *)

Lemma upd_length {A : Type} (i : nat) (v : A) (xs : list A) :
  length (upd i v xs) = length xs.
Proof.
  revert i. induction xs as [|x xs IH]; intros [|i]; simpl; auto.
Qed.

Lemma firstn_repeat {A : Type} (x : A) (n m : nat) :
  firstn n (repeat x (n + m)) = repeat x n.
Proof.
  induction n; simpl; [reflexivity | now rewrite IHn].
Qed.

Lemma skipn_repeat {A : Type} (x : A) (n m : nat) :
  skipn n (repeat x (n + m)) = repeat x m.
Proof.
  induction n; simpl; auto.
Qed.

Lemma to_rows_repeat {A : Type} (x : A) (k n : nat) :
  to_rows k n (repeat x (k * n)) = repeat (repeat x n) k.
Proof.
  induction k as [|k IH]; simpl; [reflexivity|].
  now rewrite firstn_repeat, skipn_repeat, IH.
Qed.

Lemma to_rows_length {A : Type} (k n : nat) (d : list A) :
  length (to_rows k n d) = k.
Proof.
  revert d. induction k; intros d; simpl; auto.
Qed.

Lemma to_rows_concat {A : Type} (n : nat) (rows : list (list A)) :
  Forall (fun r => length r = n) rows ->
  to_rows (length rows) n (concat rows) = rows.
Proof.
  induction 1 as [|r rows Hr _ IH]; simpl; [reflexivity|].
  subst n.
  rewrite firstn_app, skipn_app, Nat.sub_diag, firstn_all, skipn_all.
  simpl. now rewrite app_nil_r, IH.
Qed.

Lemma concat_length_rows {A : Type} (n : nat) (rows : list (list A)) :
  Forall (fun r => length r = n) rows ->
  length (concat rows) = (length rows * n)%nat.
Proof.
  induction 1 as [|r rows Hr _ IH]; simpl; [reflexivity|].
  rewrite length_app, IH, Hr. reflexivity.
Qed.

Lemma scatter_rows_shape (n : nat) (rows : list (list Q)) (idx : list nat)
  (src : list Q) :
  Forall (fun r => length r = n) rows ->
  length (scatter_rows rows idx src) = length rows
  /\ Forall (fun r => length r = n) (scatter_rows rows idx src).
Proof.
  intros H. revert idx src.
  induction H as [|r rows Hr Hrows IH]; intros idx src; simpl.
  - split; [reflexivity | constructor].
  - destruct idx as [|i idx]; [split; [reflexivity | now constructor]|].
    destruct src as [|v src]; [split; [reflexivity | now constructor]|].
    simpl. destruct (IH idx src) as [IH1 IH2]. split; [now rewrite IH1|].
    constructor; [now rewrite upd_length | exact IH2].
Qed.

Lemma scatter_rows_const (r : list Q) (v : Q) (idx : list nat) :
  scatter_rows (repeat r (length idx)) idx (repeat v (length idx))
  = map (fun i => upd i v r) idx.
Proof.
  induction idx as [|i idx IH]; simpl; [reflexivity | now rewrite IH].
Qed.

Lemma nonzero_from_length (p : nat) (cond : list bool) :
  length (nonzero_from p cond) = count_true cond.
Proof.
  revert p. unfold count_true.
  induction cond as [|b cond IH]; intros p; simpl; [reflexivity|].
  destruct b; simpl; now rewrite IH.
Qed.

Lemma scale_edep_length (edep edep_ind edep' : list Tensor) (mask : Tensor) :
  scale_edep edep edep_ind mask = Ok edep' -> length edep' = length edep.
Proof.
  revert edep_ind edep'. induction edep as [|ed edep IH];
    intros edep_ind edep'; simpl; intros H.
  - inversion H; reflexivity.
  - destruct edep_ind as [|ind edep_ind]; [discriminate|].
    inv_bind H. inv_bind H. inv_bind H. inversion H; subst. simpl.
    f_equal. eapply IH. eassumption.
Qed.

Lemma repeat_rows_length {A : Type} (x : A) (n k : nat) :
  Forall (fun r => length r = n) (repeat (repeat x n) k).
Proof.
  induction k; simpl; constructor; auto using repeat_length.
Qed.

(** The shape and storage of a scatter into a fresh zero matrix. *)
Lemma scatter_zeros (m n : nat) (idx : list nat) (src : list Q) (t : Tensor) :
  scatter_1 (zeros [m; n]) idx src = Ok t ->
  tshape t = [m; n]
  /\ data t = concat (scatter_rows (repeat (repeat 0 n) m) idx src)
  /\ Forall (fun i => (i < n)%nat) idx
  /\ length (data t) = (m * n)%nat
  /\ length (to_rows m n (data t)) = m.
Proof.
  unfold scatter_1, zeros. cbn [tshape data].
  destruct (andb _ _) eqn:E; [|discriminate].
  intros H; inversion H; subst; clear H. cbn [tshape data].
  rewrite Nat.mul_1_r, to_rows_repeat.
  apply andb_true_iff in E. destruct E as [_ E].
  destruct (scatter_rows_shape n (repeat (repeat 0 n) m) idx src
              (repeat_rows_length 0 n m)) as [Hlen Hrows].
  repeat split; auto.
  - apply Forall_forall. intros i Hi.
    rewrite forallb_forall in E. apply Nat.ltb_lt. now apply E.
  - rewrite (concat_length_rows n _ Hrows), Hlen, repeat_length. reflexivity.
  - apply to_rows_length.
Qed.

Lemma owner_rows_one_hot (B : nat) (idx : list nat) (ind : Tensor) :
  scatter_1 (zeros [length idx; B]) idx (repeat 1 (length idx)) = Ok ind ->
  owner_ok B ind /\ tshape ind = [length idx; B].
Proof.
  intros H. destruct (scatter_zeros _ _ _ _ _ H) as [Hs [Hd [Hi [_ Hl]]]].
  split; [|exact Hs]. exists (length idx). split; [exact Hs|].
  split; [exact Hl|].
  rewrite Hd, scatter_rows_const.
  assert (Hrows : Forall (fun r : list Q => length r = B)
                    (map (fun i => upd i 1 (repeat 0 B)) idx)).
  { apply Forall_map, Forall_forall. intros i _.
    now rewrite upd_length, repeat_length. }
  pose proof (to_rows_concat B _ Hrows) as Hc.
  rewrite length_map in Hc. rewrite Hc.
  apply Forall_map. revert Hi. apply Forall_impl. intros i Hlt.
  exists i. auto.
Qed.

(** C3. When the symbolic ReLU accepts an interval whose bounds have batch
    size [B] and [k] ambiguous units in total, it appends exactly one entry
    to [edep], with [k] rows of [n] units, and exactly one entry to
    [edep_ind], with [k] rows over the [B] samples, each with a single 1 and
    zeros elsewhere; the earlier owner entries are kept as they are, so
    every owner row stays one-hot. *)
Theorem C3_relu_error_row_accounting :
  forall (layer : Layer) (ix ix' : Symbolic_interval.t),
    Interval_ReLU_forward layer (PySym ix) = Ok (PySym ix') ->
    error_row_accounting ix ix'.
Proof.
  intros layer ix ix' H. unfold error_row_accounting.
  set (k := count_ambiguous (Symbolic_interval.l ix) (Symbolic_interval.u ix)).
  set (n := Symbolic_interval.n ix). simpl in H.
  inv_bind H. rename a into cond, Ha into Hcond.
  inv_bind H. rename a into mask.
  inv_bind H. rename a into cond2, Ha0 into Hview.
  inv_bind H. rename a into appr_ind, Ha0 into Hnz.
  inv_bind H. rename a into neg_lower.
  inv_bind H. rename a into error_row, Ha1 into Hrow.
  inv_bind H. rename a into B, Ha1 into HB.
  inv_bind H. rename a into ind, Ha1 into Hind.
  inv_bind H. inv_bind H. inv_bind H.
  inv_bind H. rename a2 into edep', Ha4 into Hscale.
  inv_bind H. inversion H; subst ix'; clear H. simpl.
  destruct (appr_cond_data _ _ _ Hcond) as [_ [_ Hdata]].
  assert (Hk : count_true (data cond) = k)
    by (unfold k, count_ambiguous; now rewrite Hdata).
  assert (Hlen : length appr_ind = k).
  { unfold view_neg in Hview.
    destruct (_ =? 0)%nat; [discriminate|].
    destruct (_ =? 0)%nat; [|discriminate].
    inversion Hview; subst cond2; clear Hview.
    unfold nonzero in Hnz. simpl in Hnz. inversion Hnz; subst appr_ind.
    now rewrite length_map, nonzero_from_length. }
  rewrite Hk in Hrow.
  destruct (scatter_zeros _ _ _ _ _ Hrow) as [Hrs [_ [_ [Hrl _]]]].
  rewrite <- (length_map fst appr_ind) in Hind.
  destruct (owner_rows_one_hot B (map fst appr_ind) ind Hind)
    as [[r [Hs [Hl Hoh]]] Hshape].
  rewrite length_map, Hlen in Hshape.
  assert (r = k) by congruence. subst r.
  exists B, edep', error_row, ind.
  repeat split; auto.
  - eapply scale_edep_length; eassumption.
  - intros Hold. apply Forall_app. split; [exact Hold|].
    constructor; [|constructor]. exists k. auto.
Qed.

(** Two samples with one ambiguous unit each: two rows are injected, the
    first owned by sample 0 and the second by sample 1. *)
Lemma C3_witness :
  Interval_ReLU_forward ex_relu_layer (PySym ex_sym_batch)
  = Ok (PySym ex_sym_batch_relu)
  /\ count_ambiguous (Symbolic_interval.l ex_sym_batch)
                     (Symbolic_interval.u ex_sym_batch) = 2%nat
  /\ error_row_accounting ex_sym_batch ex_sym_batch_relu.
Proof.
  split; [vm_compute; reflexivity|]. split; [reflexivity|].
  apply (C3_relu_error_row_accounting ex_relu_layer ex_sym_batch
           ex_sym_batch_relu).
  vm_compute; reflexivity.
Defined.

Lemma cond_false_at_degenerate (lower upper : Tensor) (cond : BoolTensor) (p : nat) :
  appr_cond lower upper = Ok cond ->
  nth p (data lower) 0 == nth p (data upper) 0 ->
  nth p (data cond) false = false.
Proof.
  intros Hc Heq. destruct (appr_cond_data _ _ _ Hc) as [_ [_ Hd]].
  rewrite Hd. destruct (nth p (zip_with ambiguous _ _) false) eqn:E; auto.
  apply nth_zip_with_ambiguous in E.
  rewrite (ambiguous_degenerate _ _ Heq) in E. discriminate.
Qed.

Lemma box_denominator_at_degenerate (lower upper width : Tensor) (p : nat) :
  t_sub upper lower = Ok width ->
  (p < length (data lower))%nat -> (p < length (data upper))%nat ->
  nth p (data lower) 0 == nth p (data upper) 0 ->
  nth p (data (t_addc width slope_eps)) 0 == slope_eps.
Proof.
  intros Hw Hl Hu Heq. apply zipT_Ok in Hw. destruct Hw as [_ ->]. simpl.
  rewrite (nth_indep _ 0 ((fun x => x + slope_eps) 0))
    by (rewrite length_map, zip_with_length; lia).
  rewrite (map_nth (fun x => x + slope_eps)).
  rewrite (nth_zip_with Qminus _ _ p 0 0 0) by lia.
  rewrite Heq. unfold slope_eps. lra.
Qed.

(** C6. The ReLU transfer function never divides by exactly zero: the
    symbolic branch divides only at the selected units, whose denominators
    [upper - lower] are positive, the box branch divides by
    [upper - lower + 0.000001], positive on ordered bounds; a unit with
    [upper == lower] is never classified ambiguous, in either branch, and
    its box denominator is the constant 0.000001. *)
Theorem C6_relu_never_divides_by_zero :
  forall (layer : Layer) (sx : Symbolic_interval.t) (bx : Interval.t),
    box_ok bx ->
    Interval_ReLU_forward layer (PySym sx) <> Raise NonFinite
    /\ Interval_ReLU_forward layer (PyBox bx) <> Raise NonFinite
    /\ (forall cond,
          appr_cond (Symbolic_interval.l sx) (Symbolic_interval.u sx) = Ok cond ->
          Forall (fun d => 0 < d)
            (zip_with Qminus
               (masked_select (data (Symbolic_interval.u sx)) (data cond))
               (masked_select (data (Symbolic_interval.l sx)) (data cond))))
    /\ (forall lower upper cond p,
          appr_cond lower upper = Ok cond ->
          nth p (data lower) 0 == nth p (data upper) 0 ->
          nth p (data cond) false = false)
    /\ (forall width p,
          t_sub (Interval.u bx) (Interval.l bx) = Ok width ->
          (p < length (data (Interval.l bx)))%nat ->
          nth p (data (Interval.l bx)) 0 == nth p (data (Interval.u bx)) 0 ->
          nth p (data (t_addc width slope_eps)) 0 == slope_eps
          /\ ~ slope_eps == 0).
Proof.
  intros layer sx bx Hok.
  split; [apply finite_sym_relu|]. split.
  - destruct (box_relu_mask_Ok _ _ (proj1 Hok) (proj2 Hok)) as [mask Hm].
    destruct (box_relu_forward_Ok layer bx mask Hok Hm) as [ix' [Hf _]].
    rewrite Hf. discriminate.
  - split; [|split].
    + intros cond Hc. apply zipT_Ok in Hc. destruct Hc as [_ ->]. simpl.
      apply selected_denominators_positive.
    + intros lower upper cond p. apply cond_false_at_degenerate.
    + intros width p Hw Hp Heq. split.
      * apply (box_denominator_at_degenerate _ _ _ p Hw Hp); auto.
        rewrite <- (Forall2_length_eq _ _ _ (proj2 Hok)). exact Hp.
      * unfold slope_eps. intros E. discriminate E.
Qed.

(** The unit with bounds [-1, 1], in both domains. *)
Lemma C6_witness :
  box_ok ex_box
  /\ Interval_ReLU_forward ex_relu_layer (PySym ex_sym) <> Raise NonFinite
  /\ Interval_ReLU_forward ex_relu_layer (PyBox ex_box) <> Raise NonFinite.
Proof.
  split; [exact ex_box_ok|].
  destruct (C6_relu_never_divides_by_zero ex_relu_layer ex_sym ex_box ex_box_ok)
    as [Hs [Hb _]].
  split; assumption.
Defined.

(* ================================================================== *)
(** ** Slopes of the symbolic ReLU *)

Lemma sym_mask_entries (ls us : list Q) :
  length ls = length us ->
  masked_assign (map b2q (map (fun x => Qltb 0 x) ls))
    (zip_with ambiguous ls us)
    (zip_with Qdiv
       (masked_select us (zip_with ambiguous ls us))
       (zip_with Qminus (masked_select us (zip_with ambiguous ls us))
                        (masked_select ls (zip_with ambiguous ls us))))
  = zip_with sym_slope ls us.
Proof.
  revert us. induction ls as [|x ls IH]; intros [|y us]; simpl; intros H;
    try discriminate; auto.
  injection H as H. unfold sym_slope at 1.
  destruct (ambiguous x y); simpl; now rewrite IH.
Qed.

Lemma sym_relu_mask_data (lower upper : Tensor) (cond : BoolTensor) (mask : Tensor) :
  length (data lower) = length (data upper) ->
  appr_cond lower upper = Ok cond ->
  sym_relu_mask lower upper cond = Ok mask ->
  tshape mask = tshape lower
  /\ data mask = zip_with sym_slope (data lower) (data upper).
Proof.
  intros Hlen Hc Hm. destruct (appr_cond_data _ _ _ Hc) as [_ [_ Hd]].
  unfold sym_relu_mask in Hm. inv_bind Hm. inversion Hm; subst mask; clear Hm.
  simpl. split; [reflexivity|].
  unfold v_div in Ha. destruct (existsb _ _); [discriminate|].
  inversion Ha; subst a; clear Ha.
  rewrite Hd. now apply sym_mask_entries.
Qed.

Lemma sym_slope_cases (lo up : Q) :
  lo <= up ->
  (lo < 0 -> 0 < up -> sym_slope lo up = up / (up - lo))
  /\ (0 < lo -> sym_slope lo up = 1)
  /\ (up <= 0 -> sym_slope lo up = 0)
  /\ (lo == 0 -> sym_slope lo up = 0).
Proof.
  intros Hle. unfold sym_slope, ambiguous. repeat split; intros.
  - rewrite (proj2 (Qltb_true lo 0)), (proj2 (Qltb_true 0 up)) by assumption.
    reflexivity.
  - rewrite (proj2 (Qltb_false lo 0)) by lra. simpl.
    now rewrite (proj2 (Qltb_true 0 lo)).
  - rewrite (proj2 (Qltb_false 0 up)) by assumption. rewrite andb_false_r.
    rewrite (proj2 (Qltb_false 0 lo)) by lra. reflexivity.
  - rewrite (proj2 (Qltb_false lo 0)) by lra. simpl.
    rewrite (proj2 (Qltb_false 0 lo)) by lra. reflexivity.
Qed.

(** C2 (defect of the code). A unit with bounds [0, 1] has [lower >= 0],
    so its slope should be 1; the symbolic branch tests [lower > 0] and
    gives it slope 0: the center 1/2 and the exact dependency 1/2 are both
    multiplied by 0, and after the next dense layer the concretized bounds
    are [0, 0], which exclude relu(1) = 1.  The box branch gives the same
    unit slope 1. *)
Theorem C2_symbolic_relu_slope_zero_at_lower_zero :
  exists ix0 ix' out mask_box,
    Symbolic_interval.construct (mkT [1; 1]%nat [0]) (mkT [1; 1]%nat [1]) false
    = Ok ix0
    /\ all_eq (data (Symbolic_interval.c ix0)) [1 # 2]
    /\ all_eq (data (Symbolic_interval.idep ix0)) [1 # 2]
    /\ Interval_ReLU_forward ex_relu_layer (PySym ix0) = Ok (PySym ix')
    /\ all_eq (data (Symbolic_interval.c ix')) [0]
    /\ all_eq (data (Symbolic_interval.idep ix')) [0]
    /\ Interval_network_forward
         (Interval_network [ex_identity_layer; ex_relu_layer; ex_identity_layer])
         (PySym ix0) = Ok (PySym out)
    /\ all_eq (data (Symbolic_interval.l out)) [0]
    /\ all_eq (data (Symbolic_interval.u out)) [0]
    /\ sym_slope 0 1 = 0
    /\ box_relu_mask (mkT [1; 1]%nat [0]) (mkT [1; 1]%nat [1]) = Ok mask_box
    /\ all_eq (data mask_box) [1].
Proof.
  eexists. eexists. eexists. eexists.
  split; [vm_compute; reflexivity|].
  split; [repeat constructor|].
  split; [repeat constructor|].
  split; [vm_compute; reflexivity|].
  split; [repeat constructor|].
  split; [repeat constructor|].
  split; [vm_compute; reflexivity|].
  split; [repeat constructor|].
  split; [repeat constructor|].
  split; [reflexivity|].
  split; [vm_compute; reflexivity|].
  repeat constructor.
Qed.

(* ================================================================== *)
(** ** What the symbolic ReLU computes *)

Lemma masked_select_length {A : Type} (xs : list A) (cond : list bool) :
  (length cond <= length xs)%nat ->
  length (masked_select xs cond) = count_true cond.
Proof.
  unfold count_true. revert cond.
  induction xs as [|x xs IH]; intros [|b cond]; simpl; intros H; try lia.
  destruct b; simpl; rewrite IH; lia.
Qed.

Lemma nonzero_from_range (off : nat) (cond : list bool) :
  Forall (fun p => (off <= p < off + length cond)%nat) (nonzero_from off cond).
Proof.
  revert off. induction cond as [|b cond IH]; intros off; simpl; [constructor|].
  assert (H : Forall (fun p => (off <= p < off + S (length cond))%nat)
                (nonzero_from (S off) cond)).
  { specialize (IH (S off)). revert IH. apply Forall_impl. intros p Hp. lia. }
  destruct b; [constructor; [lia | exact H] | exact H].
Qed.

Lemma t_mm_Ok (a b : Tensor) (r k n : nat) :
  tshape a = [r; k] -> tshape b = [k; n] ->
  exists t, t_mm a b = Ok t /\ tshape t = [r; n].
Proof.
  intros Ha Hb. unfold t_mm. rewrite Ha, Hb, Nat.eqb_refl. eauto.
Qed.

Lemma scale_edep_Ok (edep edep_ind : list Tensor) (mask : Tensor) (B n : nat) :
  tshape mask = [B; n] ->
  Forall2 (fun ed ind => exists r, tshape ed = [r; n] /\ tshape ind = [r; B])
    edep edep_ind ->
  exists edep', scale_edep edep edep_ind mask = Ok edep'.
Proof.
  intros Hm H. induction H as [|ed ind edep edep_ind [r [He Hi]] _ [edep' IH]];
    simpl; [eauto|].
  destruct (t_mm_Ok ind mask r B n Hi Hm) as [t [Ht Hs]]. rewrite Ht. simpl.
  unfold t_mul. rewrite zipT_same by congruence. simpl. rewrite IH. simpl. eauto.
Qed.

Lemma numel_flat (B n : nat) : numel [B; n] = (B * n)%nat.
Proof. unfold numel; simpl. lia. Qed.

Lemma view_rows_Ok {A : Type} (t : tensor A) (B n : nat) :
  (0 < n)%nat -> tshape t = [B; n] ->
  view_neg t [] [n] = Ok (mkT [B; n] (data t)).
Proof.
  intros Hn Hs. unfold view_neg. rewrite Hs.
  replace (numel [] * numel [n])%nat with n by (unfold numel; simpl; lia).
  rewrite numel_flat.
  destruct (n =? 0)%nat eqn:E; [apply Nat.eqb_eq in E; lia|].
  rewrite Nat.Div0.mod_mul, Nat.eqb_refl, Nat.div_mul by lia. reflexivity.
Qed.

Lemma scatter_1_Ok (m n : nat) (idx : list nat) (src : list Q) :
  (length idx <= m)%nat -> (length idx <= length src)%nat ->
  Forall (fun i => (i < n)%nat) idx ->
  exists t, scatter_1 (zeros [m; n]) idx src = Ok t.
Proof.
  intros H1 H2 H3. unfold scatter_1, zeros. cbn [tshape data].
  rewrite (proj2 (Nat.leb_le _ _) H1), (proj2 (Nat.leb_le _ _) H2).
  assert (E : forallb (fun i => (i <? n)%nat) idx = true).
  { apply forallb_forall. intros i Hi. rewrite Forall_forall in H3.
    apply Nat.ltb_lt. now apply H3. }
  rewrite E. simpl. eauto.
Qed.

Lemma mul_per_sample_Ok (idep mask : Tensor) (B n n0 : nat) :
  tshape mask = [B; n] -> tshape idep = [B; n0; n] ->
  exists t, mul_per_sample idep B n mask = Ok t.
Proof.
  intros Hm Hi. unfold mul_per_sample, view. rewrite Hm.
  replace (numel [B; 1%nat; n] =? numel [B; n])%nat with true
    by (symmetry; apply Nat.eqb_eq; unfold numel; simpl; lia).
  simpl. rewrite Hi, !Nat.eqb_refl. simpl. eauto.
Qed.

(** The symbolic ReLU accepts every flattened symbolic interval. *)
Lemma sym_relu_returns (layer : Layer) (ix : Symbolic_interval.t) (B n : nat) :
  sym_flat ix B n ->
  exists ix', Interval_ReLU_forward layer (PySym ix) = Ok (PySym ix').
Proof.
  intros (Hn & Hnn & HB & Hl & Hu & Hc & Hll & Hul & [n0 Hidep] & Hed).
  unfold Interval_ReLU_forward.
  destruct (appr_cond (Symbolic_interval.l ix) (Symbolic_interval.u ix))
    as [cond|ex] eqn:Hcond.
  2:{ unfold appr_cond, t_band in Hcond.
      rewrite zipT_same in Hcond by (simpl; congruence). discriminate. }
  destruct (appr_cond_data _ _ _ Hcond) as [_ [Hcs Hcd]]. rewrite Hl in Hcs.
  cbn [bind].
  destruct (sym_relu_mask_Ok _ _ _ Hcond) as [mask Hmask]. rewrite Hmask.
  cbn [bind].
  destruct (sym_relu_mask_data _ _ _ _ (eq_trans Hll (eq_sym Hul)) Hcond Hmask)
    as [Hms Hmd].
  rewrite Hl in Hms.
  rewrite Hnn. rewrite (view_rows_Ok cond B n Hn Hcs). cbn [bind].
  unfold nonzero. cbn [tshape data bind].
  unfold t_mul at 1. rewrite zipT_same by (simpl; congruence). cbn [bind].
  assert (Hcl : length (data cond) = (B * n)%nat).
  { rewrite Hcd, zip_with_length. lia. }
  pose proof (nonzero_from_range 0 (data cond)) as Hrange. rewrite Hcl in Hrange.
  set (appr_ind := map (fun p => ((p / n)%nat, (p mod n)%nat))
                     (nonzero_from 0 (data cond))).
  assert (Hal : length appr_ind = count_true (data cond))
    by (unfold appr_ind; now rewrite length_map, nonzero_from_length).
  match goal with
  | |- context [scatter_1 (zeros [count_true (data cond); n]) ?idx ?src] =>
      destruct (scatter_1_Ok (count_true (data cond)) n idx src) as [row Hrow]
  end.
  { rewrite length_map. lia. }
  { rewrite length_map, Hal, masked_select_length; [lia|].
    cbn [t_divc mapT data t_neg]. rewrite length_map, zip_with_length, length_map, Hmd, zip_with_length. lia. }
  { unfold appr_ind. rewrite map_map. apply Forall_map. revert Hrange.
    apply Forall_impl. intros p _. simpl. apply Nat.mod_upper_bound. lia. }
  rewrite Hrow. cbn [bind].
  unfold size0. rewrite Hl. cbn [bind].
  destruct (scatter_1_Ok (length appr_ind) B (map fst appr_ind)
              (repeat 1 (length appr_ind))) as [ind Hind].
  { rewrite length_map. lia. }
  { rewrite repeat_length, length_map. lia. }
  { unfold appr_ind. rewrite map_map. apply Forall_map. revert Hrange.
    apply Forall_impl. intros p Hp. simpl.
    apply Nat.Div0.div_lt_upper_bound. lia. }
  rewrite Hind. cbn [bind].
  unfold t_mul at 1. rewrite zipT_same by congruence. cbn [bind].
  unfold t_mul at 1. rewrite zipT_same by (simpl; congruence). cbn [bind].
  unfold t_add. rewrite zipT_same by (simpl; congruence). cbn [bind].
  destruct (scale_edep_Ok _ _ mask B n Hms Hed) as [edep' He]. rewrite He.
  cbn [bind]. rewrite HB.
  destruct (mul_per_sample_Ok _ mask B n n0 Hms Hidep) as [idep' Hi].
  rewrite Hi. cbn [bind]. eauto.
Qed.

Lemma masked_select_positions (xs : list Q) (cond : list bool) (off : nat)
  (pre : list Q) :
  length pre = off -> (length cond <= length xs)%nat ->
  masked_select xs cond
  = map (fun p => nth p (pre ++ xs) 0) (nonzero_from off cond).
Proof.
  revert cond off pre. induction xs as [|x xs IH]; intros [|b cond] off pre Hp Hl;
    simpl in *; try reflexivity; try lia.
  assert (E : masked_select xs cond
              = map (fun p => nth p (pre ++ x :: xs) 0) (nonzero_from (S off) cond)).
  { rewrite (IH cond (S off) (pre ++ [x])).
    - now rewrite <- app_assoc.
    - rewrite length_app; simpl; lia.
    - lia. }
  destruct b; simpl; rewrite E; [|reflexivity].
  f_equal. rewrite app_nth2 by lia. subst off. now rewrite Nat.sub_diag.
Qed.

Lemma scatter_rows_zip (r : list Q) (k : nat) (idx : list nat) (src : list Q) :
  length idx = k -> length src = k ->
  scatter_rows (repeat r k) idx src = zip_with (fun i v => upd i v r) idx src.
Proof.
  intros <-. revert src.
  induction idx as [|i idx IH]; intros [|v src]; simpl; intros H;
    try discriminate; auto.
  rewrite IH by lia. reflexivity.
Qed.

Lemma zip_with_map_same {A B C D : Type} (f : B -> C -> D) (g : A -> B)
  (h : A -> C) (xs : list A) :
  zip_with f (map g xs) (map h xs) = map (fun x => f (g x) (h x)) xs.
Proof.
  induction xs; simpl; [reflexivity | now rewrite IHxs].
Qed.

(** What the symbolic ReLU computes, step by step. *)
Lemma sym_relu_inv (layer : Layer) (ix ix' : Symbolic_interval.t) :
  Interval_ReLU_forward layer (PySym ix) = Ok (PySym ix') ->
  exists cond mask row B ind c' edep' idep',
    appr_cond (Symbolic_interval.l ix) (Symbolic_interval.u ix) = Ok cond
    /\ sym_relu_mask (Symbolic_interval.l ix) (Symbolic_interval.u ix) cond
       = Ok mask
    /\ (0 < Symbolic_interval.n ix)%nat
    /\ scatter_1 (zeros [count_true (data cond); Symbolic_interval.n ix])
         (map (fun p => (p mod Symbolic_interval.n ix)%nat)
              (nonzero_from 0 (data cond)))
         (masked_select
            (map (fun x => x / 2)
               (zip_with Qmult (data mask)
                  (map Qopp (data (Symbolic_interval.l ix)))))
            (data cond)) = Ok row
    /\ size0 (Symbolic_interval.l ix) = Ok B
    /\ scatter_1 (zeros [count_true (data cond); B])
         (map (fun p => (p / Symbolic_interval.n ix)%nat)
              (nonzero_from 0 (data cond)))
         (repeat 1 (count_true (data cond))) = Ok ind
    /\ data c'
       = zip_with Qplus
           (zip_with Qmult (data (Symbolic_interval.c ix)) (data mask))
           (zip_with Qmult
              (map (fun x => x / 2)
                 (zip_with Qmult (data mask)
                    (map Qopp (data (Symbolic_interval.l ix)))))
              (map b2q (data cond)))
    /\ scale_edep (Symbolic_interval.edep ix) (Symbolic_interval.edep_ind ix) mask
       = Ok edep'
    /\ mul_per_sample (Symbolic_interval.idep ix)
         (Symbolic_interval.batch_size ix) (Symbolic_interval.n ix) mask
       = Ok idep'
    /\ ix' = Symbolic_interval.mk (Symbolic_interval.l ix) (Symbolic_interval.u ix)
               c' idep' (edep' ++ [row]) (Symbolic_interval.edep_ind ix ++ [ind])
               (Symbolic_interval.shape ix) (Symbolic_interval.n ix)
               (Symbolic_interval.batch_size ix) (Symbolic_interval.use_cuda ix).
Proof.
  intros H. unfold Interval_ReLU_forward in H.
  inv_bind_as H cond Hcond. inv_bind_as H mask Hmask.
  inv_bind_as H cond2 Hview. inv_bind_as H appr_ind Hnz.
  inv_bind_as H neg_lower Hneg. inv_bind_as H row Hrow.
  inv_bind_as H B HB. inv_bind_as H ind Hind.
  inv_bind_as H scaled Hsc. inv_bind_as H shift Hsh. inv_bind_as H c' Hc'.
  inv_bind_as H edep' He. inv_bind_as H idep' Hi.
  inversion H; subst ix'; clear H.
  assert (Hn : (0 < Symbolic_interval.n ix)%nat
               /\ cond2 = mkT ((numel (tshape cond)
                                / (numel [] * numel [Symbolic_interval.n ix]))%nat
                               :: [Symbolic_interval.n ix]) (data cond)).
  { unfold view_neg in Hview.
    destruct (numel [] * numel [Symbolic_interval.n ix] =? 0)%nat eqn:E;
      [discriminate|].
    match type of Hview with
    | (if ?t then _ else _) = _ => destruct t; [|discriminate]
    end.
    inversion Hview. split; [|reflexivity].
    apply Nat.eqb_neq in E. unfold numel in E. simpl in E. lia. }
  destruct Hn as [Hn ->].
  unfold nonzero in Hnz. cbn [tshape data] in Hnz. inversion Hnz; subst appr_ind.
  clear Hnz. rewrite !map_map in Hrow, Hind. cbn [fst snd] in Hrow, Hind.
  rewrite length_map, nonzero_from_length in Hind.
  apply zipT_Ok in Hneg. destruct Hneg as [_ ->].
  apply zipT_Ok in Hsc. destruct Hsc as [_ ->].
  apply zipT_Ok in Hsh. destruct Hsh as [_ ->].
  apply zipT_Ok in Hc'. destruct Hc' as [_ ->].
  exists cond, mask, row, B, ind.
  eexists. exists edep', idep'.
  split; [exact Hcond|]. split; [exact Hmask|]. split; [exact Hn|].
  split; [exact Hrow|]. split; [exact HB|]. split; [exact Hind|].
  split; [|split; [exact He | split; [exact Hi | reflexivity]]].
  reflexivity.
Qed.

Lemma nth_map_in {A : Type} (f : A -> Q) (xs : list A) (p : nat) (d : A) :
  (p < length xs)%nat -> nth p (map f xs) 0 = f (nth p xs d).
Proof.
  revert p. induction xs as [|x xs IH]; intros [|p]; simpl; intros H;
    try lia; auto.
  apply IH. lia.
Qed.

Lemma nth_appr_err (ls us : list Q) (p : nat) :
  length ls = length us -> (p < length ls)%nat ->
  nth p (map (fun x => x / 2)
           (zip_with Qmult (zip_with sym_slope ls us) (map Qopp ls))) 0
  = appr_err_of (nth p ls 0) (nth p us 0).
Proof.
  intros Hlen Hp.
  rewrite (nth_map_in (fun x => x / 2) _ p 0)
    by (rewrite !zip_with_length, length_map; lia).
  rewrite (nth_zip_with Qmult _ _ p 0 0 0)
    by (rewrite ?zip_with_length, ?length_map; lia).
  rewrite (nth_zip_with sym_slope ls us p 0 0 0) by lia.
  rewrite (nth_map_in Qopp ls p 0) by lia.
  reflexivity.
Qed.

Lemma selected_units_ambiguous (xs ys pre pre' : list Q) (off : nat) :
  length pre = off -> length pre' = off ->
  Forall (fun p => ambiguous (nth p (pre ++ xs) 0) (nth p (pre' ++ ys) 0) = true)
    (nonzero_from off (zip_with ambiguous xs ys)).
Proof.
  revert ys pre pre' off.
  induction xs as [|x xs IH]; intros [|y ys] pre pre' off Hp Hp'; simpl;
    try constructor.
  assert (T : Forall (fun p => ambiguous (nth p (pre ++ x :: xs) 0)
                                         (nth p (pre' ++ y :: ys) 0) = true)
                (nonzero_from (S off) (zip_with ambiguous xs ys))).
  { specialize (IH ys (pre ++ [x]) (pre' ++ [y]) (S off)).
    rewrite <- !app_assoc in IH. simpl in IH. apply IH.
    - rewrite length_app; simpl; lia.
    - rewrite length_app; simpl; lia. }
  destruct (ambiguous x y) eqn:E; [constructor; [|exact T] | exact T].
  rewrite !app_nth2 by lia. subst off. rewrite Hp', Nat.sub_diag. exact E.
Qed.

(** The rows the symbolic ReLU injects: one per ambiguous unit, in storage
    order, zero except for [slope * (-lower) / 2] at the unit's column; and
    the matching owner rows, one-hot at the unit's sample. *)
Lemma sym_relu_new_rows (layer : Layer) (ix ix' : Symbolic_interval.t)
  (B n : nat) :
  sym_flat ix B n ->
  Interval_ReLU_forward layer (PySym ix) = Ok (PySym ix') ->
  let ls := data (Symbolic_interval.l ix) in
  let us := data (Symbolic_interval.u ix) in
  let units := nonzero_from 0 (zip_with ambiguous ls us) in
  exists edep' row ind,
    Symbolic_interval.edep ix' = edep' ++ [row]
    /\ Symbolic_interval.edep_ind ix' = Symbolic_interval.edep_ind ix ++ [ind]
    /\ Forall (fun p => ambiguous (nth p ls 0) (nth p us 0) = true) units
    /\ to_rows (length units) n (data row)
       = map (fun p => upd (p mod n) (appr_err_of (nth p ls 0) (nth p us 0))
                         (repeat 0 n)) units
    /\ to_rows (length units) B (data ind)
       = map (fun p => upd (p / n) 1 (repeat 0 B)) units.
Proof.
  intros Hflat H ls us units.
  destruct Hflat as (Hn & Hnn & HB & Hl & Hu & Hc & Hll & Hul & _ & _).
  destruct (sym_relu_inv layer ix ix' H)
    as (cond & mask & row & B0 & ind & c' & edep' & idep' & Hcond & Hmask & _
        & Hrow & HB0 & Hind & _ & _ & _ & ->).
  destruct (appr_cond_data _ _ _ Hcond) as [_ [_ Hcd]].
  destruct (sym_relu_mask_data _ _ _ _ (eq_trans Hll (eq_sym Hul)) Hcond Hmask)
    as [_ Hmd].
  unfold size0 in HB0. rewrite Hl in HB0. inversion HB0; subst B0; clear HB0.
  rewrite Hnn, Hcd, Hmd in Hrow. rewrite Hnn, Hcd in Hind.
  fold ls us in Hrow, Hind. fold units in Hrow, Hind.
  assert (Hcl : length (zip_with ambiguous ls us) = (B * n)%nat)
    by (rewrite zip_with_length; unfold ls, us; lia).
  assert (Hk : count_true (zip_with ambiguous ls us) = length units)
    by (unfold units; now rewrite nonzero_from_length).
  rewrite Hk in Hrow, Hind.
  pose proof (nonzero_from_range 0 (zip_with ambiguous ls us)) as Hrange.
  rewrite Hcl in Hrange. fold units in Hrange.
  exists edep', row, ind. cbn [Symbolic_interval.edep Symbolic_interval.edep_ind].
  split; [reflexivity|]. split; [reflexivity|]. split; [|split].
  - exact (selected_units_ambiguous ls us [] [] 0%nat eq_refl eq_refl).
  - destruct (scatter_zeros _ _ _ _ _ Hrow) as [_ [Hd _]]. rewrite Hd.
    rewrite scatter_rows_zip.
    2:{ now rewrite length_map. }
    2:{ rewrite masked_select_length, Hk; [reflexivity|].
        rewrite length_map, !zip_with_length, length_map. unfold ls, us. lia. }
    rewrite (masked_select_positions _ _ 0 []); [|reflexivity|].
    2:{ rewrite length_map, !zip_with_length, length_map. unfold ls, us. lia. }
    fold units. rewrite zip_with_map_same. simpl app.
    assert (Hrows : Forall (fun r : list Q => length r = n)
              (map (fun p => upd (p mod n)
                       (nth p (map (fun x => x / 2)
                          (zip_with Qmult (zip_with sym_slope ls us)
                             (map Qopp ls))) 0) (repeat 0 n)) units)).
    { apply Forall_map, Forall_forall. intros p _.
      now rewrite upd_length, repeat_length. }
    pose proof (to_rows_concat n _ Hrows) as Hc'. rewrite length_map in Hc'.
    rewrite Hc'. apply map_ext_in. intros p Hp.
    rewrite Forall_forall in Hrange. specialize (Hrange p Hp).
    rewrite nth_appr_err; [reflexivity | unfold ls, us; lia | unfold ls; lia].
  - destruct (scatter_zeros _ _ _ _ _ Hind) as [_ [Hd _]]. rewrite Hd.
    rewrite scatter_rows_zip by (now rewrite ?length_map, ?repeat_length).
    rewrite <- (map_id (repeat 1 (length units))).
    assert (Hone : forall (idx : list nat),
               zip_with (fun i v => upd i v (repeat 0 B)) idx
                        (map (fun x : Q => x) (repeat 1 (length idx)))
               = map (fun i => upd i 1 (repeat 0 B)) idx).
    { induction idx as [|i idx IH]; simpl; [reflexivity | now rewrite IH]. }
    rewrite <- (length_map (fun p => (p / n)%nat) units) at 2.
    rewrite Hone, map_map.
    assert (Hrows : Forall (fun r : list Q => length r = B)
              (map (fun p => upd (p / n) 1 (repeat 0 B)) units)).
    { apply Forall_map, Forall_forall. intros p _.
      now rewrite upd_length, repeat_length. }
    pose proof (to_rows_concat B _ Hrows) as Hc'. rewrite length_map in Hc'.
    exact Hc'.
Qed.

(** The center after the symbolic ReLU: scaled by the slope and, on an
    ambiguous unit, shifted by [slope * (-lower) / 2]. *)
Lemma sym_relu_center (layer : Layer) (ix ix' : Symbolic_interval.t)
  (B n p : nat) :
  sym_flat ix B n ->
  Interval_ReLU_forward layer (PySym ix) = Ok (PySym ix') ->
  (p < B * n)%nat -> (p < length (data (Symbolic_interval.c ix)))%nat ->
  let lo := nth p (data (Symbolic_interval.l ix)) 0 in
  let up := nth p (data (Symbolic_interval.u ix)) 0 in
  nth p (data (Symbolic_interval.c ix')) 0
  = nth p (data (Symbolic_interval.c ix)) 0 * sym_slope lo up
    + appr_err_of lo up * b2q (ambiguous lo up).
Proof.
  intros Hflat H Hp Hpc lo up.
  destruct Hflat as (Hn & Hnn & HB & Hl & Hu & Hc & Hll & Hul & _ & _).
  destruct (sym_relu_inv layer ix ix' H)
    as (cond & mask & row & B0 & ind & c' & edep' & idep' & Hcond & Hmask & _
        & _ & _ & _ & Hc' & _ & _ & ->).
  destruct (appr_cond_data _ _ _ Hcond) as [_ [_ Hcd]].
  destruct (sym_relu_mask_data _ _ _ _ (eq_trans Hll (eq_sym Hul)) Hcond Hmask)
    as [_ Hmd].
  cbn [Symbolic_interval.c]. rewrite Hc', Hmd, Hcd.
  set (ls := data (Symbolic_interval.l ix)) in *.
  set (us := data (Symbolic_interval.u ix)) in *.
  rewrite (nth_zip_with Qplus _ _ p 0 0 0)
    by (rewrite ?zip_with_length, ?length_map, ?zip_with_length, ?length_map; lia).
  rewrite (nth_zip_with Qmult (data (Symbolic_interval.c ix)) _ p 0 0 0)
    by (rewrite ?zip_with_length; lia).
  rewrite (nth_zip_with sym_slope ls us p 0 0 0) by lia.
  rewrite (nth_zip_with Qmult (map _ _) _ p 0 0 0)
    by (rewrite ?length_map, ?zip_with_length, ?length_map; lia).
  rewrite nth_appr_err by lia.
  rewrite (nth_map_in b2q _ p false) by (rewrite zip_with_length; lia).
  rewrite (nth_zip_with ambiguous ls us p 0 0 false) by lia.
  reflexivity.
Qed.

(* ------------------------------------------------------------------ *)
(** *** Existing error rows are scaled by their owner's mask *)

Lemma dot_zero_row (k : nat) (ys : list Q) : dot (repeat 0 k) ys == 0.
Proof.
  unfold dot. revert ys. induction k as [|k IH]; intros [|y ys]; simpl;
    try reflexivity.
  rewrite IH. ring.
Qed.

Lemma dot_one_hot (B b : nat) (ys : list Q) :
  (b < B)%nat -> dot (upd b 1 (repeat 0 B)) ys == nth b ys 0.
Proof.
  revert b ys. induction B as [|B IH]; intros b ys Hb; [lia|].
  destruct ys as [|y ys].
  - destruct b; reflexivity.
  - destruct b as [|b]; simpl.
    + unfold dot. simpl. fold (dot (repeat 0 B) ys).
      rewrite dot_zero_row. ring.
    + unfold dot. simpl. fold (dot (upd b 1 (repeat 0 B)) ys).
      rewrite IH by lia. ring.
Qed.

Lemma nth_column (rows : list (list Q)) (j b : nat) :
  nth b (column rows j) 0 = nth j (nth b rows []) 0.
Proof.
  unfold column. revert b. induction rows as [|r rows IH]; intros [|b]; simpl;
    auto; destruct j; reflexivity.
Qed.

(** The product of an owner matrix with the mask selects, for every row,
    the mask row of its owner. *)
Lemma owner_times_mask (ind mask t : Tensor) (B n : nat) (owners : list nat) :
  tshape ind = [length owners; B] -> tshape mask = [B; n] ->
  to_rows (length owners) B (data ind)
  = map (fun b => upd b 1 (repeat 0 B)) owners ->
  Forall (fun b => (b < B)%nat) owners ->
  t_mm ind mask = Ok t ->
  tshape t = [length owners; n]
  /\ all_eq (data t) (flat_map (mask_row mask B n) owners).
Proof.
  intros Hi Hm Hrows Hown H. unfold t_mm in H. rewrite Hi, Hm, Nat.eqb_refl in H.
  inversion H; subst t; clear H. cbn [tshape data]. split; [reflexivity|].
  rewrite Hrows. clear Hrows Hi.
  induction Hown as [|b owners Hb _ IH]; simpl; [constructor|].
  apply Forall2_app; [|exact IH].
  unfold mask_row. clear IH.
  induction (seq 0 n) as [|j js IHj]; simpl; constructor; [|exact IHj].
  rewrite dot_one_hot by exact Hb. now rewrite nth_column.
Qed.

Lemma all_eq_zip_mult (xs ys zs : list Q) :
  all_eq ys zs -> all_eq (zip_with Qmult xs ys) (zip_with Qmult xs zs).
Proof.
  intros H. revert xs. induction H as [|y z ys zs Hyz _ IH]; intros [|x xs];
    simpl; try constructor.
  - now rewrite Hyz.
  - apply IH.
Qed.

(** The loop over the existing error entries: entry [i] is multiplied,
    row by row, by the mask row of the sample that owns the row. *)
Lemma scale_edep_by_owner (edep edep_ind edep' : list Tensor) (mask : Tensor)
  (B n i : nat) (ed ind ed' : Tensor) (owners : list nat) :
  scale_edep edep edep_ind mask = Ok edep' ->
  tshape mask = [B; n] ->
  nth_error edep i = Some ed ->
  nth_error edep_ind i = Some ind ->
  nth_error edep' i = Some ed' ->
  tshape ind = [length owners; B] ->
  to_rows (length owners) B (data ind)
  = map (fun b => upd b 1 (repeat 0 B)) owners ->
  Forall (fun b => (b < B)%nat) owners ->
  tshape ed' = tshape ed
  /\ all_eq (data ed')
       (zip_with Qmult (data ed) (flat_map (mask_row mask B n) owners)).
Proof.
  intros H Hm. revert edep_ind edep' i H.
  induction edep as [|e0 edep IH]; intros edep_ind edep' i H He Hi He' Hs Hr Ho.
  - destruct i; discriminate.
  - simpl in H. destruct edep_ind as [|i0 edep_ind]; [discriminate|].
    inv_bind_as H om Hom. inv_bind_as H e0' He0. inv_bind_as H rest Hrest.
    inversion H; subst edep'; clear H.
    destruct i as [|i]; simpl in He, Hi, He'.
    + inversion He; inversion Hi; inversion He'; subst; clear He Hi He'.
      destruct (owner_times_mask ind mask om B n owners Hs Hm Hr Ho Hom)
        as [_ Heq].
      apply zipT_Ok in He0. destruct He0 as [_ ->]. simpl.
      split; [reflexivity|]. now apply all_eq_zip_mult.
    + eapply IH; eassumption.
Qed.

(** The exact dependency after the symbolic ReLU: every input row of
    sample [b] is multiplied entrywise by row [b] of the mask. *)
Lemma mul_per_sample_rows (idep mask t : Tensor) (B n n0 : nat) :
  tshape idep = [B; n0; n] ->
  mul_per_sample idep B n mask = Ok t ->
  tshape t = [B; n0; n]
  /\ data t
     = flat_map (fun r => zip_with Qmult
                            (nth r (to_rows (B * n0) n (data idep)) [])
                            (nth (r / n0)%nat (to_rows B n (data mask)) []))
         (seq 0 (B * n0)).
Proof.
  intros Hs H. unfold mul_per_sample in H. inv_bind_as H maskv Hv.
  unfold view in Hv. destruct (_ =? _)%nat; [|discriminate].
  inversion Hv; subst maskv; clear Hv. rewrite Hs in H.
  destruct (_ && _); [|discriminate]. inversion H; subst t. auto.
Qed.

(* ================================================================== *)
(** ** Entry points *)

Lemma qmin_spec (x y : Q) : qmin x y <= x /\ qmin x y <= y /\ (qmin x y = x \/ qmin x y = y).
Proof.
  unfold qmin. destruct (Qle_bool x y) eqn:E.
  - apply Qle_bool_iff in E. repeat split; auto; lra.
  - assert (~ x <= y) by (intros L; apply Qle_bool_iff in L; congruence).
    repeat split; auto; lra.
Qed.

Lemma qmax_spec (x y : Q) : x <= qmax x y /\ y <= qmax x y /\ (qmax x y = x \/ qmax x y = y).
Proof.
  unfold qmax. destruct (Qle_bool x y) eqn:E.
  - apply Qle_bool_iff in E. repeat split; auto; lra.
  - assert (~ x <= y) by (intros L; apply Qle_bool_iff in L; congruence).
    repeat split; auto; lra.
Qed.

Lemma fold_qmin_spec (rest : list Q) (x : Q) :
  fold_left qmin rest x <= x
  /\ Forall (Qle (fold_left qmin rest x)) rest
  /\ In (fold_left qmin rest x) (x :: rest).
Proof.
  revert x. induction rest as [|y rest IH]; intros x; simpl.
  - repeat split; auto; lra.
  - destruct (IH (qmin x y)) as [H1 [H2 H3]].
    destruct (qmin_spec x y) as [Hx [Hy Hc]].
    repeat split.
    + lra.
    + constructor; [lra | exact H2].
    + destruct H3 as [H3|H3]; [|auto].
      rewrite <- H3. destruct Hc as [-> | ->]; auto.
Qed.

Lemma fold_qmax_spec (rest : list Q) (x : Q) :
  x <= fold_left qmax rest x
  /\ Forall (fun v => v <= fold_left qmax rest x) rest
  /\ In (fold_left qmax rest x) (x :: rest).
Proof.
  revert x. induction rest as [|y rest IH]; intros x; simpl.
  - repeat split; auto; lra.
  - destruct (IH (qmax x y)) as [H1 [H2 H3]].
    destruct (qmax_spec x y) as [Hx [Hy Hc]].
    repeat split.
    + lra.
    + constructor; [lra | exact H2].
    + destruct H3 as [H3|H3]; [|auto].
      rewrite <- H3. destruct Hc as [-> | ->]; auto.
Qed.

Lemma min_max_spec (X : Tensor) (minimum maximum : Q) :
  t_min X = Ok minimum -> t_max X = Ok maximum ->
  In minimum (data X) /\ In maximum (data X)
  /\ Forall (fun v => minimum <= v <= maximum) (data X).
Proof.
  unfold t_min, t_max. destruct (data X) as [|x rest]; [discriminate|].
  intros Hmin Hmax. inversion Hmin; inversion Hmax; subst.
  destruct (fold_qmin_spec rest x) as [A1 [A2 A3]].
  destruct (fold_qmax_spec rest x) as [B1 [B2 B3]].
  repeat split; auto.
  constructor; [lra|].
  apply Forall_forall. intros v Hv.
  rewrite Forall_forall in A2, B2. split; auto.
Qed.

Lemma clamp1_between (lo hi v : Q) : lo <= hi -> lo <= clamp1 lo hi v <= hi.
Proof.
  intros H. unfold clamp1.
  destruct (qmax_spec v lo) as [A1 [A2 _]].
  destruct (qmin_spec (qmax v lo) hi) as [B1 [B2 [B3 | B3]]].
  - rewrite B3 in B2 |- *. split; lra.
  - rewrite B3. split; lra.
Qed.

Lemma clamp1_mono (lo hi v w : Q) : v <= w -> clamp1 lo hi v <= clamp1 lo hi w.
Proof.
  intros H. unfold clamp1.
  destruct (qmax_spec v lo) as [A1 [A2 [A3|A3]]];
  destruct (qmax_spec w lo) as [C1 [C2 [C3|C3]]];
  destruct (qmin_spec (qmax v lo) hi) as [B1 [B2 [B3|B3]]];
  destruct (qmin_spec (qmax w lo) hi) as [D1 [D2 [D3|D3]]];
  rewrite ?B3, ?D3, ?A3, ?C3 in *; lra.
Qed.

Lemma clamp_between (t : Tensor) (lo hi : Q) :
  lo <= hi -> Forall (fun v => lo <= v <= hi) (data (clamp t lo hi)).
Proof.
  intros H. simpl. apply Forall_map, Forall_forall. intros v _.
  now apply clamp1_between.
Qed.

(** For a nonnegative epsilon the initial bounds are ordered, so the
    constructors' bounds check passes. *)
Lemma initial_bounds_ordered (epsilon : Q) (X lower upper : Tensor) :
  0 <= epsilon ->
  initial_bounds epsilon X = Ok (lower, upper) ->
  tshape lower = tshape upper /\ all_le (data lower) (data upper).
Proof.
  intros He H. unfold initial_bounds in H. inv_bind H. inv_bind H.
  inversion H; subst; clear H. simpl. split; [reflexivity|].
  rewrite !map_map. induction (data X) as [|x xs IH]; simpl; constructor; auto.
  apply clamp1_mono. lra.
Qed.

Lemma argmax_from_spec (xs pre : list Q) (best_i : nat) (best : Q) :
  nth best_i pre 0 = best ->
  (best_i < length pre)%nat ->
  Forall (fun v => v <= best) pre ->
  is_argmax (pre ++ xs) (argmax_from best_i best (length pre) xs).
Proof.
  revert pre best_i best. induction xs as [|x xs IH]; intros pre best_i best Hn Hi Hall.
  - simpl. rewrite app_nil_r. unfold is_argmax. now rewrite Hn.
  - simpl. replace (pre ++ x :: xs) with ((pre ++ [x]) ++ xs)
      by (now rewrite <- app_assoc).
    replace (S (length pre)) with (length (pre ++ [x]))
      by (rewrite length_app; simpl; lia).
    destruct (Qltb best x) eqn:E.
    + replace (length pre) with (length (pre ++ [x]) - 1)%nat at 1
        by (rewrite length_app; simpl; lia).
      apply IH.
      * rewrite length_app. simpl.
        replace (length pre + 1 - 1)%nat with (length pre) by lia.
        rewrite app_nth2 by lia. now rewrite Nat.sub_diag.
      * rewrite length_app; simpl; lia.
      * apply Qltb_true in E. apply Forall_app. split.
        -- revert Hall. apply Forall_impl. intros v Hv. lra.
        -- constructor; [lra | constructor].
    + apply IH.
      * now rewrite app_nth1 by lia.
      * rewrite length_app; simpl; lia.
      * apply Qltb_false in E. apply Forall_app. split; auto.
Qed.

Lemma argmax_spec (row : list Q) : is_argmax row (argmax row).
Proof.
  destruct row as [|x xs]; [constructor|].
  apply (argmax_from_spec xs [x] 0 x); simpl; auto.
  constructor; [lra | constructor].
Qed.

Lemma predictions_spec (wc : Tensor) (pred : list nat) :
  predictions wc = Ok pred ->
  exists B K, tshape wc = [B; K] /\ (0 < K)%nat
              /\ pred = map argmax (to_rows B K (data wc))
              /\ Forall2 is_argmax (to_rows B K (data wc)) pred.
Proof.
  unfold predictions.
  destruct (tshape wc) as [|B [|K [|? ?]]]; try discriminate.
  destruct (K =? 0)%nat eqn:E; [discriminate|].
  intros H; inversion H; subst; clear H.
  exists B, K. apply Nat.eqb_neq in E. repeat split; auto; [lia|].
  induction (to_rows B K (data wc)) as [|row rows IH]; simpl; constructor; auto.
  apply argmax_spec.
Qed.

Lemma rate_spec (wrong B : nat) (r : Q) :
  rate wrong B = Ok r ->
  (0 < B)%nat /\ r = inject_Z (Z.of_nat wrong) / inject_Z (Z.of_nat B).
Proof.
  unfold rate. destruct (B =? 0)%nat eqn:E; [discriminate|].
  apply Nat.eqb_neq in E. intros H; inversion H. split; [lia | reflexivity].
Qed.

Lemma mismatches_spec (pred y : list nat) (wrong : nat) :
  mismatches pred y = Ok wrong ->
  length pred = length y
  /\ wrong = count_true (zip_with (fun p lbl => negb (p =? lbl)%nat) pred y).
Proof.
  unfold mismatches. destruct (length pred =? length y)%nat eqn:E; [|discriminate].
  apply Nat.eqb_eq in E. intros H; inversion H. auto.
Qed.

(** C8. A verification call that returns a loss and an error rate has
    clamped [X - epsilon] and [X + epsilon] to the minimum and maximum entry
    of the batch before constructing the initial domain; the loss is the
    cross-entropy of the worst-case logits against the labels, and the error
    rate is the number of samples whose first maximal worst-case logit is
    not at the true label, divided by the batch size. *)
Theorem C8_entry_points_clamp_and_score :
  forall (Loss : Type) (CE : Tensor -> list nat -> Result Loss)
         (d : Domain) (model : list Layer) (epsilon : Q) (X : Tensor)
         (y : list nat) (use_cuda : bool) (out : Stdout)
         (iloss : Loss) (ierr : Q),
    fst (interval_analyze Loss CE d model epsilon X y use_cuda out)
    = Ok (iloss, ierr) ->
    clamped_and_scored Loss CE d model epsilon X y use_cuda iloss ierr.
Proof.
  intros Loss CE d model epsilon X y use_cuda out iloss ierr H.
  unfold clamped_and_scored.
  assert (G : exists minimum maximum wc pred wrong B,
             t_min X = Ok minimum /\ t_max X = Ok maximum
             /\ worst_case_logits d model
                  (clamp (t_addc X (- epsilon)) minimum maximum)
                  (clamp (t_addc X epsilon) minimum maximum) use_cuda y = Ok wc
             /\ CE wc y = Ok iloss /\ predictions wc = Ok pred
             /\ mismatches pred y = Ok wrong /\ size0 X = Ok B
             /\ rate wrong B = Ok ierr).
  { destruct d; simpl in H.
    - unfold naive_interval_analyze in H.
      destruct (naive_interval_body Loss CE model epsilon X y use_cuda)
        as [[[l0 e0] w0]|ex] eqn:Hb; simpl in H; [|discriminate].
      inversion H; subst l0 e0; clear H.
      unfold naive_interval_body, initial_bounds in Hb.
      inv_bind_as Hb lu Hlu. inv_bind_as Hlu mn Hmn. inv_bind_as Hlu mx Hmx.
      inversion Hlu; subst lu; clear Hlu. simpl in Hb.
      inv_bind_as Hb ix Hix. inv_bind_as Hb res Hres.
      destruct res as [ | ix' | | ]; try discriminate.
      inv_bind_as Hb wc Hwc. inv_bind_as Hb lossv Hloss.
      inv_bind_as Hb prd Hpred. inv_bind_as Hb wrong Hwrong.
      inv_bind_as Hb B HB. inv_bind_as Hb r Hr.
      inversion Hb; subst; clear Hb.
      exists mn, mx, wc, prd, wrong, B. repeat split; auto.
      simpl. rewrite Hix. simpl. rewrite Hres. exact Hwc.
    - unfold sym_interval_analyze in H. simpl in H.
      unfold initial_bounds in H.
      inv_bind_as H lu Hlu. inv_bind_as Hlu mn Hmn. inv_bind_as Hlu mx Hmx.
      inversion Hlu; subst lu; clear Hlu. simpl in H.
      inv_bind_as H ix Hix. inv_bind_as H res Hres.
      destruct res as [ ix' | | | ]; try discriminate.
      inv_bind_as H k Hk. inv_bind_as H wc Hwc. inv_bind_as H lossv Hloss.
      inv_bind_as H prd Hpred. inv_bind_as H wrong Hwrong.
      inv_bind_as H B HB. inv_bind_as H r Hr.
      inversion H; subst; clear H.
      exists mn, mx, wc, prd, wrong, B. repeat split; auto.
      simpl. rewrite Hix. simpl. rewrite Hres. simpl. rewrite Hk. exact Hwc. }
  destruct G as [minimum [maximum [wc [pred [wrong [B G]]]]]].
  destruct G as [Hmin [Hmax [Hwc [Hce [Hpred [Hmis [HB Hrate]]]]]]].
  destruct (min_max_spec X minimum maximum Hmin Hmax) as [Imin [Imax Hall]].
  assert (Hle : minimum <= maximum).
  { rewrite Forall_forall in Hall. destruct (Hall _ Imin). lra. }
  destruct (predictions_spec wc pred Hpred) as [Bw [K [Hs [_ [_ Harg]]]]].
  destruct (mismatches_spec pred y wrong Hmis) as [Hlen Hwrong].
  destruct (rate_spec wrong B ierr Hrate) as [HBpos Hr].
  exists minimum, maximum, wc, pred, wrong, B.
  repeat split; auto using clamp_between.
  exists Bw, K. auto.
Qed.

(** The scenario network on the batch [[1, 0]] with epsilon 1/4, label 0,
    in both domains. *)
Lemma C8_witness :
  (fst (interval_analyze unit ex_CE BoxDomain ex_model (1 # 4) ex_X [0%nat]
          false [])
   = Ok (tt, ex_rate BoxDomain)
   /\ clamped_and_scored unit ex_CE BoxDomain ex_model (1 # 4) ex_X [0%nat]
        false tt (ex_rate BoxDomain))
  /\ (fst (interval_analyze unit ex_CE SymbolicDomain ex_model (1 # 4) ex_X
             [0%nat] false [])
      = Ok (tt, ex_rate SymbolicDomain)
      /\ clamped_and_scored unit ex_CE SymbolicDomain ex_model (1 # 4) ex_X
           [0%nat] false tt (ex_rate SymbolicDomain)).
Proof.
  split; (split; [vm_compute; reflexivity|]).
  - apply (C8_entry_points_clamp_and_score unit ex_CE BoxDomain ex_model
             (1 # 4) ex_X [0%nat] false [] tt (ex_rate BoxDomain)).
    vm_compute; reflexivity.
  - apply (C8_entry_points_clamp_and_score unit ex_CE SymbolicDomain ex_model
             (1 # 4) ex_X [0%nat] false [] tt (ex_rate SymbolicDomain)).
    vm_compute; reflexivity.
Defined.

(* ================================================================== *)
(** ** The driver *)

Lemma add_layer_transfer (net : list IntervalLayer) (layer : Layer) :
  add_layer net layer = net ++ transfer_of layer.
Proof.
  unfold add_layer, transfer_of, is_Linear, is_ReLU, is_Conv2d, name_has_Flatten.
  destruct (layer_class layer) as [ | | | name]; simpl;
    try reflexivity.
  destruct (contains_Flatten name); [reflexivity | now rewrite app_nil_r].
Qed.

Lemma fold_add_layer (model : list Layer) (net : list IntervalLayer) :
  fold_left add_layer model net = net ++ flat_map transfer_of model.
Proof.
  revert net. induction model as [|layer model IH]; intros net; simpl.
  - now rewrite app_nil_r.
  - rewrite IH, add_layer_transfer, <- app_assoc. reflexivity.
Qed.

Lemma Interval_network_flat_map (model : list Layer) :
  Interval_network model = flat_map transfer_of model.
Proof.
  unfold Interval_network. now rewrite fold_add_layer.
Qed.

Lemma forward_as_fold (net : list IntervalLayer) (r : Result PyObj) :
  bind r (Interval_network_forward net)
  = fold_left (fun acc f => bind acc (call_layer f)) net r.
Proof.
  revert r. induction net as [|f net IH]; intros r; simpl.
  - destruct r; reflexivity.
  - rewrite <- IH. destruct r as [ix|ex]; simpl; reflexivity.
Qed.

(** C7. The driver is built layer by layer in model order: a Linear, ReLU
    or Conv2d layer contributes exactly its one transfer function, a layer
    of any other class contributes [Interval_Flatten] when its class name
    contains Flatten and nothing at all otherwise (no error is raised);
    the forward pass threads the domain through the transfer functions in
    list order and returns the last result. *)
Theorem C7_driver_builds_and_runs_in_order :
  forall (model1 model2 : list Layer) (W : Tensor) (b : option Tensor)
         (s p : nat * nat) (o : nat) (name : string)
         (net : list IntervalLayer) (ix : PyObj),
    Interval_network (model1 ++ model2)
    = Interval_network model1 ++ Interval_network model2
    /\ Interval_network [mkLayer nn_Linear W b s p o]
       = [Interval_Dense (mkLayer nn_Linear W b s p o)]
    /\ Interval_network [mkLayer nn_ReLU W b s p o]
       = [Interval_ReLU (mkLayer nn_ReLU W b s p o)]
    /\ Interval_network [mkLayer nn_Conv2d W b s p o]
       = [Interval_Conv2d (mkLayer nn_Conv2d W b s p o)]
    /\ Interval_network [mkLayer (OtherClass name) W b s p o]
       = (if contains_Flatten name then [Interval_Flatten] else [])
    /\ Interval_network_forward net ix
       = fold_left (fun acc f => bind acc (call_layer f)) net (Ok ix).
Proof.
  intros model1 model2 W b s p o name net ix.
  split; [now rewrite !Interval_network_flat_map, flat_map_app|].
  split; [reflexivity|]. split; [reflexivity|]. split; [reflexivity|].
  split.
  - unfold Interval_network, add_layer, name_has_Flatten; simpl.
    destruct (contains_Flatten name); reflexivity.
  - exact (forward_as_fold net (Ok ix)).
Qed.

(* ================================================================== *)
(** ** Inputs that are no interval *)

(** C10. Handed an object that is neither an [Interval] nor a
    [Symbolic_interval] ([None] included), every transfer function returns
    [None] without raising, and a driver with at least one transfer function
    returns [None]: each later layer receives [None] and returns it. *)
Theorem C10_non_interval_input_yields_None :
  forall (f : IntervalLayer) (net : list IntervalLayer) (type_name : string),
    call_layer f (PyOther type_name) = Ok PyNone
    /\ call_layer f PyNone = Ok PyNone
    /\ Interval_network_forward (f :: net) (PyOther type_name) = Ok PyNone
    /\ Interval_network_forward (f :: net) PyNone = Ok PyNone.
Proof.
  intros f net type_name.
  assert (HN : forall g, call_layer g PyNone = Ok PyNone)
    by (intros [ | | | ]; reflexivity).
  assert (HO : call_layer f (PyOther type_name) = Ok PyNone)
    by (destruct f; reflexivity).
  assert (HF : forall net', Interval_network_forward net' PyNone = Ok PyNone).
  { induction net' as [|g net' IH]; simpl; [reflexivity|].
    rewrite HN. simpl. exact IH. }
  repeat split.
  - exact HO.
  - apply HN.
  - simpl. rewrite HO. simpl. apply HF.
  - apply (HF (f :: net)).
Qed.

(* ================================================================== *)
(** ** Stored boxes *)

Ltac concrete_le := repeat constructor; vm_compute; discriminate.

Lemma store_fields (lower upper : Tensor) (masks : list Tensor) (cuda : bool)
  (ix : Interval.t) :
  Interval.store lower upper masks cuda = Ok ix ->
  Interval.l ix = lower /\ Interval.u ix = upper
  /\ Interval.mask ix = masks /\ Interval.use_cuda ix = cuda
  /\ tshape lower = tshape upper
  /\ Interval.c ix
     = t_divc (mkT (tshape lower) (zip_with Qplus (data lower) (data upper))) 2
  /\ Interval.e ix
     = t_divc (mkT (tshape upper) (zip_with Qminus (data upper) (data lower))) 2.
Proof.
  unfold Interval.store. intros H. inv_bind_as H ok Hok.
  apply zipT_Ok in Hok. destruct Hok as [Hs _].
  destruct (forallb _ _); [|discriminate].
  inv_bind_as H s Hsum. inv_bind_as H d Hdiff.
  apply zipT_Ok in Hsum. destruct Hsum as [_ ->].
  apply zipT_Ok in Hdiff. destruct Hdiff as [_ ->].
  inversion H; subst ix. simpl. repeat split; auto.
Qed.

Lemma store_stored (lower upper : Tensor) (masks : list Tensor) (cuda : bool)
  (ix : Interval.t) :
  Interval.store lower upper masks cuda = Ok ix -> stored ix.
Proof.
  intros H. unfold stored.
  destruct (store_fields _ _ _ _ _ H) as (-> & -> & -> & -> & _). exact H.
Qed.

Lemma view_neg_Ok {A : Type} (t t' : tensor A) (pre post : list nat) :
  view_neg t pre post = Ok t' ->
  data t' = data t
  /\ tshape t'
     = pre ++ (numel (tshape t) / (numel pre * numel post))%nat :: post.
Proof.
  unfold view_neg. destruct (_ =? 0)%nat; [discriminate|].
  destruct (_ =? 0)%nat; [|discriminate].
  intros H; inversion H; subst t'. auto.
Qed.


(* ================================================================== *)
(** ** The driver, the initial bounds and the box transfer functions *)

(** X2. The driver keeps the domain: on a box every transfer function that
    returns gives a box, on a symbolic interval a symbolic interval, so the
    driver never turns one domain into the other or into [None]. *)
Theorem X2_driver_keeps_domain :
  forall (net : list IntervalLayer) (ix out : PyObj),
    is_interval ix ->
    Interval_network_forward net ix = Ok out ->
    same_kind ix out.
Proof.
  assert (L : forall f ix out,
             is_interval ix ->
             call_layer f ix = Ok out ->
             same_kind ix out /\ is_interval out).
  { intros f ix out Hk H.
    destruct ix as [sx|bx| | ]; try contradiction;
      destruct f as [layer|layer|layer| ]; simpl in H.
    - inv_bind_as H a1 H1. inv_bind_as H a2 H2. inv_bind_as H a3 H3.
      inv_bind_as H a4 H4. inversion H; simpl; auto.
    - repeat (let a := fresh "a" in let Ha := fresh "Ha" in
              inv_bind_as H a Ha). inversion H; simpl; auto.
    - repeat (let a := fresh "a" in let Ha := fresh "Ha" in
              inv_bind_as H a Ha). inversion H; simpl; auto.
    - inv_bind_as H a1 H1. inversion H; simpl; auto.
    - repeat (let a := fresh "a" in let Ha := fresh "Ha" in
              inv_bind_as H a Ha). inversion H; simpl; auto.
    - inv_bind_as H a1 H1. inv_bind_as H a2 H2. inversion H; simpl; auto.
    - repeat (let a := fresh "a" in let Ha := fresh "Ha" in
              inv_bind_as H a Ha). inversion H; simpl; auto.
    - repeat (let a := fresh "a" in let Ha := fresh "Ha" in
              inv_bind_as H a Ha). inversion H; simpl; auto. }
  induction net as [|f net IH]; intros ix out Hk H; simpl in H.
  - inversion H; subst. destruct out; simpl in *; auto.
  - inv_bind_as H mid Hmid. destruct (L f ix mid Hk Hmid) as [S1 K1].
    specialize (IH mid out K1 H).
    destruct ix, mid, out; simpl in *; auto.
Qed.

Lemma X2_witness :
  is_interval (PyBox ex_box_X)
  /\ Interval_network_forward ex_net (PyBox ex_box_X) = Ok (PyBox ex_box_X_out)
  /\ same_kind (PyBox ex_box_X) (PyBox ex_box_X_out).
Proof.
  split; [exact I|]. split; [vm_compute; reflexivity|].
  apply (X2_driver_keeps_domain ex_net (PyBox ex_box_X) (PyBox ex_box_X_out)).
  - exact I.
  - vm_compute; reflexivity.
Defined.

Lemma clamp1_ball (mn mx epsilon x : Q) :
  0 <= epsilon -> mn <= x <= mx ->
  clamped_ball epsilon (clamp1 mn mx (x + - epsilon)) x (clamp1 mn mx (x + epsilon)).
Proof.
  intros He [H1 H2]. unfold clamped_ball, clamp1.
  destruct (qmax_spec (x + - epsilon) mn) as (A1 & A2 & A3).
  destruct (qmin_spec (qmax (x + - epsilon) mn) mx) as (B1 & B2 & B3).
  destruct (qmax_spec (x + epsilon) mn) as (C1 & C2 & C3).
  destruct (qmin_spec (qmax (x + epsilon) mn) mx) as (D1 & D2 & D3).
  assert (A4 : qmax (x + - epsilon) mn <= x)
    by (destruct A3 as [E|E]; rewrite E; lra).
  assert (C4 : qmax (x + epsilon) mn <= x + epsilon)
    by (destruct C3 as [E|E]; rewrite E; lra).
  repeat split.
  - destruct B3 as [E|E]; rewrite E; lra.
  - lra.
  - destruct D3 as [E|E]; rewrite E; lra.
  - lra.
Qed.

Lemma clamped_ball_encloses (epsilon : Q) (los xs ups : list Q) :
  pointwise3 (clamped_ball epsilon) los xs ups ->
  all_le los xs /\ all_le xs ups.
Proof.
  induction 1 as [|lo x up los xs ups (_ & A & B & _) _ [I1 I2]];
    split; constructor; auto.
Qed.

(** X3. For a nonnegative epsilon the initial bounds of both entry points
    enclose the batch itself and stay within epsilon of it, entry by entry,
    and have the size of the batch: clamping to the extremes of the batch
    never cuts a nominal input off. *)
Theorem X3_initial_bounds_enclose_batch :
  forall (epsilon : Q) (X lower upper : Tensor),
    0 <= epsilon ->
    initial_bounds epsilon X = Ok (lower, upper) ->
    tshape lower = tshape X /\ tshape upper = tshape X
    /\ pointwise3 (clamped_ball epsilon) (data lower) (data X) (data upper)
    /\ within lower upper X.
Proof.
  intros epsilon X lower upper He H.
  unfold initial_bounds in H. inv_bind_as H mn Hmn. inv_bind_as H mx Hmx.
  inversion H; subst lower upper; clear H.
  destruct (min_max_spec X mn mx Hmn Hmx) as (_ & _ & Hall).
  assert (P : pointwise3 (clamped_ball epsilon)
                (map (clamp1 mn mx) (map (fun v => v + - epsilon) (data X)))
                (data X)
                (map (clamp1 mn mx) (map (fun v => v + epsilon) (data X)))).
  { induction Hall as [|x xs Hx _ IH]; simpl; constructor; auto.
    now apply clamp1_ball. }
  split; [reflexivity|]. split; [reflexivity|]. split; [exact P|].
  unfold within. simpl. split; [reflexivity|].
  exact (clamped_ball_encloses _ _ _ _ P).
Qed.

Lemma quarter_nonneg : 0 <= 1 # 4.
Proof. vm_compute; discriminate. Qed.

Lemma X3_witness :
  0 <= 1 # 4
  /\ initial_bounds (1 # 4) ex_X = Ok (fst ex_bounds, snd ex_bounds)
  /\ tshape (fst ex_bounds) = tshape ex_X
  /\ tshape (snd ex_bounds) = tshape ex_X
  /\ pointwise3 (clamped_ball (1 # 4)) (data (fst ex_bounds)) (data ex_X)
       (data (snd ex_bounds))
  /\ within (fst ex_bounds) (snd ex_bounds) ex_X.
Proof.
  split; [exact quarter_nonneg|]. split; [vm_compute; reflexivity|].
  apply (X3_initial_bounds_enclose_batch (1 # 4) ex_X (fst ex_bounds)
           (snd ex_bounds) quarter_nonneg).
  vm_compute; reflexivity.
Defined.

(** X4. On an empty batch both entry points raise at [X.min()], before any
    domain is built, and print nothing. *)
Theorem X4_empty_batch_raises :
  forall (Loss : Type) (CE : Tensor -> list nat -> Result Loss) (d : Domain)
         (model : list Layer) (epsilon : Q) (X : Tensor) (y : list nat)
         (use_cuda : bool) (out : Stdout),
    data X = [] ->
    interval_analyze Loss CE d model epsilon X y use_cuda out
    = (Raise RuntimeError, out).
Proof.
  intros Loss CE d model epsilon X y use_cuda out HX.
  destruct d; simpl.
  - unfold naive_interval_analyze, naive_interval_body, initial_bounds, t_min.
    rewrite HX. reflexivity.
  - unfold sym_interval_analyze, initial_bounds, t_min. rewrite HX. reflexivity.
Qed.

Lemma X4_witness :
  data ex_empty_X = []
  /\ interval_analyze unit ex_CE BoxDomain ex_model (1 # 4) ex_empty_X [] false []
     = (Raise RuntimeError, [])
  /\ interval_analyze unit ex_CE SymbolicDomain ex_model (1 # 4) ex_empty_X []
       false []
     = (Raise RuntimeError, []).
Proof.
  split; [reflexivity|]. split.
  - apply (X4_empty_batch_raises unit ex_CE BoxDomain ex_model (1 # 4)
             ex_empty_X [] false []).
    reflexivity.
  - apply (X4_empty_batch_raises unit ex_CE SymbolicDomain ex_model (1 # 4)
             ex_empty_X [] false []).
    reflexivity.
Defined.

Lemma numel_cons (b : nat) (rest : list nat) :
  numel (b :: rest) = (b * numel rest)%nat.
Proof. reflexivity. Qed.

Lemma view_batch_Ok {A : Type} (t : tensor A) (B : nat) (rest : list nat) :
  tshape t = B :: rest -> (0 < B)%nat ->
  view_neg t [B] [] = Ok (mkT [B; numel rest] (data t)).
Proof.
  intros Hs HB. unfold view_neg. rewrite Hs, (numel_cons B rest).
  replace (numel [B] * numel [])%nat with B by (unfold numel; simpl; lia).
  destruct (B =? 0)%nat eqn:E; [apply Nat.eqb_eq in E; lia|].
  rewrite (Nat.mul_comm B (numel rest)), Nat.Div0.mod_mul, Nat.div_mul by lia.
  reflexivity.
Qed.

(** X5. On a box with ordered bounds and a nonempty batch the Flatten
    transfer function always returns: the bounds keep their storage and get
    the size (batch, units per sample); the masks are kept. *)
Theorem X5_box_flatten_keeps_bounds :
  forall (ix : Interval.t) (B : nat) (rest : list nat),
    box_ok ix ->
    tshape (Interval.l ix) = B :: rest -> (0 < B)%nat ->
    exists ix',
      Interval_Flatten_forward (PyBox ix) = Ok (PyBox ix')
      /\ Interval.l ix' = mkT [B; numel rest] (data (Interval.l ix))
      /\ Interval.u ix' = mkT [B; numel rest] (data (Interval.u ix))
      /\ Interval.mask ix' = Interval.mask ix.
Proof.
  intros ix B rest [Hs Hle] Hl HB. simpl.
  unfold size0. rewrite <- Hs, Hl. simpl.
  rewrite (view_batch_Ok (Interval.l ix) B rest Hl HB). simpl.
  rewrite (view_batch_Ok (Interval.u ix) B rest (eq_trans (eq_sym Hs) Hl) HB).
  simpl. unfold Interval.update_lu.
  rewrite store_Ok by (simpl; auto). simpl.
  eexists. repeat split; reflexivity.
Qed.

Lemma ex_box_image_ok : box_ok ex_box_image.
Proof.
  split; [reflexivity|]. concrete_le.
Qed.

(** The 2x2 image of one channel becomes one row of four units. *)
Lemma X5_witness :
  box_ok ex_box_image
  /\ tshape (Interval.l ex_box_image) = [1; 1; 2; 2]%nat
  /\ (0 < 1)%nat
  /\ exists ix',
       Interval_Flatten_forward (PyBox ex_box_image) = Ok (PyBox ix')
       /\ Interval.l ix' = mkT [1; 4]%nat (data (Interval.l ex_box_image))
       /\ Interval.u ix' = mkT [1; 4]%nat (data (Interval.u ex_box_image))
       /\ Interval.mask ix' = Interval.mask ex_box_image.
Proof.
  split; [exact ex_box_image_ok|]. split; [reflexivity|]. split; [lia|].
  apply (X5_box_flatten_keeps_bounds ex_box_image 1 [1; 2; 2]%nat
           ex_box_image_ok).
  - reflexivity.
  - lia.
Defined.

Lemma relu1_nonneg (x : Q) : 0 <= relu1 x.
Proof.
  unfold relu1. destruct (Qle_bool 0 x) eqn:E; [now apply Qle_bool_iff | lra].
Qed.

Lemma relu1_fixed (x : Q) : relu1 (relu1 x) = relu1 x.
Proof.
  unfold relu1 at 2 3. destruct (Qle_bool 0 x) eqn:E.
  - unfold relu1. now rewrite E.
  - reflexivity.
Qed.

Lemma no_unit_ambiguous_after_relu (ls us : list Q) :
  count_true (zip_with ambiguous (map relu1 ls) (map relu1 us)) = 0%nat.
Proof.
  unfold count_true. revert us.
  induction ls as [|x ls IH]; intros [|y us]; simpl; auto.
  assert (E : ambiguous (relu1 x) (relu1 y) = false).
  { unfold ambiguous. rewrite (proj2 (Qltb_false (relu1 x) 0) (relu1_nonneg x)).
    reflexivity. }
  rewrite E. apply IH.
Qed.

Lemma t_relu_fixed (t : Tensor) : t_relu (t_relu t) = t_relu t.
Proof.
  unfold t_relu, mapT. simpl. f_equal. rewrite map_map.
  apply map_ext. intros x. apply relu1_fixed.
Qed.

(** X6. After the box ReLU every bound is nonnegative and no unit is
    ambiguous any more; a second ReLU returns the same bounds. *)
Theorem X6_box_relu_bounds_nonnegative :
  forall (layer layer2 : Layer) (ix : Interval.t),
    box_ok ix ->
    exists ix' ix'',
      Interval_ReLU_forward layer (PyBox ix) = Ok (PyBox ix')
      /\ nonneg (data (Interval.l ix')) /\ nonneg (data (Interval.u ix'))
      /\ count_ambiguous (Interval.l ix') (Interval.u ix') = 0%nat
      /\ Interval_ReLU_forward layer2 (PyBox ix') = Ok (PyBox ix'')
      /\ Interval.l ix'' = Interval.l ix'
      /\ Interval.u ix'' = Interval.u ix'.
Proof.
  intros layer layer2 ix Hok.
  destruct (box_relu_mask_Ok _ _ (proj1 Hok) (proj2 Hok)) as [mask Hm].
  destruct (box_relu_forward_Ok layer ix mask Hok Hm) as (ix' & Hf & Hl & Hu & _).
  assert (Hok' : box_ok ix').
  { destruct Hok as [Hs Hle]. split; rewrite Hl, Hu; simpl;
      [exact Hs | now apply relu_all_le]. }
  destruct (box_relu_mask_Ok _ _ (proj1 Hok') (proj2 Hok')) as [mask' Hm'].
  destruct (box_relu_forward_Ok layer2 ix' mask' Hok' Hm')
    as (ix'' & Hf' & Hl' & Hu' & _).
  exists ix', ix''. split; [exact Hf|].
  split; [rewrite Hl; simpl; apply Forall_map, Forall_forall; intros;
          apply relu1_nonneg|].
  split; [rewrite Hu; simpl; apply Forall_map, Forall_forall; intros;
          apply relu1_nonneg|].
  split; [unfold count_ambiguous; rewrite Hl, Hu; simpl;
          apply no_unit_ambiguous_after_relu|].
  split; [exact Hf'|].
  rewrite Hl', Hu', Hl, Hu. split; apply t_relu_fixed.
Qed.

Lemma X6_witness :
  box_ok ex_box
  /\ exists ix' ix'',
       Interval_ReLU_forward ex_relu_layer (PyBox ex_box) = Ok (PyBox ix')
       /\ nonneg (data (Interval.l ix')) /\ nonneg (data (Interval.u ix'))
       /\ count_ambiguous (Interval.l ix') (Interval.u ix') = 0%nat
       /\ Interval_ReLU_forward ex_relu_layer (PyBox ix') = Ok (PyBox ix'')
       /\ Interval.l ix'' = Interval.l ix'
       /\ Interval.u ix'' = Interval.u ix'.
Proof.
  split; [exact ex_box_ok|].
  apply (X6_box_relu_bounds_nonnegative ex_relu_layer ex_relu_layer ex_box).
  exact ex_box_ok.
Defined.

(* ================================================================== *)
(** ** The relaxation of the symbolic ReLU *)

(** X9. The symbolic ReLU returns on every flattened symbolic interval,
    and it leaves the concretized bounds and the bookkeeping (shape, units
    per sample, batch size) as they were: the bounds are not recomputed
    here. *)
Theorem X9_symbolic_relu_returns_with_stale_bounds :
  forall (layer : Layer) (ix : Symbolic_interval.t) (B n : nat),
    sym_flat ix B n ->
    exists ix',
      Interval_ReLU_forward layer (PySym ix) = Ok (PySym ix')
      /\ Symbolic_interval.l ix' = Symbolic_interval.l ix
      /\ Symbolic_interval.u ix' = Symbolic_interval.u ix
      /\ Symbolic_interval.shape ix' = Symbolic_interval.shape ix
      /\ Symbolic_interval.n ix' = n
      /\ Symbolic_interval.batch_size ix' = B.
Proof.
  intros layer ix B n Hflat.
  destruct (sym_relu_returns layer ix B n Hflat) as [ix' H].
  exists ix'. split; [exact H|].
  destruct Hflat as (_ & Hn & HB & _).
  destruct (sym_relu_inv layer ix ix' H)
    as (cond & mask & row & B0 & ind & c' & edep' & idep' & _ & _ & _ & _ & _
        & _ & _ & _ & _ & ->).
  simpl. auto.
Qed.

Lemma ex_sym_batch_flat : sym_flat ex_sym_batch 2 2.
Proof.
  unfold sym_flat. simpl.
  repeat (split; [reflexivity || lia|]).
  split; [exists 1%nat; reflexivity|].
  repeat constructor. exists 1%nat. split; reflexivity.
Qed.

Lemma X9_witness :
  sym_flat ex_sym_batch 2 2
  /\ exists ix',
       Interval_ReLU_forward ex_relu_layer (PySym ex_sym_batch) = Ok (PySym ix')
       /\ Symbolic_interval.l ix' = Symbolic_interval.l ex_sym_batch
       /\ Symbolic_interval.u ix' = Symbolic_interval.u ex_sym_batch
       /\ Symbolic_interval.shape ix' = Symbolic_interval.shape ex_sym_batch
       /\ Symbolic_interval.n ix' = 2%nat
       /\ Symbolic_interval.batch_size ix' = 2%nat.
Proof.
  split; [exact ex_sym_batch_flat|].
  apply (X9_symbolic_relu_returns_with_stale_bounds ex_relu_layer ex_sym_batch
           2 2 ex_sym_batch_flat).
Defined.

(** X10. The rows the symbolic ReLU injects on a flattened interval: one
    per ambiguous unit, in storage order, zero except for
    [slope * (-lower) / 2] at the unit's column; the matching owner rows are
    one-hot at the unit's sample. *)
Theorem X10_symbolic_relu_injected_rows :
  forall (layer : Layer) (ix ix' : Symbolic_interval.t) (B n : nat),
    sym_flat ix B n ->
    Interval_ReLU_forward layer (PySym ix) = Ok (PySym ix') ->
    let ls := data (Symbolic_interval.l ix) in
    let us := data (Symbolic_interval.u ix) in
    let units := nonzero_from 0 (zip_with ambiguous ls us) in
    exists edep' row ind,
      Symbolic_interval.edep ix' = edep' ++ [row]
      /\ Symbolic_interval.edep_ind ix' = Symbolic_interval.edep_ind ix ++ [ind]
      /\ Forall (fun p => ambiguous (nth p ls 0) (nth p us 0) = true) units
      /\ to_rows (length units) n (data row)
         = map (fun p => upd (p mod n) (appr_err_of (nth p ls 0) (nth p us 0))
                           (repeat 0 n)) units
      /\ to_rows (length units) B (data ind)
         = map (fun p => upd (p / n) 1 (repeat 0 B)) units.
Proof.
  intros layer ix ix' B n Hflat H. exact (sym_relu_new_rows layer ix ix' B n Hflat H).
Qed.

(** Two samples of two units, units (0,0) and (1,0) ambiguous: two rows. *)
Lemma X10_witness :
  sym_flat ex_sym_batch 2 2
  /\ Interval_ReLU_forward ex_relu_layer (PySym ex_sym_batch)
     = Ok (PySym ex_sym_batch_relu)
  /\ let ls := data (Symbolic_interval.l ex_sym_batch) in
     let us := data (Symbolic_interval.u ex_sym_batch) in
     let units := nonzero_from 0 (zip_with ambiguous ls us) in
     exists edep' row ind,
       Symbolic_interval.edep ex_sym_batch_relu = edep' ++ [row]
       /\ Symbolic_interval.edep_ind ex_sym_batch_relu
          = Symbolic_interval.edep_ind ex_sym_batch ++ [ind]
       /\ Forall (fun p => ambiguous (nth p ls 0) (nth p us 0) = true) units
       /\ to_rows (length units) 2 (data row)
          = map (fun p => upd (p mod 2) (appr_err_of (nth p ls 0) (nth p us 0))
                            (repeat 0 2)) units
       /\ to_rows (length units) 2 (data ind)
          = map (fun p => upd (p / 2) 1 (repeat 0 2)) units.
Proof.
  split; [exact ex_sym_batch_flat|]. split; [vm_compute; reflexivity|].
  apply (X10_symbolic_relu_injected_rows ex_relu_layer ex_sym_batch
           ex_sym_batch_relu 2 2 ex_sym_batch_flat).
  vm_compute; reflexivity.
Defined.

(** X11. The center after the symbolic ReLU on a flattened interval: every
    entry is multiplied by the slope of its unit and, on an ambiguous unit,
    shifted by [slope * (-lower) / 2]. *)
Theorem X11_symbolic_relu_center :
  forall (layer : Layer) (ix ix' : Symbolic_interval.t) (B n p : nat),
    sym_flat ix B n ->
    Interval_ReLU_forward layer (PySym ix) = Ok (PySym ix') ->
    (p < B * n)%nat -> (p < length (data (Symbolic_interval.c ix)))%nat ->
    nth p (data (Symbolic_interval.c ix')) 0
    = nth p (data (Symbolic_interval.c ix)) 0
      * sym_slope (nth p (data (Symbolic_interval.l ix)) 0)
                  (nth p (data (Symbolic_interval.u ix)) 0)
      + relu_shift (nth p (data (Symbolic_interval.l ix)) 0)
                   (nth p (data (Symbolic_interval.u ix)) 0).
Proof.
  intros layer ix ix' B n p Hflat H Hp Hpc.
  exact (sym_relu_center layer ix ix' B n p Hflat H Hp Hpc).
Qed.

Lemma X11_witness :
  sym_flat ex_sym_batch 2 2
  /\ Interval_ReLU_forward ex_relu_layer (PySym ex_sym_batch)
     = Ok (PySym ex_sym_batch_relu)
  /\ (2 < 2 * 2)%nat
  /\ (2 < length (data (Symbolic_interval.c ex_sym_batch)))%nat
  /\ nth 2 (data (Symbolic_interval.c ex_sym_batch_relu)) 0
     = nth 2 (data (Symbolic_interval.c ex_sym_batch)) 0
       * sym_slope (nth 2 (data (Symbolic_interval.l ex_sym_batch)) 0)
                   (nth 2 (data (Symbolic_interval.u ex_sym_batch)) 0)
       + relu_shift (nth 2 (data (Symbolic_interval.l ex_sym_batch)) 0)
                    (nth 2 (data (Symbolic_interval.u ex_sym_batch)) 0).
Proof.
  split; [exact ex_sym_batch_flat|]. split; [vm_compute; reflexivity|].
  split; [simpl; lia|]. split; [simpl; lia|].
  apply (X11_symbolic_relu_center ex_relu_layer ex_sym_batch ex_sym_batch_relu
           2 2 2 ex_sym_batch_flat).
  - vm_compute; reflexivity.
  - simpl; lia.
  - simpl; lia.
Defined.

(** X12. The dependencies after the symbolic ReLU on a flattened interval:
    an existing error entry whose rows are owned by the samples [owners] is
    multiplied, row by row, by the slopes of the owning sample, and the exact
    dependency of sample [b] by the slopes of sample [b]. *)
Theorem X12_symbolic_relu_scales_dependencies :
  forall (layer : Layer) (ix ix' : Symbolic_interval.t) (B n n0 i : nat)
         (ed ind : Tensor) (owners : list nat),
    sym_flat ix B n ->
    Interval_ReLU_forward layer (PySym ix) = Ok (PySym ix') ->
    tshape (Symbolic_interval.idep ix) = [B; n0; n] ->
    nth_error (Symbolic_interval.edep ix) i = Some ed ->
    nth_error (Symbolic_interval.edep_ind ix) i = Some ind ->
    tshape ind = [length owners; B] ->
    to_rows (length owners) B (data ind)
    = map (fun b => upd b 1 (repeat 0 B)) owners ->
    Forall (fun b => (b < B)%nat) owners ->
    let slopes := mkT [B; n] (zip_with sym_slope (data (Symbolic_interval.l ix))
                                                 (data (Symbolic_interval.u ix))) in
    (exists ed',
       nth_error (Symbolic_interval.edep ix') i = Some ed'
       /\ tshape ed' = tshape ed
       /\ all_eq (data ed')
            (zip_with Qmult (data ed) (flat_map (mask_row slopes B n) owners)))
    /\ tshape (Symbolic_interval.idep ix') = [B; n0; n]
    /\ data (Symbolic_interval.idep ix')
       = flat_map (fun r => zip_with Qmult
                    (nth r (to_rows (B * n0) n (data (Symbolic_interval.idep ix))) [])
                    (nth (r / n0)%nat (to_rows B n (data slopes)) []))
           (seq 0 (B * n0)).
Proof.
  intros layer ix ix' B n n0 i ed ind owners Hflat H Hidep He Hi Hs Hr Ho slopes.
  destruct (sym_relu_inv layer ix ix' H)
    as (cond & mask & row & B0 & ind0 & c' & edep' & idep' & Hcond & Hmask & _
        & _ & _ & _ & _ & Hscale & Hmul & ->).
  destruct Hflat as (Hn & Hnn & HB & Hl & Hu & Hc & Hll & Hul & _ & _).
  destruct (sym_relu_mask_data _ _ _ _ (eq_trans Hll (eq_sym Hul)) Hcond Hmask)
    as [Hms Hmd].
  assert (Em : mask = slopes).
  { destruct mask as [ms md]. simpl in Hms, Hmd. unfold slopes.
    rewrite Hms, Hmd, Hl. reflexivity. }
  subst mask. cbn [Symbolic_interval.edep Symbolic_interval.idep].
  split.
  - pose proof (scale_edep_length _ _ _ _ Hscale) as Hlen.
    assert (Hlt : (i < length edep')%nat).
    { rewrite Hlen. apply nth_error_Some. congruence. }
    destruct (nth_error edep' i) as [ed'|] eqn:E;
      [|apply nth_error_None in E; lia].
    exists ed'. split; [rewrite nth_error_app1 by exact Hlt; exact E|].
    exact (scale_edep_by_owner _ _ _ slopes B n i ed ind ed' owners
             Hscale (eq_refl _) He Hi E Hs Hr Ho).
  - rewrite HB, Hnn in Hmul.
    exact (mul_per_sample_rows _ _ _ B n n0 Hidep Hmul).
Qed.

(** The earlier error row of the example is owned by sample 1. *)
Lemma X12_witness :
  sym_flat ex_sym_batch 2 2
  /\ Interval_ReLU_forward ex_relu_layer (PySym ex_sym_batch)
     = Ok (PySym ex_sym_batch_relu)
  /\ tshape (Symbolic_interval.idep ex_sym_batch) = [2; 1; 2]%nat
  /\ nth_error (Symbolic_interval.edep ex_sym_batch) 0
     = Some (mkT [1; 2]%nat [1 # 2; 1 # 4])
  /\ nth_error (Symbolic_interval.edep_ind ex_sym_batch) 0
     = Some (mkT [1; 2]%nat [0; 1])
  /\ Forall (fun b => (b < 2)%nat) [1%nat]
  /\ tshape (Symbolic_interval.idep ex_sym_batch_relu) = [2; 1; 2]%nat.
Proof.
  split; [exact ex_sym_batch_flat|]. split; [vm_compute; reflexivity|].
  split; [reflexivity|]. split; [reflexivity|]. split; [reflexivity|].
  split; [repeat constructor|].
  destruct (X12_symbolic_relu_scales_dependencies ex_relu_layer ex_sym_batch
              ex_sym_batch_relu 2 2 1 0 (mkT [1; 2]%nat [1 # 2; 1 # 4])
              (mkT [1; 2]%nat [0; 1]) [1%nat] ex_sym_batch_flat)
    as (_ & H & _).
  - vm_compute; reflexivity.
  - reflexivity.
  - reflexivity.
  - reflexivity.
  - reflexivity.
  - reflexivity.
  - repeat constructor.
  - exact H.
Defined.

(* ================================================================== *)
(** ** The error rate *)

Lemma split_last_app (s lead : list nat) (n : nat) :
  split_last s = Some (lead, n) -> s = lead ++ [n].
Proof.
  unfold split_last. destruct (rev s) as [|x rs] eqn:E; [discriminate|].
  intros H; inversion H; subst.
  rewrite <- (rev_involutive s), E. reflexivity.
Qed.

Lemma F_linear_batched (x W r : Tensor) (b : option Tensor) (B d : nat)
  (rest : list nat) :
  tshape x = B :: d :: rest -> F_linear x W b = Ok r ->
  exists d' rest', tshape r = B :: d' :: rest'.
Proof.
  intros Hs. unfold F_linear.
  destruct (tshape W) as [|m [|n [|? ?]]]; try discriminate.
  destruct (split_last (tshape x)) as [[lead n']|] eqn:E; try discriminate.
  destruct (_ && _); [|discriminate].
  intros H; inversion H; subst r; clear H. simpl.
  apply split_last_app in E. rewrite Hs in E.
  destruct lead as [|b0 lead]; [discriminate|]. simpl in E.
  inversion E; subst b0.
  destruct lead as [|d0 lead]; simpl; eauto.
Qed.

Lemma F_conv2d_batched (x W r : Tensor) (s p : nat * nat) (b : option Tensor)
  (B d : nat) (rest : list nat) :
  tshape x = B :: d :: rest -> F_conv2d x W s p b = Ok r ->
  exists d' rest', tshape r = B :: d' :: rest'.
Proof.
  intros Hs. unfold F_conv2d. rewrite Hs.
  destruct rest as [|H [|Wd [|? ?]]]; try discriminate.
  destruct (tshape W) as [|Cout [|Cin' [|kH [|kW [|? ?]]]]]; try discriminate.
  destruct s as [sH sW], p as [pH pW].
  destruct (_ && _); [|discriminate].
  intros E; inversion E; subst r. simpl. eauto.
Qed.

Lemma stored_center_shape (ix : Interval.t) :
  stored ix -> tshape (Interval.c ix) = tshape (Interval.l ix).
Proof.
  intros H. destruct (store_fields _ _ _ _ _ H) as (_ & _ & _ & _ & _ & Hc & _).
  rewrite Hc. reflexivity.
Qed.

(** A transfer function on a box returns a stored box with the same batch
    size. *)
Lemma box_layer_batched (f : IntervalLayer) (ix : Interval.t) (out : PyObj)
  (B : nat) :
  stored ix -> batched ix B ->
  call_layer f (PyBox ix) = Ok out ->
  exists ix1, out = PyBox ix1 /\ stored ix1 /\ batched ix1 B.
Proof.
  intros Hst (d & rest & Hs) H.
  pose proof (stored_center_shape ix Hst) as Hc. rewrite Hs in Hc.
  assert (Haff : forall c' e' lo hi ix1,
             (exists d' rest', tshape c' = B :: d' :: rest') ->
             t_sub c' e' = Ok lo -> Interval.update_lu ix lo hi = Ok ix1 ->
             stored ix1 /\ batched ix1 B).
  { intros c' e' lo hi ix1 (d' & rest' & Hc') Hlo Hup.
    apply zipT_Ok in Hlo. destruct Hlo as [_ ->].
    unfold Interval.update_lu in Hup.
    destruct (store_fields _ _ _ _ _ Hup) as (Hl1 & _).
    split; [eapply store_stored; eauto|].
    exists d', rest'. rewrite Hl1. exact Hc'. }
  destruct f as [layer|layer|layer| ]; simpl in H.
  - inv_bind_as H c' Hc'. inv_bind_as H e' He. inv_bind_as H lo Hlo.
    inv_bind_as H hi Hhi. inv_bind_as H ix1 Hup. inversion H; subst out.
    exists ix1. split; [reflexivity|].
    apply (Haff c' e' lo hi ix1); auto.
    exact (F_linear_batched _ _ _ _ B d rest Hc Hc').
  - inv_bind_as H mask Hm. inv_bind_as H ix1 Hup. inversion H; subst out.
    unfold Interval.update_lu in Hup. cbn [Interval.l Interval.u] in Hup.
    destruct (store_fields _ _ _ _ _ Hup) as (Hl1 & _).
    exists ix1. split; [reflexivity|]. split; [eapply store_stored; eauto|].
    exists d, rest. rewrite Hl1. exact Hs.
  - inv_bind_as H c' Hc'. inv_bind_as H e' He. inv_bind_as H lo Hlo.
    inv_bind_as H hi Hhi. inv_bind_as H ix1 Hup. inversion H; subst out.
    exists ix1. split; [reflexivity|].
    apply (Haff c' e' lo hi ix1); auto.
    exact (F_conv2d_batched _ _ _ _ _ _ B d rest Hc Hc').
  - inv_bind_as H bl Hbl. inv_bind_as H lo Hlo. inv_bind_as H bu Hbu.
    inv_bind_as H hi Hhi. inv_bind_as H ix1 Hup. inversion H; subst out.
    unfold Interval.update_lu in Hup.
    destruct (store_fields _ _ _ _ _ Hup) as (Hl1 & _).
    exists ix1. split; [reflexivity|]. split; [eapply store_stored; eauto|].
    unfold size0 in Hbl. rewrite Hs in Hbl. inversion Hbl; subst bl.
    destruct (view_neg_Ok _ _ _ _ Hlo) as [_ Hsh].
    eexists. exists []. rewrite Hl1, Hsh. reflexivity.
Qed.

Lemma box_network_batched (net : list IntervalLayer) (ix : Interval.t)
  (out : PyObj) (B : nat) :
  stored ix -> batched ix B ->
  Interval_network_forward net (PyBox ix) = Ok out ->
  exists ix', out = PyBox ix' /\ stored ix' /\ batched ix' B.
Proof.
  revert ix. induction net as [|f net IH]; intros ix Hst Hb H; simpl in H.
  - inversion H; subst out. eauto.
  - inv_bind_as H mid Hmid.
    destruct (box_layer_batched f ix mid B Hst Hb Hmid) as (ix1 & -> & S1 & B1).
    exact (IH ix1 S1 B1 H).
Qed.

(** A transfer function on a symbolic interval returns a symbolic interval
    with the same recorded batch size. *)
Lemma sym_layer_batch_size (f : IntervalLayer) (ix : Symbolic_interval.t)
  (out : PyObj) :
  call_layer f (PySym ix) = Ok out ->
  exists ix1, out = PySym ix1
              /\ Symbolic_interval.batch_size ix1
                 = Symbolic_interval.batch_size ix.
Proof.
  intros H. destruct f as [layer|layer|layer| ].
  - simpl in H. inv_bind_as H a1 H1. inv_bind_as H a2 H2. inv_bind_as H a3 H3.
    inv_bind_as H a4 H4. inversion H; subst out. eexists. split; reflexivity.
  - simpl in H.
    repeat (let a := fresh "a" in let Ha := fresh "Ha" in
            inv_bind_as H a Ha).
    inversion H; subst out. eexists. split; reflexivity.
  - simpl in H. inv_bind_as H a0 H0. unfold Symbolic_interval.shrink in H0.
    inv_bind_as H0 b1 G1. inv_bind_as H0 b2 G2. inv_bind_as H0 b3 G3.
    inversion H0; subst a0.
    inv_bind_as H a1 H1. inv_bind_as H a2 H2. inv_bind_as H a3 H3.
    inv_bind_as H a4 H4. inversion H; subst out. eexists. split; reflexivity.
  - simpl in H. inv_bind_as H a0 H0. unfold Symbolic_interval.extend in H0.
    inv_bind_as H0 b1 G1. inv_bind_as H0 b2 G2. inv_bind_as H0 b3 G3.
    inversion H0; subst a0. inversion H; subst out. eexists. split; reflexivity.
Qed.

Lemma sym_network_batch_size (net : list IntervalLayer)
  (ix : Symbolic_interval.t) (out : PyObj) :
  Interval_network_forward net (PySym ix) = Ok out ->
  exists ix', out = PySym ix'
              /\ Symbolic_interval.batch_size ix'
                 = Symbolic_interval.batch_size ix.
Proof.
  revert ix. induction net as [|f net IH]; intros ix H; simpl in H.
  - inversion H; subst out. eauto.
  - inv_bind_as H mid Hmid.
    destruct (sym_layer_batch_size f ix mid Hmid) as (ix1 & -> & E1).
    destruct (IH ix1 H) as (ix' & -> & E). exists ix'. split; [reflexivity|].
    congruence.
Qed.

Lemma count_true_le (bs : list bool) : (count_true bs <= length bs)%nat.
Proof.
  unfold count_true. induction bs as [|b bs IH]; simpl; [lia|].
  destruct b; simpl; lia.
Qed.

Lemma rate_in_unit (wrong B : nat) (r : Q) :
  (wrong <= B)%nat -> rate wrong B = Ok r -> 0 <= r <= 1.
Proof.
  intros Hle H. destruct (rate_spec wrong B r H) as [HB ->].
  assert (P : 0 < inject_Z (Z.of_nat B)).
  { change 0 with (inject_Z 0). rewrite <- Zlt_Qlt. lia. }
  assert (W : 0 <= inject_Z (Z.of_nat wrong)).
  { change 0 with (inject_Z 0). rewrite <- Zle_Qle. lia. }
  assert (L : inject_Z (Z.of_nat wrong) <= inject_Z (Z.of_nat B)).
  { rewrite <- Zle_Qle. lia. }
  split.
  - apply Qle_shift_div_l; [exact P | lra].
  - apply Qle_shift_div_r; [exact P | lra].
Qed.

(** The scoring steps shared by both entry points, on worst-case logits
    with one row per sample of the batch. *)
Lemma score_in_unit (wc : Tensor) (y pred : list nat) (wrong B K : nat) (r : Q) :
  tshape wc = [B; K] ->
  predictions wc = Ok pred -> mismatches pred y = Ok wrong ->
  rate wrong B = Ok r ->
  0 <= r <= 1.
Proof.
  intros Hs Hp Hm Hr. apply (rate_in_unit wrong B r); [|exact Hr].
  destruct (predictions_spec wc pred Hp) as (B' & K' & Hs' & _ & -> & _).
  rewrite Hs in Hs'. inversion Hs'; subst B' K'.
  destruct (mismatches_spec _ _ _ Hm) as [_ ->].
  eapply Nat.le_trans; [apply count_true_le|].
  rewrite zip_with_length, length_map, to_rows_length. lia.
Qed.

(** X13. On a batch of size (B, d, ...) the error rate returned by either
    entry point is a fraction between 0 and 1: the transfer functions keep
    the batch dimension, so the mismatching samples are counted among the
    [B] rows that [X.shape[0]] divides by. *)
Theorem X13_error_rate_is_a_fraction :
  forall (Loss : Type) (CE : Tensor -> list nat -> Result Loss) (d : Domain)
         (model : list Layer) (epsilon : Q) (X : Tensor) (y : list nat)
         (use_cuda : bool) (out : Stdout) (iloss : Loss) (ierr : Q)
         (B dd : nat) (rest : list nat),
    tshape X = B :: dd :: rest ->
    fst (interval_analyze Loss CE d model epsilon X y use_cuda out)
    = Ok (iloss, ierr) ->
    0 <= ierr <= 1.
Proof.
  intros Loss CE d model epsilon X y use_cuda out iloss ierr B dd rest HX H.
  destruct d; simpl in H.
  - unfold naive_interval_analyze in H.
    destruct (naive_interval_body Loss CE model epsilon X y use_cuda)
      as [[[l0 e0] w0]|ex] eqn:Hb; simpl in H; [|discriminate].
    inversion H; subst l0 e0; clear H.
    unfold naive_interval_body, initial_bounds in Hb.
    inv_bind_as Hb lu Hlu. inv_bind_as Hlu mn Hmn. inv_bind_as Hlu mx Hmx.
    inversion Hlu; subst lu; clear Hlu. simpl in Hb.
    inv_bind_as Hb ix Hix. inv_bind_as Hb res Hres.
    unfold Interval.construct in Hix.
    destruct (store_fields _ _ _ _ _ Hix) as (Hl0 & _).
    assert (Hb0 : batched ix B)
      by (exists dd, rest; rewrite Hl0; simpl; exact HX).
    destruct (box_network_batched _ ix res B (store_stored _ _ _ _ _ Hix) Hb0 Hres)
      as (ix' & -> & _ & (d' & rest' & Hs')).
    inv_bind_as Hb wc Hwc. inv_bind_as Hb lossv Hloss.
    inv_bind_as Hb prd Hpred. inv_bind_as Hb wrong Hwrong.
    inv_bind_as Hb B0 HB. inv_bind_as Hb r Hr.
    inversion Hb; subst; clear Hb.
    unfold size0 in HB. rewrite HX in HB. inversion HB; subst B0.
    unfold Interval.worst_case in Hwc. rewrite Hs' in Hwc.
    destruct rest' as [|? ?]; [|discriminate].
    destruct (_ && _); [|discriminate]. inversion Hwc; subst wc.
    refine (score_in_unit _ y prd wrong B d' ierr _ Hpred Hwrong Hr).
    reflexivity.
  - unfold sym_interval_analyze in H. simpl in H. unfold initial_bounds in H.
    inv_bind_as H lu Hlu. inv_bind_as Hlu mn Hmn. inv_bind_as Hlu mx Hmx.
    inversion Hlu; subst lu; clear Hlu. simpl in H.
    inv_bind_as H ix Hix. inv_bind_as H res Hres.
    destruct (sym_network_batch_size _ ix res Hres) as (ix' & -> & Hbs).
    inv_bind_as H k Hk. inv_bind_as H wc Hwc. inv_bind_as H lossv Hloss.
    inv_bind_as H prd Hpred. inv_bind_as H wrong Hwrong.
    inv_bind_as H B0 HB. inv_bind_as H r Hr.
    inversion H; subst; clear H.
    unfold size0 in HB. rewrite HX in HB. inversion HB; subst B0.
    assert (Hix0 : Symbolic_interval.batch_size ix = B).
    { unfold Symbolic_interval.construct in Hix. inv_bind_as Hix ok Hok.
      destruct (forallb _ _); [|discriminate].
      inv_bind_as Hix s Hs. inv_bind_as Hix dv Hd. inv_bind_as Hix B1 HB1.
      inversion Hix; subst ix. simpl.
      unfold size0 in HB1. simpl in HB1. rewrite HX in HB1. now inversion HB1. }
    unfold Symbolic_interval.worst_case in Hwc.
    destruct (_ && _); [|discriminate]. inversion Hwc; subst wc.
    refine (score_in_unit _ y prd wrong _ k ierr _ Hpred Hwrong Hr).
    cbn [tshape]. rewrite <- Hix0, <- Hbs. reflexivity.
Qed.

Lemma X13_witness :
  tshape ex_X = [1; 2]%nat
  /\ fst (interval_analyze unit ex_CE BoxDomain ex_model (1 # 4) ex_X [0%nat]
            false [])
     = Ok (tt, ex_rate BoxDomain)
  /\ 0 <= ex_rate BoxDomain <= 1.
Proof.
  split; [reflexivity|]. split; [vm_compute; reflexivity|].
  apply (X13_error_rate_is_a_fraction unit ex_CE BoxDomain ex_model (1 # 4)
           ex_X [0%nat] false [] tt (ex_rate BoxDomain) 1 2 []).
  - reflexivity.
  - vm_compute; reflexivity.
Defined.

(* ================================================================== *)
(** ** Runs on the store *)

Import Store.

(** *** Stores and references *)

Lemma agree_refl (n : nat) (h : Heap) : (n <= length h)%nat -> agree n h h.
Proof. repeat split; auto. Qed.

Lemma agree_trans (n : nat) (h1 h2 h3 : Heap) :
  agree n h1 h2 -> agree n h2 h3 -> agree n h1 h3.
Proof.
  intros (N1 & L1 & A1) (N2 & L2 & A2). repeat split; [lia | lia |].
  intros p Hp. rewrite A2, A1; auto.
Qed.

Lemma agree_le (n m : nat) (h h' : Heap) :
  (m <= n)%nat -> agree n h h' -> agree m h h'.
Proof.
  intros Hle (N & L & A). repeat split; [lia | exact L |].
  intros p Hp. apply A. lia.
Qed.

Lemma agree_app (n : nat) (h k : Heap) :
  (n <= length h)%nat -> agree n h (h ++ k).
Proof.
  intros Hn. repeat split; [exact Hn | rewrite length_app; lia |].
  intros p Hp. rewrite app_nth1; [reflexivity | lia].
Qed.

Lemma nth_upd_other {A : Type} (i p : nat) (v d : A) (xs : list A) :
  p <> i -> nth p (upd i v xs) d = nth p xs d.
Proof.
  revert i p. induction xs as [|x xs IH]; intros [|i] [|p] Hne; simpl; auto;
    try congruence.
Qed.

Lemma nth_upd_same {A : Type} (i : nat) (v d : A) (xs : list A) :
  (i < length xs)%nat -> nth i (upd i v xs) d = v.
Proof.
  revert i. induction xs as [|x xs IH]; intros [|i] Hi; simpl in *; auto; try lia.
  apply IH. lia.
Qed.

Lemma agree_upd (n i : nat) (d : list Q) (h : Heap) :
  (n <= length h)%nat -> (n <= i)%nat -> agree n h (upd i d h).
Proof.
  intros Hn Hi. repeat split; [exact Hn | rewrite upd_length; lia |].
  intros p Hp. apply nth_upd_other. lia.
Qed.

Lemma deref_agree (n : nat) (h h' : Heap) (r : tref) :
  agree n h h' -> (loc r < n)%nat -> deref h' r = deref h r.
Proof.
  intros (_ & _ & A) Hr. unfold deref. now rewrite A.
Qed.

Lemma deref_app (h k : Heap) (r : tref) :
  valid h r -> deref (h ++ k) r = deref h r.
Proof.
  intros Hr. unfold deref. now rewrite app_nth1.
Qed.

Lemma deref_fresh (h k : Heap) (i : nat) (s : list nat) :
  deref (h ++ k) (mkRef (length h + i)%nat s) = mkT s (nth i k []).
Proof.
  unfold deref. simpl. now rewrite app_nth2_plus.
Qed.

Lemma deref_fresh0 (h k : Heap) (s : list nat) :
  deref (h ++ k) (mkRef (length h) s) = mkT s (nth 0 k []).
Proof.
  pose proof (deref_fresh h k 0 s) as E. now rewrite Nat.add_0_r in E.
Qed.

Lemma deref_new (h : Heap) (t : Tensor) :
  deref (h ++ [data t]) (mkRef (length h) (tshape t)) = t.
Proof.
  rewrite deref_fresh0. now destruct t.
Qed.

Lemma deref_upd_other (h : Heap) (i : nat) (d : list Q) (r : tref) :
  loc r <> i -> deref (upd i d h) r = deref h r.
Proof.
  intros Hne. unfold deref. now rewrite nth_upd_other.
Qed.

Lemma deref_upd_same (h : Heap) (d : list Q) (r : tref) :
  valid h r -> deref (upd (loc r) d h) r = mkT (rshape r) d.
Proof.
  intros Hr. unfold deref. now rewrite nth_upd_same.
Qed.

Lemma tensor_eta (t : Tensor) : mkT (tshape t) (data t) = t.
Proof. now destruct t. Qed.

Lemma valid_app (h k : Heap) (r : tref) : valid h r -> valid (h ++ k) r.
Proof. unfold valid. rewrite length_app. lia. Qed.

Lemma valid_agree (n : nat) (h h' : Heap) (r : tref) :
  agree n h h' -> valid h r -> valid h' r.
Proof. intros (_ & L & _). unfold valid. lia. Qed.

Lemma valid_new (h : Heap) (d : list Q) (s : list nat) :
  valid (h ++ [d]) (mkRef (length h) s).
Proof. unfold valid. simpl. rewrite length_app. simpl. lia. Qed.

Lemma map_deref_app (h k : Heap) (rs : list tref) :
  Forall (valid h) rs -> map (deref (h ++ k)) rs = map (deref h) rs.
Proof.
  induction 1; simpl; [reflexivity|]. now rewrite deref_app, IHForall.
Qed.

(** *** Rules of the simulation *)

Lemma sim_ret {A B : Type} (n : nat) (h : Heap) (a : A) (b : B)
  (R : Heap -> A -> B -> Prop) :
  (n <= length h)%nat -> R h a b -> sim n (ret a) h (Ok b) R.
Proof.
  intros Hn HR. split; simpl; [now apply agree_refl | exact HR].
Qed.

Lemma sim_raise {A B : Type} (n : nat) (h : Heap) (e : Exn)
  (R : Heap -> A -> B -> Prop) :
  (n <= length h)%nat -> sim n (calc (Raise e)) h (Raise e) R.
Proof.
  intros Hn. split; simpl; [now apply agree_refl | reflexivity].
Qed.

Lemma sim_bind {A B A' B' : Type} (n : nat) (m : HM A) (k : A -> HM A')
  (h : Heap) (p : Result B) (kp : B -> Result B')
  (R : Heap -> A -> B -> Prop) (R' : Heap -> A' -> B' -> Prop) :
  sim n m h p R ->
  (forall h' a b, agree n h h' -> R h' a b -> sim n (k a) h' (kp b) R') ->
  sim n (bindH m k) h (bind p kp) R'.
Proof.
  intros [Ha Hr] Hk. unfold sim, bindH in *.
  destruct (m h) as [[a|e] h1]; simpl in *.
  - destruct p as [b|e']; [|contradiction]. simpl.
    destruct (Hk h1 a b Ha Hr) as [Ha' Hr'].
    split; [eapply agree_trans; eauto | exact Hr'].
  - destruct p as [b|e']; [contradiction|]. simpl. auto.
Qed.

Lemma sim_calc {A A' B' : Type} (n : nat) (e : Result A) (k : A -> HM A')
  (h : Heap) (kp : A -> Result B') (R' : Heap -> A' -> B' -> Prop) :
  (n <= length h)%nat ->
  (forall a, e = Ok a -> sim n (k a) h (kp a) R') ->
  sim n (bindH (calc e) k) h (bind e kp) R'.
Proof.
  intros Hn Hk. unfold sim, bindH, calc in *.
  destruct e as [a|ex]; simpl.
  - exact (Hk a eq_refl).
  - split; [now apply agree_refl | reflexivity].
Qed.

Lemma sim_get {A' B' : Type} (n : nat) (r : tref) (k : Tensor -> HM A')
  (h : Heap) (p : Result B') (R' : Heap -> A' -> B' -> Prop) :
  sim n (k (deref h r)) h p R' ->
  sim n (bindH (get r) k) h p R'.
Proof. intros H. exact H. Qed.

Lemma sim_new {A' B' : Type} (n : nat) (t : Tensor) (k : tref -> HM A')
  (h : Heap) (p : Result B') (R' : Heap -> A' -> B' -> Prop) :
  (n <= length h)%nat ->
  sim n (k (mkRef (length h) (tshape t))) (h ++ [data t]) p R' ->
  sim n (bindH (new t) k) h p R'.
Proof.
  intros Hn [Ha Hr]. unfold sim, bindH, new in *. simpl.
  split; [|exact Hr].
  eapply agree_trans; [apply (agree_app n h [data t] Hn) | exact Ha].
Qed.

Lemma sim_put {A' B' : Type} (n : nat) (r : tref) (d : list Q)
  (k : unit -> HM A') (h : Heap) (p : Result B')
  (R' : Heap -> A' -> B' -> Prop) :
  (n <= length h)%nat -> (n <= loc r)%nat ->
  sim n (k tt) (upd (loc r) d h) p R' ->
  sim n (bindH (put r d) k) h p R'.
Proof.
  intros Hn Hr [Ha HR]. unfold sim, bindH, put in *. simpl.
  split; [|exact HR].
  eapply agree_trans; [apply (agree_upd n (loc r) d h Hn Hr) | exact Ha].
Qed.

(** *** The box domain on the store *)

Ltac len := rewrite ?length_app, ?upd_length; simpl; lia.

Lemma get_opt_run {A : Type} (r : option tref) (k : option Tensor -> HM A)
  (h : Heap) :
  bindH (get_opt r) k h = k (option_map (deref h) r) h.
Proof. destruct r; reflexivity. Qed.

Lemma sim_get_opt {A' B' : Type} (n : nat) (r : option tref)
  (k : option Tensor -> HM A') (h : Heap) (p : Result B')
  (R' : Heap -> A' -> B' -> Prop) :
  sim n (k (option_map (deref h) r)) h p R' ->
  sim n (bindH (get_opt r) k) h p R'.
Proof.
  unfold sim. now rewrite get_opt_run.
Qed.

Lemma store_masks (lower upper : Tensor) (m m' : list Tensor) (cuda : bool) :
  Interval.store lower upper m' cuda
  = (v <- Interval.store lower upper m cuda ;;
     Ok (Interval.mk (Interval.l v) (Interval.u v) (Interval.c v)
           (Interval.e v) m' cuda)).
Proof.
  unfold Interval.store.
  destruct (zipT Qle_bool lower upper) as [ok|e]; simpl; [|reflexivity].
  destruct (forallb _ _); [|reflexivity].
  destruct (t_add lower upper); simpl; [|reflexivity].
  destruct (t_sub upper lower); simpl; reflexivity.
Qed.

Lemma store_lu (lower upper : Tensor) (m : list Tensor) (cuda : bool)
  (v : Interval.t) :
  Interval.store lower upper m cuda = Ok v ->
  Interval.l v = lower /\ Interval.u v = upper.
Proof.
  unfold Interval.store.
  destruct (zipT Qle_bool lower upper) as [ok|e]; simpl; [|discriminate].
  destruct (forallb _ _); [|discriminate].
  destruct (t_add lower upper); simpl; [|discriminate].
  destruct (t_sub upper lower); simpl; [|discriminate].
  intros H; inversion H; subst; auto.
Qed.

Lemma Forall_valid_app (h k : Heap) (rs : list tref) :
  Forall (valid h) rs -> Forall (valid (h ++ k)) rs.
Proof.
  intros H. eapply Forall_impl; [|exact H]. intros r Hr. now apply valid_app.
Qed.

(** [store_h] computes what [Interval.store] computes on the values, keeps
    the bound objects and allocates center and radius. *)
Lemma store_h_sim (n : nat) (lower upper : tref) (masks : list tref)
  (cuda : bool) (h : Heap) :
  (n <= length h)%nat ->
  valid h lower -> valid h upper -> Forall (valid h) masks ->
  sim n (store_h lower upper masks cuda) h
      (Interval.store (deref h lower) (deref h upper) (map (deref h) masks) cuda)
      (fun h' ix v => box_valid h' ix /\ box_at h' ix = v).
Proof.
  intros Hn Hl Hu Hm. rewrite (store_masks _ _ [] (map (deref h) masks)).
  unfold store_h. apply sim_get, sim_get.
  apply sim_calc; [exact Hn|]. intros v E.
  apply sim_new; [exact Hn|]. apply sim_new; [len|].
  apply sim_ret; [len|].
  destruct (store_lu _ _ _ _ _ E) as [El Eu].
  split.
  - unfold box_valid; simpl.
    split; [now apply valid_app, valid_app|].
    split; [now apply valid_app, valid_app|].
    split; [apply valid_app, valid_new|].
    split; [apply valid_new|].
    now apply Forall_valid_app, Forall_valid_app.
  - unfold box_at; simpl.
    rewrite deref_new, (deref_app _ _ (mkRef _ _)) by apply valid_new.
    rewrite deref_new.
    rewrite !(deref_app (h ++ _)) by now apply valid_app.
    rewrite !deref_app by assumption.
    rewrite !map_deref_app by (try apply Forall_valid_app; assumption).
    now rewrite El, Eu.
Qed.

Lemma box_at_update (h : Heap) (ix : HInterval) (lo hi : Tensor) :
  Interval.update_lu (box_at h ix) lo hi
  = Interval.store lo hi (map (deref h) (bmask ix)) (bcuda ix).
Proof. reflexivity. Qed.

Lemma layer_at_agree (n : nat) (h h' : Heap) (lh : HLayer) :
  agree n h h' -> layer_valid n lh -> layer_at h' lh = layer_at h lh.
Proof.
  intros Ha [Hw Hb]. unfold layer_at.
  rewrite (deref_agree n h h' _ Ha Hw).
  destruct (h_bias lh) as [b|]; simpl; [|reflexivity].
  now rewrite (deref_agree n h h' _ Ha Hb).
Qed.

Lemma affine_op_at (k : AffineKind) (h : Heap) (lh : HLayer) (x W : Tensor)
  (b : option Tensor) :
  affine_op k lh x W b = affine k (layer_at h lh) x W b.
Proof. destruct k; reflexivity. Qed.

(** The box branch of the two affine layers. *)
Lemma affine_box_sim (n : nat) (k : AffineKind) (lh : HLayer) (ix : HInterval)
  (h : Heap) :
  (n <= length h)%nat -> box_valid h ix ->
  sim n (affine_forward_h k lh (HBox ix)) h
      (affine_forward k (layer_at h lh) (PyBox (box_at h ix)))
      (denotes n).
Proof.
  intros Hn (Hl & Hu & Hc & He & Hm).
  assert (E : affine_forward k (layer_at h lh) (PyBox (box_at h ix))
              = (c' <- affine k (layer_at h lh) (deref h (bc ix))
                         (deref h (h_weight lh))
                         (option_map (deref h) (h_bias lh)) ;;
                 e' <- affine k (layer_at h lh) (deref h (be ix))
                         (t_abs (deref h (h_weight lh))) None ;;
                 lo <- t_sub c' e' ;;
                 hi <- t_add c' e' ;;
                 ix' <- Interval.update_lu (box_at h ix) lo hi ;;
                 Ok (PyBox ix')))
    by (destruct k; reflexivity).
  rewrite E. clear E. unfold affine_forward_h.
  apply sim_get, sim_get_opt, sim_get, sim_get.
  rewrite !(affine_op_at k h).
  apply sim_calc; [exact Hn|]. intros c' _.
  apply sim_calc; [exact Hn|]. intros e' _.
  apply sim_calc; [exact Hn|]. intros lo _.
  apply sim_calc; [exact Hn|]. intros hi _.
  apply sim_new; [exact Hn|]. apply sim_new; [len|].
  set (h2 := (h ++ [data lo]) ++ [data hi]).
  assert (V1 : valid h2 (mkRef (length h) (tshape lo)))
    by (apply valid_app, valid_new).
  assert (V2 : valid h2 (mkRef (length (h ++ [data lo])) (tshape hi)))
    by apply valid_new.
  assert (Vm : Forall (valid h2) (bmask ix))
    by now apply Forall_valid_app, Forall_valid_app.
  rewrite box_at_update.
  replace (Interval.store lo hi (map (deref h) (bmask ix)) (bcuda ix))
    with (Interval.store (deref h2 (mkRef (length h) (tshape lo)))
            (deref h2 (mkRef (length (h ++ [data lo])) (tshape hi)))
            (map (deref h2) (bmask ix)) (bcuda ix)).
  2:{ unfold h2. rewrite deref_new, (deref_app _ _ (mkRef _ _)) by apply valid_new.
      rewrite deref_new. rewrite !map_deref_app
        by (try apply Forall_valid_app; assumption). reflexivity. }
  eapply sim_bind.
  - apply store_h_sim; [unfold h2; len | exact V1 | exact V2 | exact Vm].
  - intros h' ix' v (N' & L' & _) [Hv Hat]. apply sim_ret; [lia|].
    split; [exact Hv | simpl; now rewrite Hat].
Qed.

Lemma map_deref_snoc (h : Heap) (rs : list tref) (t : Tensor) :
  Forall (valid h) rs ->
  map (deref (h ++ [data t])) (rs ++ [mkRef (length h) (tshape t)])
  = map (deref h) rs ++ [t].
Proof.
  intros H. rewrite map_app. simpl. rewrite deref_new.
  now rewrite map_deref_app.
Qed.

(** The box branch of the ReLU. *)
Lemma relu_box_sim (n : nat) (lh : HLayer) (ix : HInterval) (h : Heap) :
  (n <= length h)%nat -> box_valid h ix ->
  sim n (Interval_ReLU_forward_h lh (HBox ix)) h
      (Interval_ReLU_forward (layer_at h lh) (PyBox (box_at h ix)))
      (denotes n).
Proof.
  intros Hn (Hl & Hu & Hc & He & Hm).
  unfold Interval_ReLU_forward_h, Interval_ReLU_forward.
  apply sim_get, sim_get.
  cbn [box_at Interval.l Interval.u Interval.c Interval.e Interval.mask
       Interval.use_cuda].
  apply sim_calc; [exact Hn|]. intros mask _.
  apply sim_new; [exact Hn|]. apply sim_new; [len|]. apply sim_new; [len|].
  set (h1 := h ++ [data mask]).
  set (h2 := h1 ++ [data (t_relu (deref h (bl ix)))]).
  set (h3 := h2 ++ [data (t_relu (deref h (bu ix)))]).
  set (rm := mkRef (length h) (tshape mask)).
  set (rlo := mkRef (length h1) (tshape (t_relu (deref h (bl ix))))).
  set (rhi := mkRef (length h2) (tshape (t_relu (deref h (bu ix))))).
  assert (Vm : Forall (valid h3) (bmask ix ++ [rm])).
  { apply Forall_app. split.
    - now apply Forall_valid_app, Forall_valid_app, Forall_valid_app.
    - constructor; [|constructor]. apply valid_app, valid_app, valid_new. }
  unfold Interval.update_lu.
  cbn [Interval.mask Interval.use_cuda].
  replace (Interval.store (t_relu (deref h (bl ix))) (t_relu (deref h (bu ix)))
             (map (deref h) (bmask ix) ++ [mask]) (bcuda ix))
    with (Interval.store (deref h3 rlo) (deref h3 rhi)
            (map (deref h3) (bmask ix ++ [rm])) (bcuda ix)).
  2:{ assert (V1 : Forall (valid h1) (bmask ix ++ [rm])).
      { apply Forall_app. split; [now apply Forall_valid_app|].
        constructor; [apply valid_new | constructor]. }
      unfold h3, rhi. rewrite deref_new.
      rewrite (deref_app h2 _ rlo) by apply valid_new.
      rewrite (map_deref_app h2) by now apply Forall_valid_app.
      unfold h2, rlo. rewrite deref_new.
      rewrite (map_deref_app h1) by exact V1.
      unfold h1, rm. now rewrite map_deref_snoc. }
  eapply sim_bind.
  - apply (store_h_sim n rlo rhi (bmask ix ++ [rm]) (bcuda ix) h3);
      [unfold h3, h2, h1; len | apply valid_app, valid_new | apply valid_new
      | exact Vm].
  - intros h' ix' v (N' & L' & _) [Hv Hat]. apply sim_ret; [lia|].
    split; [exact Hv | simpl; now rewrite Hat].
Qed.

Lemma deref_view_as (h : Heap) (r : tref) (t' : Tensor) :
  data t' = data (deref h r) -> deref h (view_as r t') = t'.
Proof.
  intros E. unfold deref, view_as in *. simpl in *. rewrite <- E.
  now destruct t'.
Qed.

(** The box branch of Flatten. *)
Lemma flatten_box_sim (n : nat) (ix : HInterval) (h : Heap) :
  (n <= length h)%nat -> box_valid h ix ->
  sim n (Interval_Flatten_forward_h (HBox ix)) h
      (Interval_Flatten_forward (PyBox (box_at h ix)))
      (denotes n).
Proof.
  intros Hn (Hl & Hu & Hc & He & Hm).
  unfold Interval_Flatten_forward_h, Interval_Flatten_forward.
  cbn [box_at Interval.l Interval.u].
  apply sim_get.
  apply sim_calc; [exact Hn|]. intros b1 _.
  apply sim_calc; [exact Hn|]. intros lo Hlo.
  apply sim_get.
  apply sim_calc; [exact Hn|]. intros b2 _.
  apply sim_calc; [exact Hn|]. intros hi Hhi.
  destruct (view_neg_Ok _ _ _ _ Hlo) as [Dl _].
  destruct (view_neg_Ok _ _ _ _ Hhi) as [Du _].
  rewrite box_at_update. unfold update_lu_h.
  replace (Interval.store lo hi (map (deref h) (bmask ix)) (bcuda ix))
    with (Interval.store (deref h (view_as (bl ix) lo))
            (deref h (view_as (bu ix) hi)) (map (deref h) (bmask ix)) (bcuda ix))
    by (rewrite !deref_view_as by assumption; reflexivity).
  eapply sim_bind.
  - apply store_h_sim; auto.
  - intros h' ix' v (N' & L' & _) [Hv Hat]. apply sim_ret; [lia|].
    split; [exact Hv | simpl; now rewrite Hat].
Qed.

(** *** The symbolic domain on the store *)

Lemma sim_calc_end {A A' : Type} (n : nat) (e : Result A) (k : A -> HM A')
  (h : Heap) (R' : Heap -> A' -> A -> Prop) :
  (n <= length h)%nat ->
  (forall a, e = Ok a -> sim n (k a) h (Ok a) R') ->
  sim n (bindH (calc e) k) h e R'.
Proof.
  intros Hn Hk. unfold sim, bindH, calc in *.
  destruct e as [a|ex]; simpl.
  - exact (Hk a eq_refl).
  - split; [now apply agree_refl | reflexivity].
Qed.

Lemma sim_snap_box {A' B' : Type} (n : nat) (ix : HInterval)
  (k : Interval.t -> HM A') (h : Heap) (p : Result B')
  (R' : Heap -> A' -> B' -> Prop) :
  sim n (k (box_at h ix)) h p R' ->
  sim n (bindH (snap_box ix) k) h p R'.
Proof. intros H. exact H. Qed.

Lemma sim_snap_sym {A' B' : Type} (n : nat) (ix : HSymbolic)
  (k : Symbolic_interval.t -> HM A') (h : Heap) (p : Result B')
  (R' : Heap -> A' -> B' -> Prop) :
  sim n (k (sym_at h ix)) h p R' ->
  sim n (bindH (snap_sym ix) k) h p R'.
Proof. intros H. exact H. Qed.

Lemma Forall_valid_agree (n : nat) (h h' : Heap) (rs : list tref) :
  agree n h h' -> Forall (valid h) rs -> Forall (valid h') rs.
Proof.
  intros Ha H. eapply Forall_impl; [|exact H]. intros r.
  apply (valid_agree n h h' r Ha).
Qed.

(** [concretize_h] replaces the bounds by new tensors holding what
    [concretize] computes. *)
Lemma concretize_h_sim (n : nat) (ix : HSymbolic) (h : Heap) :
  (n <= length h)%nat -> sym_ok n h ix ->
  sim n (concretize_h ix) h (Ok (Symbolic_interval.concretize (sym_at h ix)))
      (fun h' ix' v => sym_ok n h' ix' /\ sym_at h' ix' = v).
Proof.
  intros Hn (V1 & V2 & O & D & S).
  unfold concretize_h. apply sim_snap_sym.
  set (v' := Symbolic_interval.concretize (sym_at h ix)).
  apply sim_new; [exact Hn|]. apply sim_new; [len|]. apply sim_ret; [len|].
  set (h1 := h ++ [data (Symbolic_interval.l v')]).
  set (h2 := h1 ++ [data (Symbolic_interval.u v')]).
  assert (A2 : agree (length h) h h2).
  { unfold h2, h1. rewrite <- app_assoc. apply agree_app. lia. }
  unfold fixed_refs in V1, S. simpl in V1, S.
  inversion V1 as [|? ? Vl V1a]; subst. inversion V1a as [|? ? Vu V1b]; subst.
  inversion V1b as [|? ? Vc V1c]; subst. inversion V1c as [|? ? Vi Vind]; subst.
  inversion S as [|? ? Sl S1a]; subst. inversion S1a as [|? ? Su S1b]; subst.
  inversion S1b as [|? ? Sc S1c]; subst. inversion S1c as [|? ? Si Sind]; subst.
  assert (Fresh : forall r, valid h2 r -> (length h <= loc r)%nat ->
                            ~ In (loc r) (map loc (sedep ix))).
  { intros r _ Hr Hin. apply in_map_iff in Hin. destruct Hin as (r' & E & Hin).
    pose proof (proj1 (Forall_forall _ _) V2 r' Hin) as Hv. unfold valid in Hv. lia. }
  split.
  - unfold sym_ok, fixed_refs. simpl.
    split.
    { constructor; [apply valid_app, valid_new|].
      constructor; [apply valid_new|].
      constructor; [now apply (valid_agree _ _ _ _ A2)|].
      constructor; [now apply (valid_agree _ _ _ _ A2)|].
      now apply (Forall_valid_agree _ _ _ _ A2). }
    split; [now apply (Forall_valid_agree _ _ _ _ A2)|].
    split; [exact O|]. split; [exact D|].
    constructor; [apply Fresh; [apply valid_app, valid_new | simpl; lia]|].
    constructor; [apply Fresh; [apply valid_new | unfold h1; simpl; len]|].
    constructor; [exact Sc|]. constructor; [exact Si | exact Sind].
  - unfold sym_at at 1. simpl.
    unfold h2 at 1. rewrite (deref_app h1) by apply valid_new.
    unfold h1 at 1. rewrite deref_new. unfold h2 at 1. rewrite deref_new.
    rewrite !(deref_agree _ _ _ _ A2) by assumption.
    assert (E1 : map (deref h2) (sedep ix) = map (deref h) (sedep ix)).
    { apply map_ext_in. intros r Hr. apply (deref_agree _ _ _ _ A2).
      exact (proj1 (Forall_forall _ _) V2 r Hr). }
    assert (E2 : map (deref h2) (sedep_ind ix) = map (deref h) (sedep_ind ix)).
    { apply map_ext_in. intros r Hr. apply (deref_agree _ _ _ _ A2).
      exact (proj1 (Forall_forall _ _) Vind r Hr). }
    rewrite E1, E2. reflexivity.
Qed.

(** *** Views *)

Lemma view_Ok {A : Type} (t t' : tensor A) (s : list nat) :
  view t s = Ok t' -> data t' = data t.
Proof.
  unfold view. destruct (_ =? _)%nat; [|discriminate].
  intros H; inversion H; reflexivity.
Qed.

Lemma mapM_view_data (f : Tensor -> Result Tensor) (ts ts' : list Tensor) :
  (forall t t', f t = Ok t' -> data t' = data t) ->
  mapM f ts = Ok ts' ->
  Forall2 (fun t t' => data t' = data t) ts ts'.
Proof.
  intros Hf H. apply mapM_Forall2 in H.
  induction H; constructor; auto.
Qed.

Lemma views_as_deref (h : Heap) (rs : list tref) (ts' : list Tensor) :
  Forall2 (fun t t' => data t' = data t) (map (deref h) rs) ts' ->
  map (deref h) (views_as rs ts') = ts' /\ map loc (views_as rs ts') = map loc rs.
Proof.
  revert ts'. induction rs as [|r rs IH]; intros ts' H; inversion H; subst.
  - split; reflexivity.
  - simpl. destruct (IH _ H4) as [E1 E2].
    unfold views_as in E1, E2. rewrite E1, E2.
    rewrite deref_view_as by assumption. split; reflexivity.
Qed.

Lemma Forall_loc {P : nat -> Prop} (rs rs' : list tref) :
  map loc rs' = map loc rs ->
  Forall (fun r => P (loc r)) rs -> Forall (fun r => P (loc r)) rs'.
Proof.
  intros E H. rewrite <- (Forall_map loc P) in H |- *. now rewrite E.
Qed.

(** A reshape of the symbolic interval: views of center, exact dependency
    and error entries, everything else as it was. *)
Lemma reshape_sim (n : nat) (ix : HSymbolic) (h : Heap)
  (f : Symbolic_interval.t -> Result Symbolic_interval.t) :
  (forall v v', f v = Ok v' ->
     exists c' idep' edep',
       v' = Symbolic_interval.set_deps v c' idep' edep'
       /\ data c' = data (Symbolic_interval.c v)
       /\ data idep' = data (Symbolic_interval.idep v)
       /\ Forall2 (fun t t' => data t' = data t) (Symbolic_interval.edep v) edep') ->
  (n <= length h)%nat -> sym_ok n h ix ->
  sim n (v <~ snap_sym ix ;;
         v' <~ calc (f v) ;;
         ret (mkHSymbolic (sl ix) (su ix)
                (view_as (sc ix) (Symbolic_interval.c v'))
                (view_as (sidep ix) (Symbolic_interval.idep v'))
                (views_as (sedep ix) (Symbolic_interval.edep v'))
                (sedep_ind ix) (sshape ix) (sn ix) (sbatch ix) (scuda ix)))
      h (f (sym_at h ix))
      (fun h' ix' v => h' = h /\ sym_ok n h' ix' /\ sym_at h' ix' = v).
Proof.
  intros Hf Hn (V1 & V2 & O & D & S).
  apply sim_snap_sym.
  apply sim_calc_end; [exact Hn|]. intros v' E.
  apply sim_ret; [exact Hn|]. split; [reflexivity|].
  destruct (Hf _ _ E) as (c' & idep' & edep' & -> & Dc & Di & De).
  cbn [Symbolic_interval.set_deps Symbolic_interval.c Symbolic_interval.idep
       Symbolic_interval.edep sym_at] in *.
  destruct (views_as_deref h (sedep ix) edep' De) as [E1 E2].
  unfold fixed_refs in V1, S. simpl in V1, S.
  inversion V1 as [|? ? Vl V1a]; subst. inversion V1a as [|? ? Vu V1b]; subst.
  inversion V1b as [|? ? Vc V1c]; subst. inversion V1c as [|? ? Vi Vind]; subst.
  inversion S as [|? ? Sl S1a]; subst. inversion S1a as [|? ? Su S1b]; subst.
  inversion S1b as [|? ? Sc S1c]; subst. inversion S1c as [|? ? Si Sind]; subst.
  split.
  - unfold sym_ok, fixed_refs. simpl. rewrite E2.
    split; [repeat constructor; auto|].
    split; [apply (Forall_loc (P := fun p => (p < length h)%nat) _ _ E2 V2)|].
    split; [apply (Forall_loc (P := fun p => (n <= p)%nat) _ _ E2 O)|].
    split; [exact D|].
    repeat constructor; auto.
  - unfold sym_at. simpl. rewrite E1.
    rewrite !deref_view_as by assumption. reflexivity.
Qed.

Lemma shrink_views (v v' : Symbolic_interval.t) :
  Symbolic_interval.shrink v = Ok v' ->
  exists c' idep' edep',
    v' = Symbolic_interval.set_deps v c' idep' edep'
    /\ data c' = data (Symbolic_interval.c v)
    /\ data idep' = data (Symbolic_interval.idep v)
    /\ Forall2 (fun t t' => data t' = data t) (Symbolic_interval.edep v) edep'.
Proof.
  unfold Symbolic_interval.shrink. intros H.
  inv_bind_as H c' Hc. inv_bind_as H idep' Hi. inv_bind_as H edep' He.
  inversion H; subst v'. exists c', idep', edep'.
  split; [reflexivity|].
  split; [exact (proj1 (view_neg_Ok _ _ _ _ Hc))|].
  split; [exact (proj1 (view_neg_Ok _ _ _ _ Hi))|].
  eapply mapM_view_data; [|exact He].
  intros t t' Ht. exact (proj1 (view_neg_Ok _ _ _ _ Ht)).
Qed.

Lemma extend_views (v v' : Symbolic_interval.t) :
  Symbolic_interval.extend v = Ok v' ->
  exists c' idep' edep',
    v' = Symbolic_interval.set_deps v c' idep' edep'
    /\ data c' = data (Symbolic_interval.c v)
    /\ data idep' = data (Symbolic_interval.idep v)
    /\ Forall2 (fun t t' => data t' = data t) (Symbolic_interval.edep v) edep'.
Proof.
  unfold Symbolic_interval.extend. intros H.
  inv_bind_as H c' Hc. inv_bind_as H idep' Hi. inv_bind_as H edep' He.
  inversion H; subst v'. exists c', idep', edep'.
  split; [reflexivity|].
  split; [exact (view_Ok _ _ _ Hc)|].
  split; [exact (proj1 (view_neg_Ok _ _ _ _ Hi))|].
  eapply mapM_view_data; [|exact He].
  intros t t' Ht. exact (proj1 (view_neg_Ok _ _ _ _ Ht)).
Qed.

(** The symbolic branch of Flatten. *)
Lemma flatten_sym_sim (n : nat) (ix : HSymbolic) (h : Heap) :
  (n <= length h)%nat -> sym_ok n h ix ->
  sim n (Interval_Flatten_forward_h (HSym ix)) h
      (Interval_Flatten_forward (PySym (sym_at h ix)))
      (denotes n).
Proof.
  intros Hn Hok. unfold Interval_Flatten_forward_h, Interval_Flatten_forward.
  eapply sim_bind.
  - apply (reshape_sim n ix h Symbolic_interval.extend extend_views Hn Hok).
  - intros h' ix' v (N' & L' & _) (-> & Hv & Hat). apply sim_ret; [exact Hn|].
    split; [exact Hv | simpl; now rewrite Hat].
Qed.

(** The loop that replaces every entry of a list by a new tensor computed
    from the old entry. *)
Lemma mapH_sim (n : nat) (g : Tensor -> Result Tensor) (rs : list tref) :
  forall h : Heap,
    (n <= length h)%nat -> Forall (valid h) rs ->
    sim n (mapH (fun r => ed <~ get r ;; ed' <~ calc (g ed) ;; new ed') rs) h
        (mapM g (map (deref h) rs))
        (fun h' rs' ts' =>
           agree (length h) h h'
           /\ map (deref h') rs' = ts'
           /\ Forall (valid h') rs'
           /\ Forall (fun r => (length h <= loc r)%nat) rs'
           /\ NoDup (map loc rs')).
Proof.
  induction rs as [|r rs IH]; intros h Hn Hv.
  - simpl. apply sim_ret; [exact Hn|].
    repeat split; try constructor; auto.
  - inversion Hv as [|? ? Hr Hrs]; subst. simpl mapH. simpl map. simpl mapM.
    eapply sim_bind with
      (R := fun h1 y t => h1 = h ++ [data t] /\ y = mkRef (length h) (tshape t)).
    + apply sim_get.
      apply sim_calc_end; [exact Hn|]. intros t Et.
      unfold sim, new. simpl. split; [now apply agree_app | auto].
    + intros h1 y t _ [-> ->].
      rewrite <- (map_deref_app h [data t] rs Hrs).
      eapply sim_bind.
      * apply IH; [len | now apply Forall_valid_app].
      * intros h2 ys ts (N2 & L2 & _) (A2 & E2 & V2 & O2 & D2).
        apply sim_ret; [lia|].
        assert (Ay : deref h2 (mkRef (length h) (tshape t)) = t).
        { rewrite (deref_agree _ _ _ _ A2) by (simpl; len). apply deref_new. }
        split.
        { eapply agree_trans; [apply (agree_app (length h) h [data t]); lia|].
          eapply agree_le; [|exact A2]. len. }
        split; [simpl; now rewrite Ay, E2|].
        split.
        { constructor; [|exact V2].
          apply (valid_agree _ _ _ _ A2), valid_new. }
        split.
        { constructor; [simpl; lia|].
          eapply Forall_impl; [|exact O2]. intros r0. rewrite length_app. simpl. lia. }
        simpl. constructor; [|exact D2].
        intros Hin. apply in_map_iff in Hin. destruct Hin as (r0 & E0 & Hin).
        pose proof (proj1 (Forall_forall _ _) O2 r0 Hin) as H0.
        rewrite length_app in H0. simpl in H0. lia.
Qed.

Lemma not_in_locs_below (m : nat) (r : tref) (rs : list tref) :
  (loc r < m)%nat -> Forall (fun r' => (m <= loc r')%nat) rs ->
  ~ In (loc r) (map loc rs).
Proof.
  intros Hr H Hin. apply in_map_iff in Hin. destruct Hin as (r' & E & Hin).
  pose proof (proj1 (Forall_forall _ _) H r' Hin) as H'. simpl in H'. lia.
Qed.

Lemma sym_ok_parts (n : nat) (h : Heap) (ix : HSymbolic) :
  sym_ok n h ix ->
  valid h (sl ix) /\ valid h (su ix) /\ valid h (sc ix) /\ valid h (sidep ix)
  /\ Forall (valid h) (sedep_ind ix) /\ Forall (valid h) (sedep ix).
Proof.
  intros (V1 & V2 & _). unfold fixed_refs in V1. simpl in V1.
  inversion V1 as [|? ? Vl V1a]; subst. inversion V1a as [|? ? Vu V1b]; subst.
  inversion V1b as [|? ? Vc V1c]; subst. inversion V1c as [|? ? Vi Vind]; subst.
  auto 10.
Qed.

(** The symbolic branch of the two affine layers. *)
Lemma affine_sym_sim (n : nat) (k : AffineKind) (lh : HLayer) (ix : HSymbolic)
  (h : Heap) :
  (n <= length h)%nat -> sym_ok n h ix ->
  sim n (affine_forward_h k lh (HSym ix)) h
      (affine_forward k (layer_at h lh) (PySym (sym_at h ix)))
      (denotes n).
Proof.
  intros Hn Hok.
  set (W := deref h (h_weight lh)).
  set (b := option_map (deref h) (h_bias lh)).
  assert (E : affine_forward k (layer_at h lh) (PySym (sym_at h ix))
              = (ixs <- layout k (sym_at h ix) ;;
                 c' <- affine k (layer_at h lh) (Symbolic_interval.c ixs) W b ;;
                 idep' <- affine k (layer_at h lh) (Symbolic_interval.idep ixs)
                            W None ;;
                 edep' <- mapM (fun ed => affine k (layer_at h lh) ed W None)
                            (Symbolic_interval.edep ixs) ;;
                 n' <- units_per_sample c' ;;
                 Ok (PySym (Symbolic_interval.concretize
                              (Symbolic_interval.set_shape
                                 (Symbolic_interval.set_deps ixs c' idep' edep')
                                 (tl (tshape c')) n')))))
    by (destruct k; reflexivity).
  rewrite E. clear E. unfold affine_forward_h.
  eapply sim_bind with
    (R := fun h' ix' v => h' = h /\ sym_ok n h' ix' /\ sym_at h' ix' = v).
  { destruct k; simpl layout.
    - apply sim_ret; auto.
    - apply (reshape_sim n ix h Symbolic_interval.shrink shrink_views Hn Hok). }
  clear ix Hok. intros h' ix ixs _ (-> & Hok & <-).
  destruct (sym_ok_parts _ _ _ Hok) as (Vl & Vu & Vc & Vi & Vind & Ved).
  destruct Hok as (_ & _ & O & D & Sep).
  apply sim_get, sim_get_opt, sim_get. fold W b.
  cbn [sym_at Symbolic_interval.c Symbolic_interval.idep Symbolic_interval.edep].
  apply sim_calc; [exact Hn|]. intros c' _.
  apply sim_new; [exact Hn|]. apply sim_get.
  rewrite (deref_app h _ (sidep ix) Vi).
  set (h1 := h ++ [data c']).
  apply sim_calc; [unfold h1; len|]. intros idep' _.
  apply sim_new; [unfold h1; len|].
  set (h2 := h1 ++ [data idep']).
  set (rc := mkRef (length h) (tshape c')).
  set (ri := mkRef (length h1) (tshape idep')).
  assert (A2 : agree (length h) h h2).
  { unfold h2, h1. rewrite <- app_assoc. apply agree_app. lia. }
  assert (L2 : length h2 = S (S (length h))) by (unfold h2, h1; len).
  replace (map (deref h) (sedep ix)) with (map (deref h2) (sedep ix))
    by (unfold h2, h1; rewrite !map_deref_app;
        [reflexivity | exact Ved | now apply Forall_valid_app]).
  eapply sim_bind.
  { apply (mapH_sim n (fun ed => affine_op k lh ed W None) (sedep ix) h2);
      [lia | now apply (Forall_valid_agree _ _ _ _ A2)]. }
  intros h3 rs' ts' (N3 & L3 & _) (A3 & E3 & V3 & O3 & D3).
  assert (A03 : agree (length h) h h3).
  { eapply agree_trans; [exact A2|]. eapply agree_le; [|exact A3]. lia. }
  apply sim_calc; [lia|]. intros n' _.
  set (ix3 := mkHSymbolic (sl ix) (su ix) rc ri rs' (sedep_ind ix)
                (tl (tshape c')) n' (sbatch ix) (scuda ix)).
  assert (Hrc : deref h3 rc = c').
  { rewrite (deref_agree _ _ _ _ A3) by (unfold rc; simpl; lia).
    unfold h2. rewrite deref_app by apply valid_new. apply deref_new. }
  assert (Hri : deref h3 ri = idep').
  { rewrite (deref_agree _ _ _ _ A3) by (unfold ri, h1; simpl; len).
    apply deref_new. }
  assert (Hat : sym_at h3 ix3
                = Symbolic_interval.set_shape
                    (Symbolic_interval.set_deps (sym_at h ix) c' idep' ts')
                    (tl (tshape c')) n').
  { assert (Em : map (deref h3) (sedep_ind ix) = map (deref h) (sedep_ind ix)).
    { apply map_ext_in. intros r Hr. apply (deref_agree _ _ _ _ A03).
      exact (proj1 (Forall_forall _ _) Vind r Hr). }
    unfold sym_at, ix3. simpl. rewrite Hrc, Hri, E3, Em.
    rewrite !(deref_agree _ _ _ _ A03) by assumption.
    reflexivity. }
  assert (Hok3 : sym_ok n h3 ix3).
  { assert (B : forall r, (loc r < length h2)%nat ->
                          ~ In (loc r) (map loc rs')).
    { intros r Hr. now apply (not_in_locs_below (length h2)). }
    unfold sym_ok, fixed_refs, ix3. simpl.
    split.
    { constructor; [now apply (valid_agree _ _ _ _ A03)|].
      constructor; [now apply (valid_agree _ _ _ _ A03)|].
      constructor; [unfold valid, rc; simpl; lia|].
      constructor; [unfold valid, ri, h1; simpl; rewrite length_app; simpl; lia|].
      now apply (Forall_valid_agree _ _ _ _ A03). }
    split; [exact V3|].
    split; [eapply Forall_impl; [|exact O3]; intros r0; simpl; lia|].
    split; [exact D3|].
    constructor; [apply B; unfold valid in Vl; lia|].
    constructor; [apply B; unfold valid in Vu; lia|].
    constructor; [apply B; unfold rc; simpl; lia|].
    constructor; [apply B; unfold ri, h1; simpl; rewrite length_app; simpl; lia|].
    rewrite Forall_forall. intros r Hr. apply B.
    pose proof (proj1 (Forall_forall _ _) Vind r Hr) as Hv. unfold valid in Hv. lia. }
  rewrite <- Hat.
  change (Ok (PySym (Symbolic_interval.concretize (sym_at h3 ix3))))
    with (v <- Ok (Symbolic_interval.concretize (sym_at h3 ix3)) ;; Ok (PySym v)).
  eapply sim_bind.
  { apply (concretize_h_sim n ix3 h3); [lia | exact Hok3]. }
  intros h4 ix4 v4 (N4 & L4 & _) [Hv4 Hat4]. apply sim_ret; [lia|].
  split; [exact Hv4 | simpl; now rewrite Hat4].
Qed.

Lemma sim_post {A B B' : Type} (n : nat) (m : HM A) (h : Heap) (p : Result B)
  (f : B -> B') (R : Heap -> A -> B -> Prop) (R' : Heap -> A -> B' -> Prop) :
  sim n m h p R ->
  (forall h' a b, agree n h h' -> R h' a b -> R' h' a (f b)) ->
  sim n m h (b <- p ;; Ok (f b)) R'.
Proof.
  intros [Ha Hr] HR. split; [exact Ha|].
  destruct (fst (m h)), p; simpl; auto.
Qed.

Lemma upd_app_last {A : Type} (h : list A) (x d : A) :
  upd (length h) d (h ++ [x]) = h ++ [d].
Proof.
  induction h as [|y h IH]; simpl; [reflexivity|]. now rewrite IH.
Qed.

Lemma scatter_1_shape (t r : Tensor) (idx : list nat) (src : list Q) :
  scatter_1 t idx src = Ok r -> tshape r = tshape t.
Proof.
  unfold scatter_1. destruct (tshape t) as [|m [|n [|? ?]]]; try discriminate.
  destruct (_ && _); [|discriminate]. intros H; inversion H; reflexivity.
Qed.

Lemma deref_put_new (h : Heap) (z r : Tensor) :
  tshape r = tshape z ->
  deref (h ++ [data r]) (mkRef (length h) (tshape z)) = r.
Proof.
  intros E. rewrite deref_fresh0. simpl. rewrite <- E. apply tensor_eta.
Qed.

Lemma map_deref_ext (h h' : Heap) (rs : list tref) :
  (forall r, In r rs -> deref h' r = deref h r) ->
  map (deref h') rs = map (deref h) rs.
Proof. intros H. now apply map_ext_in. Qed.

(** The loop over the error entries: each is overwritten in place by its
    product with the mask of the owning samples; no other cell changes. *)
Lemma scale_edep_h_sim (n : nat) (mask : tref) (edep : list tref) :
  forall (edep_ind : list tref) (h : Heap),
    (n <= length h)%nat ->
    Forall (valid h) edep ->
    Forall (fun r => (n <= loc r)%nat) edep ->
    NoDup (map loc edep) ->
    ~ In (loc mask) (map loc edep) ->
    Forall (fun r => ~ In (loc r) (map loc edep)) edep_ind ->
    sim n (scale_edep_h edep edep_ind mask) h
        (scale_edep (map (deref h) edep) (map (deref h) edep_ind) (deref h mask))
        (fun h' _ ts' =>
           length h' = length h
           /\ (forall r, ~ In (loc r) (map loc edep) -> deref h' r = deref h r)
           /\ map (deref h') edep = ts').
Proof.
  induction edep as [|ed edep IH]; intros edep_ind h Hn Hv Ho Hd Hm Hi.
  - simpl. apply sim_ret; auto.
  - destruct edep_ind as [|ind edep_ind]; simpl scale_edep_h; simpl map;
      simpl scale_edep.
    + now apply sim_raise.
    + inversion Hv as [|? ? Ved Hv']; subst.
      inversion Ho as [|? ? Oed Ho']; subst.
      inversion Hd as [|? ? Ned Hd']; subst.
      inversion Hi as [|? ? Iind Hi']; subst.
      simpl in Hm, Iind.
      apply sim_get, sim_get.
      apply sim_calc; [exact Hn|]. intros owner_mask _.
      apply sim_get.
      apply sim_calc; [exact Hn|]. intros ed' Eed.
      apply sim_put; [exact Hn | exact Oed|].
      set (h1 := upd (loc ed) (data ed') h).
      assert (F1 : forall r, loc r <> loc ed -> deref h1 r = deref h r)
        by (intros r Hr; now apply deref_upd_other).
      assert (Ee : map (deref h1) edep = map (deref h) edep).
      { apply map_deref_ext. intros r Hr. apply F1. intros E. apply Ned.
        rewrite <- E. now apply in_map. }
      assert (Ei : map (deref h1) edep_ind = map (deref h) edep_ind).
      { apply map_deref_ext. intros r Hr. apply F1. intros E.
        apply (proj1 (Forall_forall _ _) Hi' r Hr). simpl. now left. }
      assert (Em : deref h1 mask = deref h mask)
        by (apply F1; intros E; apply Hm; now left).
      rewrite <- Ee, <- Ei, <- Em.
      eapply sim_post.
      * apply (IH edep_ind h1); auto.
        -- unfold h1. now rewrite upd_length.
        -- eapply Forall_impl; [|exact Hv']. unfold valid, h1. intros r.
           now rewrite upd_length.
        -- eapply Forall_impl; [|exact Hi']. simpl. intros r Hr Hin. apply Hr.
           now right.
      * intros h' [] rest _ (L & F & E). cbv beta.
        split; [rewrite L; unfold h1; now rewrite upd_length|].
        split.
        -- intros r Hr. simpl in Hr. rewrite F by tauto. apply F1.
           intros E1. apply Hr. now left.
        -- simpl. rewrite E. f_equal. rewrite F by exact Ned.
           unfold h1. rewrite deref_upd_same by exact Ved.
           apply zipT_Ok in Eed. destruct Eed as [_ ->]. reflexivity.
Qed.

Lemma relu_sym_chain (layer : Layer) (v : Symbolic_interval.t) :
  Interval_ReLU_forward layer (PySym v)
  = (let lower := Symbolic_interval.l v in
     let upper := Symbolic_interval.u v in
     appr_condition <- appr_cond lower upper ;;
     let cond := data appr_condition in
     let mask0 := t_float (t_gt0 lower) in
     let up := masked_select (data upper) cond in
     let lo := masked_select (data lower) cond in
     slopes <- v_div up (zip_with Qminus up lo) ;;
     let mask := mkT (tshape mask0) (masked_assign (data mask0) cond slopes) in
     let m := count_true cond in
     cond2 <- view_neg appr_condition [] [Symbolic_interval.n v] ;;
     appr_ind <- nonzero cond2 ;;
     neg_lower <- t_mul mask (t_neg lower) ;;
     let appr_err := t_divc neg_lower 2 in
     error_row <- scatter_1 (zeros [m; Symbolic_interval.n v])
                    (map snd appr_ind) (masked_select (data appr_err) cond) ;;
     B <- size0 lower ;;
     edep_ind <- scatter_1 (zeros [length appr_ind; B])
                   (map fst appr_ind) (repeat 1 (length appr_ind)) ;;
     scaled <- t_mul (Symbolic_interval.c v) mask ;;
     shift <- t_mul appr_err (t_float appr_condition) ;;
     c' <- t_add scaled shift ;;
     edep' <- scale_edep (Symbolic_interval.edep v)
                (Symbolic_interval.edep_ind v) mask ;;
     idep' <- mul_per_sample (Symbolic_interval.idep v)
                (Symbolic_interval.batch_size v) (Symbolic_interval.n v) mask ;;
     Ok (PySym (Symbolic_interval.mk lower upper c' idep'
                  (edep' ++ [error_row])
                  (Symbolic_interval.edep_ind v ++ [edep_ind])
                  (Symbolic_interval.shape v) (Symbolic_interval.n v)
                  (Symbolic_interval.batch_size v)
                  (Symbolic_interval.use_cuda v)))).
Proof.
  unfold Interval_ReLU_forward, sym_relu_mask. cbv zeta.
  destruct (appr_cond _ _) as [cond|e]; [|reflexivity]. cbn [bind].
  destruct (v_div _ _) as [slopes|e]; reflexivity.
Qed.

(** The symbolic branch of the ReLU. *)
Lemma relu_sym_sim (n : nat) (lh : HLayer) (ix : HSymbolic) (h : Heap) :
  (n <= length h)%nat -> sym_ok n h ix ->
  sim n (Interval_ReLU_forward_h lh (HSym ix)) h
      (Interval_ReLU_forward (layer_at h lh) (PySym (sym_at h ix)))
      (denotes n).
Proof.
  intros Hn Hok.
  destruct (sym_ok_parts _ _ _ Hok) as (Vl & Vu & Vc & Vi & Vind & Ved).
  destruct Hok as (_ & _ & O & D & Sep).
  unfold fixed_refs in Sep. simpl in Sep.
  inversion Sep as [|? ? Sl S1a]; subst. inversion S1a as [|? ? Su S1b]; subst.
  inversion S1b as [|? ? Sc S1c]; subst. inversion S1c as [|? ? Si Sind]; subst.
  rewrite relu_sym_chain. unfold Interval_ReLU_forward_h. cbv zeta.
  cbn [sym_at Symbolic_interval.l Symbolic_interval.u Symbolic_interval.c
       Symbolic_interval.idep Symbolic_interval.edep Symbolic_interval.edep_ind
       Symbolic_interval.shape Symbolic_interval.n Symbolic_interval.batch_size
       Symbolic_interval.use_cuda].
  set (lower := deref h (sl ix)). set (upper := deref h (su ix)).
  apply sim_get, sim_get. fold lower upper.
  apply sim_calc; [exact Hn|]. intros cond _.
  apply sim_new; [exact Hn|].
  apply sim_calc; [len|]. intros slopes _.
  apply sim_get. rewrite deref_new.
  apply sim_put; [len | simpl; exact Hn|].
  cbn [loc]. rewrite upd_app_last.
  set (m0 := t_float (t_gt0 lower)).
  set (dm := masked_assign (data m0) (data cond) slopes).
  set (rmask := mkRef (length h) (tshape m0)).
  set (mask := mkT (tshape m0) dm).
  set (h1 := h ++ [dm]).
  assert (Hmask1 : deref h1 rmask = mask) by apply deref_fresh0.
  apply sim_calc; [unfold h1; len|]. intros cond2 _.
  apply sim_calc; [unfold h1; len|]. intros appr_ind _.
  apply sim_get. rewrite Hmask1.
  apply sim_calc; [unfold h1; len|]. intros neg_lower _.
  apply sim_new; [unfold h1; len|].
  apply sim_get. rewrite deref_new.
  apply sim_calc; [unfold h1; len|]. intros row Erow.
  apply sim_put; [unfold h1; len | unfold h1; simpl; len|].
  cbn [loc]. rewrite upd_app_last.
  set (z1 := zeros [count_true (data cond); sn ix]).
  set (rrow := mkRef (length h1) (tshape z1)).
  set (h2 := h1 ++ [data row]).
  apply sim_calc; [unfold h2, h1; len|]. intros B _.
  apply sim_new; [unfold h2, h1; len|].
  apply sim_get. rewrite deref_new.
  apply sim_calc; [unfold h2, h1; len|]. intros ind Eind.
  apply sim_put; [unfold h2, h1; len | unfold h2, h1; simpl; len|].
  cbn [loc]. rewrite upd_app_last.
  set (z2 := zeros [length appr_ind; B]).
  set (rind := mkRef (length h2) (tshape z2)).
  set (h3 := h2 ++ [data ind]).
  assert (A3 : agree (length h) h h3).
  { unfold h3, h2, h1. rewrite <- !app_assoc. apply agree_app. lia. }
  apply sim_get. rewrite (deref_agree _ _ _ _ A3 Vc).
  apply sim_calc; [unfold h3, h2, h1; len|]. intros scaled _.
  apply sim_calc; [unfold h3, h2, h1; len|]. intros shift _.
  apply sim_calc; [unfold h3, h2, h1; len|]. intros c' _.
  apply sim_new; [unfold h3, h2, h1; len|].
  set (rc := mkRef (length h3) (tshape c')).
  set (h4 := h3 ++ [data c']).
  assert (A4 : agree (length h) h h4).
  { eapply agree_trans; [exact A3|]. apply agree_app. unfold h3, h2, h1. len. }
  assert (L4 : length h4 = (length h + 4)%nat) by (unfold h4, h3, h2, h1; len).
  assert (Hmask4 : deref h4 rmask = mask).
  { unfold h4, h3, h2. rewrite !deref_app; [exact Hmask1 | | |];
      unfold valid, rmask, h1; simpl; len. }
  assert (Hrow4 : deref h4 rrow = row).
  { unfold h4, h3. rewrite !deref_app; [| |]; try (unfold valid, rrow, h2; simpl; len).
    unfold h2, rrow. apply deref_put_new. exact (scatter_1_shape _ _ _ _ Erow). }
  assert (Hind4 : deref h4 rind = ind).
  { unfold h4. rewrite deref_app by (unfold valid, rind, h3; simpl; len).
    unfold h3, rind. apply deref_put_new. exact (scatter_1_shape _ _ _ _ Eind). }
  assert (Hrc4 : deref h4 rc = c') by apply deref_new.
  assert (Below : forall r, valid h r -> (loc r < length h)%nat) by (intros r Hr; exact Hr).
  assert (Fresh : forall r, (length h <= loc r)%nat ->
                            ~ In (loc r) (map loc (sedep ix))).
  { intros r Hr Hin. apply in_map_iff in Hin. destruct Hin as (r' & E & Hin).
    pose proof (proj1 (Forall_forall _ _) Ved r' Hin) as Hv. unfold valid in Hv. lia. }
  replace (map (deref h) (sedep ix)) with (map (deref h4) (sedep ix))
    by (apply map_deref_ext; intros r Hr; apply (deref_agree _ _ _ _ A4);
        exact (proj1 (Forall_forall _ _) Ved r Hr)).
  replace (map (deref h) (sedep_ind ix)) with (map (deref h4) (sedep_ind ix))
    by (apply map_deref_ext; intros r Hr; apply (deref_agree _ _ _ _ A4);
        exact (proj1 (Forall_forall _ _) Vind r Hr)).
  rewrite <- Hmask4 at 1.
  eapply sim_bind.
  { apply (scale_edep_h_sim n rmask (sedep ix) (sedep_ind ix) h4);
      [lia | now apply (Forall_valid_agree _ _ _ _ A4) | exact O | exact D
      | apply Fresh; simpl; lia | exact Sind]. }
  intros h5 [] edep' (N5 & L5 & _) (Len5 & F5 & E5).
  apply sim_get, sim_get.
  rewrite (F5 (sidep ix) Si), (deref_agree _ _ _ _ A4 Vi).
  rewrite (F5 rmask) by (apply Fresh; simpl; lia). rewrite Hmask4.
  apply sim_calc; [lia|]. intros idep' _.
  apply sim_new; [lia|].
  set (ri := mkRef (length h5) (tshape idep')).
  set (h6 := h5 ++ [data idep']).
  apply sim_ret; [unfold h6; len|].
  assert (D6 : forall r, valid h5 r -> deref h6 r = deref h5 r)
    by (intros r Hr; now apply deref_app).
  assert (V56 : forall r, valid h4 r -> valid h6 r).
  { intros r Hr. unfold valid, h6 in *. rewrite length_app, Len5. simpl. lia. }
  assert (V46 : forall r, valid h r -> valid h6 r).
  { intros r Hr. apply V56. unfold valid in *. lia. }
  split.
  - (* the invariant of the object *)
    unfold obj_ok, sym_ok, fixed_refs. simpl.
    assert (N1 : ~ In (length h1) (map loc (sedep ix))).
    { apply (Fresh (mkRef (length h1) [])). unfold h1. simpl. len. }
    split.
    { constructor; [now apply V46|]. constructor; [now apply V46|].
      constructor; [apply V56; unfold valid, rc; simpl; unfold h4; len|].
      constructor; [unfold valid, ri, h6; simpl; len|].
      apply Forall_app. split.
      - eapply Forall_impl; [|exact Vind]. intros r. apply V46.
      - constructor; [|constructor]. apply V56.
        unfold valid, rind, h4, h3; simpl; len. }
    split.
    { apply Forall_app. split.
      - eapply Forall_impl; [|exact Ved]. intros r. apply V46.
      - constructor; [|constructor]. apply V56.
        unfold valid, rrow, h4, h3, h2; simpl; len. }
    split.
    { apply Forall_app. split; [exact O|].
      constructor; [|constructor]. unfold rrow, h1. simpl. len. }
    split.
    { rewrite map_app. simpl. apply NoDup_app.
      - exact D.
      - constructor; [simpl; tauto | constructor].
      - intros p Hp [E|[]]. apply N1. now rewrite E. }
    assert (G : forall r, ~ In (loc r) (map loc (sedep ix)) ->
                          loc r <> length h1 ->
                          ~ In (loc r) (map loc (sedep ix ++ [rrow]))).
    { intros r H1 H2. rewrite map_app, in_app_iff. simpl. intros [H|[H|[]]]; auto. }
    constructor; [apply G; [exact Sl | unfold valid, h1 in *; rewrite length_app; simpl; lia]|].
    constructor; [apply G; [exact Su | unfold valid, h1 in *; rewrite length_app; simpl; lia]|].
    constructor; [apply G; [apply Fresh | ]; unfold rc, h3, h2, h1; simpl; len|].
    constructor; [apply G; [apply Fresh | ]; unfold ri; simpl; unfold h1; len|].
    apply Forall_app. split.
    + rewrite Forall_forall. intros r Hr. apply G.
      * exact (proj1 (Forall_forall _ _) Sind r Hr).
      * pose proof (proj1 (Forall_forall _ _) Vind r Hr) as Hv.
        unfold valid, h1 in *. rewrite length_app. simpl. lia.
    + constructor; [|constructor].
      apply G; [apply Fresh | ]; unfold rind, h2, h1; simpl; len.
  - (* the value of the object *)
    unfold obj_at, sym_at. simpl.
    assert (Old : forall r, valid h r -> ~ In (loc r) (map loc (sedep ix)) ->
                            deref h6 r = deref h r).
    { intros r Hr Hs. rewrite D6 by (unfold valid in *; lia).
      rewrite (F5 r Hs). now apply (deref_agree _ _ _ _ A4). }
    rewrite (Old _ Vl Sl), (Old _ Vu Su).
    assert (Hc6 : deref h6 rc = c').
    { rewrite D6 by (unfold valid, rc; simpl; unfold h3, h2, h1; len).
      rewrite F5 by (apply Fresh; unfold rc, h3, h2, h1; simpl; len).
      exact Hrc4. }
    assert (Hi6 : deref h6 ri = idep') by apply deref_new.
    assert (He6 : map (deref h6) (sedep ix ++ [rrow]) = edep' ++ [row]).
    { rewrite map_app. simpl. f_equal.
      - rewrite <- E5. apply map_deref_ext. intros r Hr. apply D6.
        pose proof (proj1 (Forall_forall _ _) Ved r Hr) as Hv.
        unfold valid in *. lia.
      - rewrite D6 by (unfold valid, rrow; simpl; unfold h1; len).
        rewrite F5 by (apply Fresh; unfold rrow, h1; simpl; len).
        now rewrite Hrow4. }
    assert (Hn6 : map (deref h6) (sedep_ind ix ++ [rind])
                  = map (deref h) (sedep_ind ix) ++ [ind]).
    { rewrite map_app. simpl. f_equal.
      - apply map_deref_ext. intros r Hr. apply Old.
        + exact (proj1 (Forall_forall _ _) Vind r Hr).
        + exact (proj1 (Forall_forall _ _) Sind r Hr).
      - rewrite D6 by (unfold valid, rind; simpl; unfold h2, h1; len).
        rewrite F5 by (apply Fresh; unfold rind, h2, h1; simpl; len).
        now rewrite Hind4. }
    assert (E4 : map (deref h4) (sedep_ind ix) = map (deref h) (sedep_ind ix)).
    { apply map_deref_ext; intros r Hr; apply (deref_agree _ _ _ _ A4).
      exact (proj1 (Forall_forall _ _) Vind r Hr). }
    rewrite Hc6, Hi6, He6, Hn6, E4. reflexivity.
Qed.

(** *** The driver and the entry points on the store *)

Lemma call_layer_sim (n : nat) (f : HIntervalLayer) (o : HObj) (h : Heap) :
  (n <= length h)%nat -> obj_ok n h o ->
  sim n (call_layer_h f o) h (call_layer (ilayer_at h f) (obj_at h o))
      (denotes n).
Proof.
  intros Hn Hok.
  destruct o as [ix|ix| |name].
  - destruct f as [lh|lh|lh| ].
    + exact (affine_sym_sim n Dense lh ix h Hn Hok).
    + exact (relu_sym_sim n lh ix h Hn Hok).
    + exact (affine_sym_sim n Conv lh ix h Hn Hok).
    + apply (flatten_sym_sim n ix h Hn Hok).
  - destruct f as [lh|lh|lh| ].
    + exact (affine_box_sim n Dense lh ix h Hn Hok).
    + exact (relu_box_sim n lh ix h Hn Hok).
    + exact (affine_box_sim n Conv lh ix h Hn Hok).
    + apply (flatten_box_sim n ix h Hn Hok).
  - destruct f; apply sim_ret; auto; split; simpl; auto.
  - destruct f; apply sim_ret; auto; split; simpl; auto.
Qed.

Lemma ilayer_at_agree (n : nat) (h h' : Heap) (f : HIntervalLayer) :
  agree n h h' -> ilayer_valid n f -> ilayer_at h' f = ilayer_at h f.
Proof.
  intros Ha Hv. destruct f; simpl in *; try reflexivity;
    now rewrite (layer_at_agree n h h').
Qed.

(** The driver on the store computes what the driver computes on values. *)
Lemma forward_sim (n : nat) (net : list HIntervalLayer) :
  forall (o : HObj) (h : Heap),
    (n <= length h)%nat -> Forall (ilayer_valid n) net -> obj_ok n h o ->
    sim n (Interval_network_forward_h net o) h
        (Interval_network_forward (map (ilayer_at h) net) (obj_at h o))
        (denotes n).
Proof.
  induction net as [|f net IH]; intros o h Hn Hv Hok.
  - simpl. apply sim_ret; [exact Hn|]. split; auto.
  - inversion Hv as [|? ? Hf Hnet]; subst. simpl.
    eapply sim_bind.
    + apply (call_layer_sim n f o h Hn Hok).
    + intros h' o' v' Ha [Hok' <-].
      replace (map (ilayer_at h) net) with (map (ilayer_at h') net).
      * apply IH; auto. destruct Ha as (N & L & _). lia.
      * apply map_ext_in. intros g Hg. apply (ilayer_at_agree n h h' g Ha).
        exact (proj1 (Forall_forall _ _) Hnet g Hg).
Qed.

Lemma add_layer_at (h : Heap) (net : list HIntervalLayer) (lh : HLayer) :
  map (ilayer_at h) (add_layer_h net lh)
  = add_layer (map (ilayer_at h) net) (layer_at h lh).
Proof.
  unfold add_layer_h, add_layer, is_Linear, is_ReLU, is_Conv2d, name_has_Flatten.
  simpl. destruct (h_class lh) as [ | | |name]; simpl;
    rewrite ?map_app; try reflexivity.
  destruct (contains_Flatten name); rewrite ?map_app; reflexivity.
Qed.

Lemma network_at (h : Heap) (model : list HLayer) :
  map (ilayer_at h) (Interval_network_h model)
  = Interval_network (model_at h model).
Proof.
  unfold Interval_network_h, Interval_network, model_at.
  change (@nil IntervalLayer) with (map (ilayer_at h) []).
  generalize (@nil HIntervalLayer).
  induction model as [|lh model IH]; intros net; simpl; [reflexivity|].
  rewrite IH, add_layer_at. reflexivity.
Qed.

Lemma add_layer_valid (n : nat) (net : list HIntervalLayer) (lh : HLayer) :
  layer_valid n lh -> Forall (ilayer_valid n) net ->
  Forall (ilayer_valid n) (add_layer_h net lh).
Proof.
  intros Hl Hnet. unfold add_layer_h.
  repeat match goal with
         | |- context [if ?b then _ else _] => destruct b
         end;
    repeat (apply Forall_app; split); auto; repeat constructor; auto.
Qed.

Lemma network_valid (n : nat) (model : list HLayer) :
  Forall (layer_valid n) model ->
  Forall (ilayer_valid n) (Interval_network_h model).
Proof.
  unfold Interval_network_h.
  assert (G : forall net, Forall (layer_valid n) model ->
                          Forall (ilayer_valid n) net ->
                          Forall (ilayer_valid n) (fold_left add_layer_h model net)).
  { induction model as [|lh model IH]; intros net Hm Hnet; simpl; [exact Hnet|].
    inversion Hm; subst. apply IH; [assumption|]. now apply add_layer_valid. }
  intros H. apply G; [exact H | constructor].
Qed.

Lemma last_out_features_at (h : Heap) (model : list HLayer) :
  last_out_features (map shell model) = last_out_features (model_at h model).
Proof.
  unfold last_out_features, model_at. rewrite <- !map_rev.
  destruct (rev model); reflexivity.
Qed.

Lemma sim_eq {A : Type} (n : nat) (m : HM A) (h : Heap) (p : Result A) :
  sim n m h p (fun _ a b => a = b) ->
  fst (m h) = p /\ agree n h (snd (m h)).
Proof.
  intros [Ha Hr]. split; [|exact Ha].
  destruct (fst (m h)), p; try contradiction; congruence.
Qed.

Lemma sim_assoc {A B C D : Type} (n : nat) (m : HM A) (k1 : A -> HM B)
  (k2 : B -> HM C) (h : Heap) (p : Result D) (R : Heap -> C -> D -> Prop) :
  sim n (bindH m (fun a => bindH (k1 a) k2)) h p R ->
  sim n (bindH (bindH m k1) k2) h p R.
Proof.
  unfold sim, bindH. destruct (m h) as [[a|e] h']; auto.
Qed.

Lemma initial_bounds_h_sim (n : nat) (epsilon : Q) (X : tref) (h : Heap) :
  (n <= length h)%nat ->
  sim n (initial_bounds_h epsilon X) h (initial_bounds epsilon (deref h X))
      (fun h' rr lu =>
         valid h' (fst rr) /\ valid h' (snd rr)
         /\ deref h' (fst rr) = fst lu /\ deref h' (snd rr) = snd lu).
Proof.
  intros Hn. unfold initial_bounds_h. apply sim_get.
  apply sim_calc_end; [exact Hn|]. intros lu _.
  apply sim_new; [exact Hn|]. apply sim_new; [len|]. apply sim_ret; [len|].
  simpl. split; [apply valid_app, valid_new|]. split; [apply valid_new|].
  split; [|apply deref_new].
  rewrite deref_app by apply valid_new. apply deref_new.
Qed.

Lemma network_at_agree (n : nat) (h h' : Heap) (model : list HLayer) :
  agree n h h' -> Forall (layer_valid n) model ->
  map (ilayer_at h') (Interval_network_h model)
  = Interval_network (model_at h model).
Proof.
  intros Ha Hm. rewrite <- network_at. apply map_ext_in. intros f Hf.
  apply (ilayer_at_agree n h h' f Ha).
  exact (proj1 (Forall_forall _ _) (network_valid n model Hm) f Hf).
Qed.

Section EntryPointsRefine.

Variable Loss : Type.
Variable CE : Tensor -> list nat -> Result Loss.

(** The box entry point on the store computes what it computes on the
    values of the batch and of the parameters, and changes no cell that
    existed before. *)
Lemma naive_body_sim (model : list HLayer) (epsilon : Q) (X : tref)
  (y : list nat) (use_cuda : bool) (h : Heap) :
  valid h X -> Forall (layer_valid (length h)) model ->
  sim (length h) (naive_interval_body_h Loss CE model epsilon X y use_cuda) h
      (naive_interval_body Loss CE (model_at h model) epsilon (deref h X) y
         use_cuda)
      (fun _ a b => a = b).
Proof.
  intros HX Hm. unfold naive_interval_body_h, naive_interval_body.
  set (n := length h).
  eapply sim_bind; [apply initial_bounds_h_sim; unfold n; lia|].
  intros h1 [rlo rhi] lu A1 (V1 & V2 & E1 & E2). simpl in V1, V2, E1, E2.
  cbn [fst snd]. unfold Interval.construct.
  rewrite <- E1, <- E2.
  change (@nil Tensor) with (map (deref h1) []).
  eapply sim_bind.
  { apply store_h_sim; auto. destruct A1 as (N & L & _). lia. }
  intros h2 ix v A2 [Vix <-].
  assert (A02 : agree n h h2) by (eapply agree_trans; eauto).
  rewrite <- (network_at_agree n h h2 model A02 Hm).
  eapply sim_bind.
  { apply (forward_sim n (Interval_network_h model) (HBox ix) h2).
    - destruct A02 as (N & L & _). lia.
    - now apply network_valid.
    - exact Vix. }
  intros h3 o v3 A3 [Hok3 <-].
  assert (A03 : agree n h h3) by (eapply agree_trans; eauto).
  assert (N3 : (n <= length h3)%nat) by (destruct A03 as (N & L & _); lia).
  destruct o as [sx|bx| |name]; simpl obj_at; cbv iota;
    try (now apply sim_raise).
  unfold worst_case_box_h. apply sim_assoc, sim_snap_box.
  apply sim_calc; [exact N3|]. intros wc _.
  apply sim_calc; [exact N3|]. intros iloss _.
  apply sim_calc; [exact N3|]. intros pred _.
  apply sim_calc; [exact N3|]. intros wrong _.
  apply sim_get. rewrite (deref_agree n h h3 X A03 HX).
  apply sim_calc; [exact N3|]. intros B _.
  apply sim_calc; [exact N3|]. intros ierr _.
  apply sim_ret; [exact N3 | reflexivity].
Qed.

Lemma worst_case_concretized (v : Symbolic_interval.t) (y : list nat) (k : nat) :
  Symbolic_interval.worst_case (Symbolic_interval.concretize v) y k
  = Symbolic_interval.worst_case v y k.
Proof. reflexivity. Qed.

(** The symbolic entry point on the store computes what it computes on the
    values, and changes no cell that existed before. *)
Lemma sym_body_sim (net : list HLayer) (epsilon : Q) (X : tref)
  (y : list nat) (use_cuda : bool) (h : Heap) :
  valid h X -> Forall (layer_valid (length h)) net ->
  sim (length h) (sym_interval_body_h Loss CE net epsilon X y use_cuda) h
      (fst (sym_interval_analyze Loss CE (model_at h net) epsilon (deref h X) y
              use_cuda []))
      (fun _ a b => a = b).
Proof.
  intros HX Hm. unfold sym_interval_body_h, sym_interval_analyze. cbn [fst].
  set (n := length h).
  eapply sim_bind; [apply initial_bounds_h_sim; unfold n; lia|].
  intros h1 [rlo rhi] lu A1 (V1 & V2 & E1 & E2). simpl in V1, V2, E1, E2.
  cbn [fst snd].
  assert (N1 : (n <= length h1)%nat) by (destruct A1 as (N & L & _); lia).
  (* the constructor *)
  eapply sim_bind with
    (R := fun h' ix v => sym_ok n h' ix /\ sym_at h' ix = v).
  { unfold construct_sym_h. apply sim_get, sim_get. rewrite E1, E2.
    apply sim_calc_end; [exact N1|]. intros v Ev.
    apply sim_new; [exact N1|]. apply sim_new; [len|]. apply sim_ret; [len|].
    assert (Elu : Symbolic_interval.l v = fst lu /\ Symbolic_interval.u v = snd lu
                  /\ Symbolic_interval.edep v = []
                  /\ Symbolic_interval.edep_ind v = []
                  /\ Symbolic_interval.use_cuda v = use_cuda).
    { unfold Symbolic_interval.construct in Ev.
      inv_bind_as Ev ok Hok. destruct (forallb _ _); [|discriminate].
      inv_bind_as Ev s Hs. inv_bind_as Ev dd Hd. inv_bind_as Ev B HB.
      inversion Ev; subst v. simpl. auto. }
    destruct Elu as (El & Eu & Ee & Ei & Ecu).
    split.
    - unfold sym_ok, fixed_refs. simpl.
      split; [repeat constructor;
              [now apply valid_app, valid_app | now apply valid_app, valid_app
              | apply valid_app, valid_new | apply valid_new]|].
      split; [constructor|]. split; [constructor|]. split; [constructor|].
      repeat constructor; simpl; tauto.
    - unfold sym_at. simpl.
      rewrite deref_new, (deref_app _ _ (mkRef _ _)) by apply valid_new.
      rewrite deref_new.
      rewrite !(deref_app (h1 ++ _)) by now apply valid_app.
      rewrite !deref_app by assumption.
      rewrite E1, E2, <- El, <- Eu, <- Ecu.
      destruct v; simpl in *. now rewrite Ee, Ei. }
  intros h2 ix v A2 [Vix <-].
  assert (A02 : agree n h h2) by (eapply agree_trans; eauto).
  rewrite <- (network_at_agree n h h2 net A02 Hm).
  eapply sim_bind.
  { apply (forward_sim n (Interval_network_h net) (HSym ix) h2).
    - destruct A02 as (N & L & _). lia.
    - now apply network_valid.
    - exact Vix. }
  intros h3 o v3 A3 [Hok3 <-].
  assert (A03 : agree n h h3) by (eapply agree_trans; eauto).
  assert (N3 : (n <= length h3)%nat) by (destruct A03 as (N & L & _); lia).
  destruct o as [sx|bx| |name]; simpl obj_at; cbv iota;
    try (now apply sim_raise).
  rewrite (last_out_features_at h net).
  apply sim_calc; [exact N3|]. intros k _.
  rewrite <- worst_case_concretized.
  unfold worst_case_sym_h. apply sim_assoc.
  eapply sim_bind with
    (p := Ok (Symbolic_interval.concretize (sym_at h3 sx)))
    (kp := fun v => wc <- Symbolic_interval.worst_case v y k ;; _).
  { apply (concretize_h_sim n sx h3 N3 Hok3). }
  intros h4 sx4 v4 A4 [Hok4 <-].
  assert (A04 : agree n h h4) by (eapply agree_trans; eauto).
  assert (N4 : (n <= length h4)%nat) by (destruct A04 as (N & L & _); lia).
  apply sim_assoc, sim_snap_sym.
  apply sim_calc; [exact N4|]. intros wc _.
  apply sim_calc; [exact N4|]. intros iloss _.
  apply sim_calc; [exact N4|]. intros pred _.
  apply sim_calc; [exact N4|]. intros wrong _.
  apply sim_get. rewrite (deref_agree n h h4 X A04 HX).
  apply sim_calc; [exact N4|]. intros B _.
  apply sim_calc; [exact N4|]. intros ierr _.
  apply sim_ret; [exact N4 | reflexivity].
Qed.

End EntryPointsRefine.

Lemma layer_valid_le (n m : nat) (lh : HLayer) :
  (n <= m)%nat -> layer_valid n lh -> layer_valid m lh.
Proof.
  intros Hle [Hw Hb]. split; [lia|]. destruct (h_bias lh); [lia | exact I].
Qed.

Lemma model_at_agree (n : nat) (h h' : Heap) (model : list HLayer) :
  agree n h h' -> Forall (layer_valid n) model ->
  model_at h' model = model_at h model.
Proof.
  intros Ha Hm. unfold model_at. apply map_ext_in. intros lh Hl.
  apply (layer_at_agree n h h' lh Ha).
  exact (proj1 (Forall_forall _ _) Hm lh Hl).
Qed.

Section Runs.

Variable Loss : Type.
Variable CE : Tensor -> list nat -> Result Loss.

(** What the value-level entry points return does not depend on what had
    been printed. *)
Lemma outcome_ignores_stdout (d : Domain) (model : list Layer) (epsilon : Q)
  (X : Tensor) (y : list nat) (use_cuda : bool) (out1 out2 : Stdout) :
  fst (interval_analyze Loss CE d model epsilon X y use_cuda out1)
  = fst (interval_analyze Loss CE d model epsilon X y use_cuda out2).
Proof.
  destruct d; simpl.
  - unfold naive_interval_analyze.
    destruct (naive_interval_body Loss CE model epsilon X y use_cuda)
      as [[[iloss ierr] width]|ex]; reflexivity.
  - reflexivity.
Qed.

(** A run on the store returns what the entry point returns on the values
    of its inputs, prints what it prints, and leaves every cell that
    existed before as it was. *)
Lemma run_refines (d : Domain) (model : list HLayer) (epsilon : Q) (X : tref)
  (y : list nat) (use_cuda : bool) (w : World) :
  world_ok w model X ->
  let run := interval_analyze_h Loss CE d model epsilon X y use_cuda in
  let pure := interval_analyze Loss CE d (model_at (tensors w) model) epsilon
                (deref (tensors w) X) y use_cuda (stdout w) in
  fst (run w) = fst pure
  /\ stdout (snd (run w)) = snd pure
  /\ agree (length (tensors w)) (tensors w) (tensors (snd (run w))).
Proof.
  intros [HX Hm]. destruct d; simpl.
  - destruct (sim_eq _ _ _ _
                (naive_body_sim Loss CE model epsilon X y use_cuda (tensors w)
                   HX Hm)) as [E A].
    unfold naive_interval_analyze_h, naive_interval_analyze.
    destruct (naive_interval_body_h Loss CE model epsilon X y use_cuda (tensors w))
      as [r h']. simpl in E, A. rewrite <- E.
    destruct r as [[[iloss ierr] width]|ex]; simpl; auto.
  - destruct (sim_eq _ _ _ _
                (sym_body_sim Loss CE model epsilon X y use_cuda (tensors w)
                   HX Hm)) as [E A].
    unfold sym_interval_analyze_h.
    destruct (sym_interval_body_h Loss CE model epsilon X y use_cuda (tensors w))
      as [r h']. simpl in E, A. simpl. auto.
Qed.

End Runs.

(** C9. Two runs of either entry point on the same model, epsilon, batch
    and labels return the same outcome: with the batch and the parameters
    of the model as tensors of a store, the second run, started in the
    store and on the standard output the first one left, returns what the
    first returned (the same loss and error rate, or the same exception).
    A run is pure on its inputs: every tensor that existed before it
    denotes the same value after it (all it writes in place are tensors it
    created itself), its outcome is the one the entry point computes from
    the values of its inputs alone, and its only other effect is the line
    that [naive_interval_analyze] prints. *)
Theorem C9_runs_are_repeatable_and_keep_their_inputs :
  forall (Loss : Type) (CE : Tensor -> list nat -> Result Loss)
         (d : Domain) (model : list HLayer) (epsilon : Q) (X : tref)
         (y : list nat) (use_cuda : bool) (w : World),
    world_ok w model X ->
    let run := interval_analyze_h Loss CE d model epsilon X y use_cuda in
    let pure := interval_analyze Loss CE d (model_at (tensors w) model) epsilon
                  (deref (tensors w) X) y use_cuda (stdout w) in
    fst (run (snd (run w))) = fst (run w)
    /\ (forall r, valid (tensors w) r ->
                  deref (tensors (snd (run w))) r = deref (tensors w) r)
    /\ fst (run w) = fst pure
    /\ stdout (snd (run w)) = snd pure.
Proof.
  intros Loss CE d model epsilon X y use_cuda w Hw run pure.
  destruct (run_refines Loss CE d model epsilon X y use_cuda w Hw) as (E1 & O1 & A1).
  fold run pure in E1, O1, A1.
  set (w1 := snd (run w)) in *.
  assert (Hw1 : world_ok w1 model X).
  { destruct Hw as [HX Hm]. split; [exact (valid_agree _ _ _ _ A1 HX)|].
    eapply Forall_impl; [|exact Hm]. intros lh.
    apply layer_valid_le. destruct A1 as (_ & L & _). exact L. }
  destruct (run_refines Loss CE d model epsilon X y use_cuda w1 Hw1) as (E2 & _ & _).
  fold run in E2.
  split.
  - rewrite E2, E1. unfold pure.
    rewrite (model_at_agree _ _ _ _ A1 (proj2 Hw)).
    rewrite (deref_agree _ _ _ _ A1 (proj1 Hw)).
    apply outcome_ignores_stdout.
  - split; [|split; assumption].
    intros r Hr. exact (deref_agree _ _ _ _ A1 Hr).
Qed.

Lemma ex_world_ok : world_ok ex_world ex_hmodel ex_X_ref.
Proof.
  split; [unfold valid; simpl; lia|].
  repeat constructor; simpl; lia.
Qed.

(** The scenario of spec 8 on the store, in the symbolic domain. *)
Lemma C9_witness :
  world_ok ex_world ex_hmodel ex_X_ref
  /\ (let run := interval_analyze_h unit ex_CE SymbolicDomain ex_hmodel (1 # 4)
                   ex_X_ref [0%nat] false in
      let pure := interval_analyze unit ex_CE SymbolicDomain
                    (model_at (tensors ex_world) ex_hmodel) (1 # 4)
                    (deref (tensors ex_world) ex_X_ref) [0%nat] false
                    (stdout ex_world) in
      fst (run (snd (run ex_world))) = fst (run ex_world)
      /\ (forall r, valid (tensors ex_world) r ->
                    deref (tensors (snd (run ex_world))) r
                    = deref (tensors ex_world) r)
      /\ fst (run ex_world) = fst pure
      /\ stdout (snd (run ex_world)) = snd pure).
Proof.
  split; [exact ex_world_ok|].
  exact (C9_runs_are_repeatable_and_keep_their_inputs unit ex_CE
           SymbolicDomain ex_hmodel (1 # 4) ex_X_ref [0%nat] false
           ex_world ex_world_ok).
Defined.

(** On the scenario the runs on the store return what the entry points
    return on the values. *)
Lemma ex_run_values :
  model_at ex_tensors ex_hmodel = ex_model
  /\ deref ex_tensors ex_X_ref = ex_X
  /\ fst (interval_analyze_h unit ex_CE SymbolicDomain ex_hmodel (1 # 4)
            ex_X_ref [0%nat] false ex_world)
     = Ok (tt, ex_rate SymbolicDomain)
  /\ fst (interval_analyze_h unit ex_CE BoxDomain ex_hmodel (1 # 4)
            ex_X_ref [0%nat] false ex_world)
     = Ok (tt, ex_rate BoxDomain).
Proof.
  repeat split; vm_compute; reflexivity.
Qed.
